(** * graphdb: an in-memory, label-indexed graph store

    A shallow embedding of [graphdb/graphdb.py] (classes [Node], [GraphDB]
    and [Queue]) and the properties of it that the specification states.

    Python objects are modelled by handles into heaps: a [Node] object is a
    [Handle] into [heap], a [set] object of the index store is a [SetRef]
    into [setHeap], so that the sets shared between [indexeStore] and
    [allIndexSets] are shared in the model too.  Every method is a
    computation in a state-and-exception monad over the store. *)

From Stdlib Require Import ZArith Lia Ascii String.
From stdpp Require Import base decidable option list gmap strings pretty sorting.

Local Open Scope string_scope.
Local Open Scope list_scope.
Local Open Scope nat_scope.

(** ** Strings: [str.split] with a one-character separator *)

Module Str.

Fixpoint split (sep : ascii) (s : string) : list string :=
  match s with
  | EmptyString => [EmptyString]
  | String c s' =>
      if Ascii.eqb c sep then EmptyString :: split sep s'
      else match split sep s' with
           | [] => [String c EmptyString]
           | w :: ws => String c w :: ws
           end
  end.

(** Number of occurrences of a character. *)
Fixpoint count (sep : ascii) (s : string) : nat :=
  match s with
  | EmptyString => 0
  | String c s' => (if Ascii.eqb c sep then 1 else 0) + count sep s'
  end.

(** The text after the first occurrence of [sep] (empty when there is none). *)
Fixpoint after (sep : ascii) (s : string) : string :=
  match s with
  | EmptyString => EmptyString
  | String c s' => if Ascii.eqb c sep then s' else after sep s'
  end.

(** The text before the first occurrence of [sep]. *)
Fixpoint before (sep : ascii) (s : string) : string :=
  match s with
  | EmptyString => EmptyString
  | String c s' => if Ascii.eqb c sep then EmptyString else String c (before sep s')
  end.

End Str.

(** ** Exceptions and outcomes *)

(** The exceptions the code raises, by the statement that raises them.  The
    specification's names: QuerySyntaxError is [InvalidQuery] or
    [InvalidQueryFormat], NotFound is [NoNodesFound], InvalidOperation is
    [CannotConnectOneself], [NotANode] or [ReservedProperty]. *)
Inductive Exn : Type :=
  | CannotConnectOneself   (* "Cannot connect onself." *)
  | NotANode               (* "Not a node." / "Not a Node" *)
  | ReservedProperty       (* "Reserved property id cannot be added/updated." *)
  | InvalidQueryFormat     (* "Invalid query format for searchById. ..." *)
  | NoNodesFound           (* "No nodes of type ... found with id: ..." *)
  | InvalidQuery           (* "Invalid Query" *)
  | QueueIsEmpty           (* "Queue is empty" *)
  | AttributeError         (* [node.id]: a Node has no attribute [id] *)
  | ValueError             (* an invalid format specifier *)
  | KeyError               (* a dict subscript with a missing key *)
  | IndexError.            (* [list(...)[0]] on an empty list *)

Global Instance Exn_eq_dec : EqDecision Exn.
Proof. solve_decision. Defined.

(** What a call does: it returns, it raises, or the model's fuel ran out
    (only the loop of [bfs] consumes fuel). *)
Inductive Outcome (A : Type) : Type :=
  | Return (a : A)
  | Raise (e : Exn)
  | OutOfFuel.
Arguments Return {A} a.
Arguments Raise {A} e.
Arguments OutOfFuel {A}.

Definition is_Return {A} (o : Outcome A) : Prop :=
  match o with Return _ => True | _ => False end.

(** ** The query qualifier parser (static methods of [GraphDB]) *)

Definition parseQueryClause (query : string) : Outcome (string * string) :=
  match Str.split "=" query with
  | [value] => Return ("id", value)
  | [key; value] => Return (key, value)
  | _ => Raise InvalidQuery
  end.

Definition parseQueryQualifier (queryQualifier : string)
  : Outcome (string * option string * option string) :=
  match Str.split ":" queryQualifier with
  | [label; query] =>
      match parseQueryClause query with
      | Return (key, value) => Return (label, Some key, Some value)
      | Raise e => Raise e
      | OutOfFuel => OutOfFuel
      end
  | [label] => Return (label, None, None)
  | _ => Raise InvalidQuery
  end.

(** ** Objects *)

Abbreviation Handle := nat (only parsing).   (* a Node object *)
Abbreviation SetRef := nat (only parsing).   (* a set object of the index store *)

Record Node : Type := mkNode {
  label : string;
  properties : gmap string string;
  connections : gset Handle
}.

(** [Node.__init__(id, label)] *)
Definition Node_init (id label : string) : Node :=
  mkNode label {["id" := id]} ∅.

Record GraphDB : Type := mkGraphDB {
  heap : list Node;                      (* the Node objects, by handle *)
  setHeap : list (gset Handle);          (* the set objects, by reference *)
  nodes : gset Handle;
  indexeStore : gmap string (gmap (option string) (gmap (option string) SetRef));
  allIndexSets : list SetRef
}.

(** Dereferencing a handle or a set reference.  Every handle and reference
    the code holds is allocated; the defaults make the functions total. *)
Definition nodeAt (hp : list Node) (h : Handle) : Node :=
  default (mkNode "" ∅ ∅) (hp !! h).

Definition setAt (sh : list (gset Handle)) (r : SetRef) : gset Handle :=
  default ∅ (sh !! r).

(** [GraphDB.__init__] *)
Definition GraphDB_init : GraphDB := mkGraphDB [] [] ∅ ∅ [].

Definition with_heap (f : list Node → list Node) (db : GraphDB) : GraphDB :=
  mkGraphDB (f (heap db)) (setHeap db) (nodes db) (indexeStore db) (allIndexSets db).
Definition with_setHeap (f : list (gset Handle) → list (gset Handle)) (db : GraphDB) : GraphDB :=
  mkGraphDB (heap db) (f (setHeap db)) (nodes db) (indexeStore db) (allIndexSets db).
Definition with_nodes (f : gset Handle → gset Handle) (db : GraphDB) : GraphDB :=
  mkGraphDB (heap db) (setHeap db) (f (nodes db)) (indexeStore db) (allIndexSets db).
Definition with_indexeStore
    (f : gmap string (gmap (option string) (gmap (option string) SetRef)) →
         gmap string (gmap (option string) (gmap (option string) SetRef)))
    (db : GraphDB) : GraphDB :=
  mkGraphDB (heap db) (setHeap db) (nodes db) (f (indexeStore db)) (allIndexSets db).
Definition with_allIndexSets (f : list SetRef → list SetRef) (db : GraphDB) : GraphDB :=
  mkGraphDB (heap db) (setHeap db) (nodes db) (indexeStore db) (f (allIndexSets db)).

(** ** The monad of store computations *)

Definition M (A : Type) : Type := GraphDB → GraphDB * Outcome A.

Definition ret {A} (a : A) : M A := λ db, (db, Return a).
Definition raise {A} (e : Exn) : M A := λ db, (db, Raise e).
Definition bind {A B} (m : M A) (k : A → M B) : M B :=
  λ db, match m db with
        | (db', Return a) => k a db'
        | (db', Raise e) => (db', Raise e)
        | (db', OutOfFuel) => (db', OutOfFuel)
        end.
Definition get : M GraphDB := λ db, (db, Return db).
Definition modify (f : GraphDB → GraphDB) : M unit := λ db, (f db, Return tt).
Definition lift {A} (o : Outcome A) : M A := λ db, (db, o).

(** [try: m except: h] — a bare [except] catches every exception. *)
Definition catch {A} (m : M A) (h : Exn → M A) : M A :=
  λ db, match m db with
        | (db', Raise e) => h e db'
        | r => r
        end.

Declare Scope M_scope.
Delimit Scope M_scope with M.
Notation "x ← y ; z" := (bind y (λ x, z))
  (at level 20, y at level 100, z at level 200, only parsing) : M_scope.
Notation "' x ← y ; z" := (bind y (λ x, z))
  (at level 20, x pattern, y at level 100, z at level 200, only parsing) : M_scope.
Notation "x ;; z" := (bind x (λ _, z))
  (at level 100, z at level 200, only parsing, right associativity) : M_scope.
Local Open Scope M_scope.

(** [for x in l: body x] *)
Fixpoint for_ {A} (l : list A) (body : A → M unit) : M unit :=
  match l with
  | [] => ret tt
  | x :: l' => body x ;; for_ l' body
  end.

(** A dict subscript [d[k]]. *)
Definition subscript {A} (o : option A) : M A :=
  match o with
  | Some a => ret a
  | None => raise KeyError
  end.

(** ** The Python runtime

    Two things the code relies on are fixed by the interpreter and not by
    the program: what the built-in [format(value, spec)] returns for two
    strings ([None] stands for its [ValueError]), and in what order a [set]
    is iterated.  Both are parameters of the model; [set_order] encodes the
    iteration order of a set as the number of a permutation of its elements,
    so that every order is the behaviour of some runtime. *)
Record Runtime : Type := mkRuntime {
  str_format : string → string → option string;
  set_order : list Handle → nat
}.

Definition insert_at {A} (i : nat) (x : A) (l : list A) : list A :=
  take i l ++ x :: drop i l.

Fixpoint permute {A} (code : nat) (l : list A) : list A :=
  match l with
  | [] => []
  | x :: l' => insert_at (code mod S (length l')) x (permute (code / S (length l')) l')
  end.

(** The elements of a set, in the order the runtime iterates them. *)
Definition set_iter (rt : Runtime) (s : gset Handle) : list Handle :=
  permute (set_order rt (elements s)) (elements s).

(** ** class Queue

    The linked list of [ListNode]s from [front] to [back]; the items are
    nodes or the marker [None]. *)
Module Queue.

Abbreviation t := (list (option Handle)) (only parsing).

Definition empty : t := [].

Definition isEmpty (q : t) : bool :=
  match q with [] => true | _ => false end.

Definition enqueue (item : option Handle) (q : t) : t := q ++ [item].

Definition dequeue (q : t) : Outcome (option Handle * t) :=
  match q with
  | [] => Raise QueueIsEmpty
  | item :: q' => Return (item, q')
  end.

(** [peek] returns the front item, and [None] when the queue is empty. *)
Definition peek (q : t) : option Handle :=
  match q with
  | [] => None
  | item :: _ => item
  end.

Definition size (q : t) : nat := length q.

End Queue.

(** ** Insertion-ordered dicts with string keys (the result of [bfs]) *)

Fixpoint dict_get {V} (k : string) (d : list (string * V)) : option V :=
  match d with
  | [] => None
  | (k', v) :: d' => if decide (k' = k) then Some v else dict_get k d'
  end.

(** [d.update({k: v})] *)
Fixpoint dict_update {V} (k : string) (v : V) (d : list (string * V)) : list (string * V) :=
  match d with
  | [] => [(k, v)]
  | (k', v') :: d' =>
      if decide (k' = k) then (k, v) :: d' else (k', v') :: dict_update k v d'
  end.

Abbreviation Levels := (list (string * list Handle)) (only parsing).

(** ** class Node *)

Definition getNode (self : Handle) : M Node :=
  db ← get; ret (nodeAt (heap db) self).

Definition modifyNode (self : Handle) (f : Node → Node) : M unit :=
  modify (with_heap (alter f self)).

Definition Node_addConnection (self node : Handle) : M unit :=
  if decide (node = self) then raise CannotConnectOneself
  else
    (* isinstance(node, Node) holds of every handle *)
    modifyNode self (λ n, mkNode (label n) (properties n) ({[node]} ∪ connections n)) ;;
    modifyNode node (λ n, mkNode (label n) (properties n) ({[self]} ∪ connections n)).

Definition Node_getConnections (self : Handle) : M (gset Handle) :=
  n ← getNode self; ret (connections n).

Definition Node_getLabel (self : Handle) : M string :=
  n ← getNode self; ret (label n).

Definition Node_getProperties (self : Handle) : M (gmap string string) :=
  n ← getNode self; ret (properties n).

Definition Node_addOrUpdateProperty (self : Handle) (propertyName value : string) : M unit :=
  if decide ("id" = propertyName) then raise ReservedProperty
  else modifyNode self (λ n, mkNode (label n) (<[propertyName := value]> (properties n)) (connections n)).

Definition Node_getProperty (self : Handle) (propertyName : string) : M (option string) :=
  n ← getNode self; ret (properties n !! propertyName).

(** ** class GraphDB *)

Definition derefSet (r : SetRef) : M (gset Handle) :=
  db ← get; ret (setAt (setHeap db) r).

(** [set()]: a new, empty set object. *)
Definition newSet : M SetRef :=
  db ← get;
  modify (with_setHeap (λ sh, sh ++ [∅])) ;;
  ret (length (setHeap db)).

(** [self.indexeStore[label][keyName][keyValue]] *)
Definition indexSubscript (label : string) (keyName keyValue : option string) : M SetRef :=
  db ← get;
  byLabel ← subscript (indexeStore db !! label);
  byKey ← subscript (byLabel !! keyName);
  subscript (byKey !! keyValue).

Definition index (label keyName keyValue : string) (node : Handle) : M unit :=
  db ← get;
  (if decide (indexeStore db !! label = None) then
     labelSet ← newSet;
     modify (with_indexeStore (<[label := {[None := {[None := labelSet]}]}]>))
   else ret tt) ;;
  db ← get;
  byLabel ← subscript (indexeStore db !! label);
  (if decide (byLabel !! Some keyName = None) then
     modify (with_indexeStore (alter (<[Some keyName := ∅]>) label))
   else ret tt) ;;
  db ← get;
  byLabel ← subscript (indexeStore db !! label);
  byKey ← subscript (byLabel !! Some keyName);
  (if decide (byKey !! Some keyValue = None) then
     newValueSet ← newSet;
     modify (with_indexeStore (alter (alter (<[Some keyValue := newValueSet]>) (Some keyName)) label)) ;;
     modify (with_allIndexSets (λ l, l ++ [newValueSet]))
   else ret tt) ;;
  valueSet ← indexSubscript label (Some keyName) (Some keyValue);
  modify (with_setHeap (alter (union {[node]}) valueSet)) ;;
  labelSet ← indexSubscript label None None;
  modify (with_setHeap (alter (union {[node]}) labelSet)).

Definition unIndex (node : Handle) : M unit :=
  db ← get;
  for_ (allIndexSets db) (λ indexSet,
    s ← derefSet indexSet;
    if decide (node ∈ s)
    then modify (with_setHeap (alter (λ s, s ∖ {[node]}) indexSet))
    else ret tt).

Definition addIndex (node : Handle) : M unit :=
  props ← Node_getProperties node;
  for_ (map_to_list props) (λ '(propertyName, value),
    l ← Node_getLabel node;
    index l propertyName value node).

Definition reIndex (node : Handle) : M unit :=
  unIndex node ;; addIndex node.

(** [verifyEntity]: [isinstance(node, Node)] holds of every node. *)
Definition verifyEntity : M unit := ret tt.

Section WithRuntime.

Context (rt : Runtime).

Definition query (queryQualifier : option string) : M (gset Handle) :=
  match queryQualifier with
  | None => db ← get; ret (nodes db)
  | Some queryQualifier =>
      '(label, key, value) ← lift (parseQueryQualifier queryQualifier);
      db ← get;
      ret (match default ∅ (default ∅ (indexeStore db !! label) !! key) !! value with
           | Some r => setAt (setHeap db) r
           | None => ∅
           end)
  end.

Definition queryById (queryQualifier : string) : M Handle :=
  '(label, key, value) ← lift (parseQueryQualifier queryQualifier);
  if decide (key ≠ Some "id") then raise InvalidQueryFormat
  else
    catch
      (r ← indexSubscript label key value;
       s ← derefSet r;
       match set_iter rt s with
       | [] => raise IndexError
       | node :: _ => ret node
       end)
      (λ _, raise NoNodesFound).

(** [doesNodeMatchQuery(node, query)] *)
Definition doesNodeMatchQuery (node : Handle) (query : string) : M bool :=
  '(key, value) ← lift (parseQueryClause query);
  props ← Node_getProperties node;
  match props !! key with
  | Some nodeVaule => ret (bool_decide (nodeVaule = value))
  | None => ret false
  end.

(** The body of [for childNode in node.getConnections()], on the locals
    [q] and [visited]. *)
Definition visitChild (st : Queue.t * gset Handle) (childNode : Handle)
  : Queue.t * gset Handle :=
  if decide (childNode ∈ st.2) then st
  else (Queue.enqueue (Some childNode) st.1, {[childNode]} ∪ st.2).

(** The [while] loop of [bfs]; [fuel] bounds the number of iterations. *)
Fixpoint bfs_loop (fuel : nat) (query : option string) (maxDepth : Z)
    (q : Queue.t) (visited : gset Handle) (level : nat) (result : Levels)
  : M Levels :=
  match fuel with
  | O => lift OutOfFuel
  | S fuel' =>
      if negb (Queue.isEmpty q) && (Z.of_nat level <=? maxDepth)%Z then
        '(node, q) ← lift (Queue.dequeue q);
        match node with
        | None =>
            match Queue.peek q with
            | None => ret result                       (* break *)
            | Some _ =>
                let q := Queue.enqueue None q in
                let level := S level in
                let result := dict_update (pretty level) [] result in
                bfs_loop fuel' query maxDepth q visited level result
            end
        | Some node =>
            let visited := {[node]} ∪ visited in
            include ← match query with
                      | None => ret true
                      | Some query =>
                          if decide (level = 0) then ret true
                          else doesNodeMatchQuery node query
                      end;
            result ← (if include : bool then
                        l ← subscript (dict_get (pretty level) result);
                        ret (dict_update (pretty level) (l ++ [node]) result)
                      else ret result);
            conns ← Node_getConnections node;
            let st := foldl visitChild (q, visited) (set_iter rt conns) in
            bfs_loop fuel' query maxDepth st.1 st.2 level result
        end
      else ret result
  end.

(** Every handle the traversal can meet: the start node and whatever
    some node is connected to. *)
Definition bfs_universe (db : GraphDB) (startNode : Handle) : gset Handle :=
  {[startNode]} ∪ ⋃ (connections <$> heap db).

Definition bfs_fuel (db : GraphDB) (startNode : Handle) : nat :=
  2 * size (bfs_universe db startNode) + 3.

Definition bfs (startNode : Handle) (query : option string) (maxDepth : Z) : M Levels :=
  let visited : gset Handle := ∅ in
  let level := 0 in
  let result : Levels := [(pretty level, [])] in
  let q := Queue.enqueue None (Queue.enqueue (Some startNode) Queue.empty) in
  db ← get;
  bfs_loop (bfs_fuel db startNode) query maxDepth q visited level result.

Definition graphQuery (nodeQualifier : string) (query : option string) (maxDepth : Z)
  : M Levels :=
  startNode ← queryById nodeQualifier;
  bfs startNode query maxDepth.

(** [f"{node.getLabel():{node.getId()}}"]: the label formatted with the
    id as its format specifier. *)
Definition label_formatted_by_id (node : Node) : M string :=
  id ← subscript (properties node !! "id");
  match str_format rt id "" with
  | None => raise ValueError
  | Some spec =>
      match str_format rt (label node) spec with
      | None => raise ValueError
      | Some s => ret s
      end
  end.

(** [node] is the object just constructed, [h] the handle it gets. *)
Definition throwIfNodeAlreadyExists (h : Handle) (node : Node) : M unit :=
  db ← get;
  exists_ ← (if decide (h ∈ nodes db) then ret true
             else catch
                    (qualifier ← label_formatted_by_id node;
                     existingNode ← queryById qualifier;
                     ret true)                      (* a node is never None *)
                    (λ _, ret false));
  if exists_ : bool then raise AttributeError    (* f"Node {node.id} ..." *)
  else ret tt.

(** The new object joins the heap when [self.nodes.add(node)] makes it
    reachable from the store; a call that raises before leaves no object. *)
Definition addNode (label id : string) : M unit :=
  db ← get;
  let node := Node_init id label in
  let h := length (heap db) in
  verifyEntity ;;
  throwIfNodeAlreadyExists h node ;;
  modify (with_heap (λ hp, hp ++ [node])) ;;
  modify (with_nodes (union {[h]})) ;;
  reIndex h.

Definition connect (nodeQualifier1 nodeQualifier2 : string) : M unit :=
  node1 ← queryById nodeQualifier1;
  node2 ← queryById nodeQualifier2;
  Node_addConnection node1 node2.

Definition addOrUpdateNodeProperty (nodeQualifier propertyName propertyValue : string)
  : M unit :=
  node ← queryById nodeQualifier;
  Node_addOrUpdateProperty node propertyName propertyValue ;;
  reIndex node.

(** *** Calls of the public operations *)

Inductive Op : Type :=
  | OpAddNode (label id : string)
  | OpSetProperty (nodeQualifier propertyName propertyValue : string)
  | OpConnect (nodeQualifier1 nodeQualifier2 : string)
  | OpQueryById (queryQualifier : string)
  | OpQuery (queryQualifier : option string)
  | OpGraphQuery (nodeQualifier : string) (query : option string) (maxDepth : Z).

Inductive Value : Type :=
  | VNone
  | VNode (node : Handle)
  | VSet (s : gset Handle)
  | VLevels (result : Levels).

Definition exec (op : Op) : M Value :=
  match op with
  | OpAddNode l i => addNode l i ;; ret VNone
  | OpSetProperty q n v => addOrUpdateNodeProperty q n v ;; ret VNone
  | OpConnect q1 q2 => connect q1 q2 ;; ret VNone
  | OpQueryById q => node ← queryById q; ret (VNode node)
  | OpQuery q => s ← query q; ret (VSet s)
  | OpGraphQuery q f d => r ← graphQuery q f d; ret (VLevels r)
  end.

(** The store after a sequence of calls, each caught by the caller when it
    raises (as the application's menu loop does). *)
Definition run (ops : list Op) (db : GraphDB) : GraphDB :=
  foldl (λ db op, (exec op db).1) db ops.

Definition reachable (ops : list Op) : GraphDB := run ops GraphDB_init.

End WithRuntime.

(** ** CPython's [format] on strings

    [str.__format__] as CPython (3.10 and later) implements it: the
    specifier is [[[fill]align][0][width][.precision][s]]; a sign, [z], [#],
    a grouping option, the alignment [=] or another type character raise
    [ValueError], and so does a width or precision above [sys.maxsize].
    A [string] is a sequence of bytes here, and Python counts code points:
    the model is CPython's on ASCII strings, the only ones it is applied
    to. *)
Module CPython.

Definition is_align (c : ascii) : bool :=
  bool_decide (c ∈ ["<"; ">"; "="; "^"]%char).

Definition is_sign (c : ascii) : bool :=
  bool_decide (c ∈ ["+"; "-"; " "]%char).

Definition digit (c : ascii) : option N :=
  let n := N_of_ascii c in
  if ((48 <=? n) && (n <=? 57))%N then Some (n - 48)%N else None.

Definition maxsize : N := 9223372036854775807.

(** [get_integer]: the leading decimal digits, [None] on overflow; the
    flag tells whether a digit was read. *)
Fixpoint get_integer (acc : N) (seen : bool) (cs : list ascii)
  : option (N * bool * list ascii) :=
  match cs with
  | [] => Some (acc, seen, [])
  | c :: cs' =>
      match digit c with
      | None => Some (acc, seen, cs)
      | Some d =>
          let acc' := (acc * 10 + d)%N in
          if (maxsize <? acc')%N then None else get_integer acc' true cs'
      end
  end.

Definition pad (fill align : ascii) (width : option N) (s : list ascii) : list ascii :=
  let n := length s in
  let total := match width with
               | Some w => Nat.max (N.to_nat w) n
               | None => n
               end in
  let lpad := if Ascii.eqb align ">" then total - n
              else if Ascii.eqb align "^" then (total - n) / 2
              else 0 in
  let rpad := total - n - lpad in
  replicate lpad fill ++ s ++ replicate rpad fill.

Definition format_str (value spec : string) : option string :=
  let cs := list_ascii_of_string spec in
  let '(fill, align, fill_given, cs) :=
    match cs with
    | c1 :: c2 :: r =>
        if is_align c2 then (c1, c2, true, r)
        else if is_align c1 then (" "%char, c1, false, c2 :: r)
        else (" "%char, "<"%char, false, cs)
    | [c1] =>
        if is_align c1 then (" "%char, c1, false, [])
        else (" "%char, "<"%char, false, cs)
    | [] => (" "%char, "<"%char, false, cs)
    end in
  match cs with
  | c :: _ =>
      if is_sign c || Ascii.eqb c "z" || Ascii.eqb c "#" then None else Some tt
  | [] => Some tt
  end ≫= λ _,
  let '(fill, cs) :=
    match cs with
    | c :: r => if negb fill_given && Ascii.eqb c "0" then ("0"%char, r) else (fill, cs)
    | [] => (fill, cs)
    end in
  get_integer 0 false cs ≫= λ '(w, wseen, cs),
  let width := if wseen : bool then Some w else None in
  match cs with
  | c :: _ => if Ascii.eqb c "," || Ascii.eqb c "_" then None else Some tt
  | [] => Some tt
  end ≫= λ _,
  match cs with
  | "."%char :: r =>
      get_integer 0 false r ≫= λ '(p, pseen, r'),
      if pseen : bool then Some (Some p, r') else None
  | _ => Some (None, cs)
  end ≫= λ '(precision, cs),
  match cs with
  | [] => Some tt
  | [c] => if Ascii.eqb c "s" then Some tt else None
  | _ => None
  end ≫= λ _,
  if Ascii.eqb align "=" then None
  else
    let v := list_ascii_of_string value in
    let v := match precision with
             | Some p => take (N.to_nat p) v
             | None => v
             end in
    Some (string_of_list_ascii (pad fill align width v)).

End CPython.

(** CPython with a given iteration order of sets. *)
Definition cpython (order : list Handle → nat) : Runtime :=
  mkRuntime CPython.format_str order.

(** ** Predicates of the specification *)

(** A computation that leaves every store as it found it. *)
Definition read_only {A} (m : M A) : Prop := ∀ db, (m db).1 = db.

(** The set reference and the set that [indexeStore[label][key][value]]
    leads to; [idxset] is what [query] returns for a parsed qualifier (the
    empty set when a level is missing). *)
Definition idxref (db : GraphDB) (l : string) (k v : option string) : option SetRef :=
  match indexeStore db !! l with
  | Some byLabel =>
      match byLabel !! k with
      | Some byKey => byKey !! v
      | None => None
      end
  | None => None
  end.

Definition idxset (db : GraphDB) (l : string) (k v : option string) : gset Handle :=
  match idxref db l k v with
  | Some r => setAt (setHeap db) r
  | None => ∅
  end.

(** The shape of the index store: references are allocated, no set object is
    shared by two entries, every label has its label-only entry, and every
    value set is listed in [allIndexSets]. *)
Record index_shape (db : GraphDB) : Prop := mkIndexShape {
  shape_alloc : ∀ l k v r, idxref db l k v = Some r → r < length (setHeap db);
  shape_inj : ∀ l k v l' k' v' r,
    idxref db l k v = Some r → idxref db l' k' v' = Some r → l = l' ∧ k = k' ∧ v = v';
  shape_label : ∀ l, is_Some (indexeStore db !! l) → is_Some (idxref db l None None);
  shape_listed : ∀ l k v r, idxref db l (Some k) (Some v) = Some r → r ∈ allIndexSets db
}.

(** Index and properties agree: a node is in the index set of a triple
    (label, property, value) exactly when it is a stored node with that
    label whose property has that value. *)
Record index_consistent (db : GraphDB) : Prop := mkIndexConsistent {
  nodes_are_heap : ∀ h, h ∈ nodes db ↔ h < length (heap db);
  indexed_complete : ∀ h nd k v,
    heap db !! h = Some nd → properties nd !! k = Some v →
    h ∈ idxset db (label nd) (Some k) (Some v);
  indexed_sound : ∀ l k v h,
    h ∈ idxset db l (Some k) (Some v) →
    ∃ nd, heap db !! h = Some nd ∧ label nd = l ∧ properties nd !! k = Some v
}.

(** The successive store updates of [index]. *)
Definition ensureLabel (l : string) (db : GraphDB) : GraphDB :=
  if decide (indexeStore db !! l = None) then
    with_indexeStore (<[l := {[None := {[None := length (setHeap db)]}]}]>)
      (with_setHeap (λ sh, sh ++ [∅]) db)
  else db.

Definition ensureKey (l k : string) (db : GraphDB) : GraphDB :=
  match indexeStore db !! l with
  | Some byLabel =>
      if decide (byLabel !! Some k = None) then
        with_indexeStore (alter (<[Some k := ∅]>) l) db
      else db
  | None => db
  end.

Definition ensureValue (l k v : string) (db : GraphDB) : GraphDB :=
  if decide (idxref db l (Some k) (Some v) = None) then
    with_allIndexSets (λ a, a ++ [length (setHeap db)])
      (with_indexeStore (alter (alter (<[Some v := length (setHeap db)]>) (Some k)) l)
         (with_setHeap (λ sh, sh ++ [∅]) db))
  else db.

Definition addToSet (r : SetRef) (h : Handle) (db : GraphDB) : GraphDB :=
  with_setHeap (alter (union {[h]}) r) db.

(** The loop bodies of [unIndex] and [addIndex]. *)
Definition unIndex_body (node : Handle) (indexSet : SetRef) : M unit :=
  s ← derefSet indexSet;
  if decide (node ∈ s)
  then modify (with_setHeap (alter (λ s, s ∖ {[node]}) indexSet))
  else ret tt.

Definition addIndex_body (node : Handle) (kv : string * string) : M unit :=
  let '(propertyName, value) := kv in
  l ← Node_getLabel node;
  index l propertyName value node.

(** The invariant of the store. *)
Definition store_inv (db : GraphDB) : Prop := index_shape db ∧ index_consistent db.

(** What [queryById] returns or raises, as a function of the store. *)
Definition queryById_outcome (rt : Runtime) (db : GraphDB) (q : string) : Outcome Handle :=
  match parseQueryQualifier q with
  | Return (l, k, v) =>
      if decide (k ≠ Some "id") then Raise InvalidQueryFormat
      else match set_iter rt (idxset db l k v) with
           | [] => Raise NoNodesFound
           | node :: _ => Return node
           end
  | Raise e => Raise e
  | OutOfFuel => OutOfFuel
  end.

(** [node.connections.add(c)] on the node record. *)
Definition addConn (c : Handle) (n : Node) : Node :=
  mkNode (label n) (properties n) ({[c]} ∪ connections n).

(** [node.properties.update({name: value})] on the node record. *)
Definition setProp (name value : string) (n : Node) : Node :=
  mkNode (label n) (<[name := value]> (properties n)) (connections n).

(** ** The traversal as a function of the store *)

(** [doesNodeMatchQuery] once the clause is parsed: the node has the
    property and its value is the clause's. *)
Definition node_matches (db : GraphDB) (key value : string) (node : Handle) : bool :=
  match properties (nodeAt (heap db) node) !! key with
  | Some nodeVaule => bool_decide (nodeVaule = value)
  | None => false
  end.

#[global] Typeclasses Opaque node_matches.

Definition matches_outcome (db : GraphDB) (node : Handle) (query : string) : Outcome bool :=
  match parseQueryClause query with
  | Return (key, value) => Return (node_matches db key value node)
  | Raise e => Raise e
  | OutOfFuel => OutOfFuel
  end.

(** [query is None or level == 0 or doesNodeMatchQuery(node, query)] *)
Definition include_outcome (db : GraphDB) (query : option string) (level : nat)
    (node : Handle) : Outcome bool :=
  match query with
  | None => Return true
  | Some query => if decide (level = 0) then Return true else matches_outcome db node query
  end.

(** [result[str(level)].append(node)] *)
Definition append_level (level : nat) (node : Handle) (result : Levels) : Outcome Levels :=
  match dict_get (pretty level) result with
  | Some l => Return (dict_update (pretty level) (l ++ [node]) result)
  | None => Raise KeyError
  end.

(** What the loop of [bfs] returns or raises, as a function of the store. *)
Fixpoint bfs_outcome (rt : Runtime) (db : GraphDB) (fuel : nat) (query : option string)
    (maxDepth : Z) (q : Queue.t) (visited : gset Handle) (level : nat) (result : Levels)
  : Outcome Levels :=
  match fuel with
  | O => OutOfFuel
  | S fuel' =>
      if negb (Queue.isEmpty q) && (Z.of_nat level <=? maxDepth)%Z then
        match q with
        | [] => Raise QueueIsEmpty
        | None :: q' =>
            match Queue.peek q' with
            | None => Return result
            | Some _ =>
                bfs_outcome rt db fuel' query maxDepth (Queue.enqueue None q') visited
                  (S level) (dict_update (pretty (S level)) [] result)
            end
        | Some node :: q' =>
            match include_outcome db query level node with
            | Return include =>
                match (if include : bool then append_level level node result
                       else Return result) with
                | Return result' =>
                    let st := foldl visitChild (q', {[node]} ∪ visited)
                                (set_iter rt (connections (nodeAt (heap db) node))) in
                    bfs_outcome rt db fuel' query maxDepth st.1 st.2 level result'
                | Raise e => Raise e
                | OutOfFuel => OutOfFuel
                end
            | Raise e => Raise e
            | OutOfFuel => OutOfFuel
            end
        end
      else Return result
  end.

(** The nodes waiting in the queue, and the nodes in a result. *)
Definition qnodes (q : Queue.t) : list Handle := omap id q.

Definition resnodes (result : Levels) : list Handle := concat (result.*2).

Definition front_is_marker (q : Queue.t) : nat :=
  match q with
  | None :: _ => 1
  | _ => 0
  end.

(** The measure that every iteration of the loop decreases. *)
Definition potential (U : gset Handle) (q : Queue.t) (visited : gset Handle) : nat :=
  2 * (size (U ∖ visited) + length (qnodes q)) + front_is_marker q.

(** A result with every level but level 0 filtered by a parsed clause. *)
Definition keep_level (db : GraphDB) (key value : string) (k : string) (l : list Handle)
  : list Handle :=
  if decide (k = "0") then l else filter (λ x, node_matches db key value x) l.

Definition filter_levels (db : GraphDB) (key value : string) (result : Levels) : Levels :=
  (λ kl : string * list Handle, (kl.1, keep_level db key value kl.1 kl.2)) <$> result.

(** The invariant of the loop of [bfs]: no node is both waiting and
    reported or is reported twice, and every node waiting or reported is in
    [visited] — but for the start node while it alone waits. *)
Definition bfs_inv (q : Queue.t) (visited : gset Handle) (result : Levels) : Prop :=
  NoDup (qnodes q ++ resnodes result) ∧
  (∀ x, x ∈ resnodes result → x ∈ visited) ∧
  ((∀ x, x ∈ qnodes q → x ∈ visited) ∨ (resnodes result = [] ∧ ∃ x, qnodes q = [x])).

(** ** Concrete stores *)

(** A CPython whose sets iterate in the order of [elements], and one whose
    sets iterate with the first element moved one place back. *)
Definition cpython0 : Runtime := cpython (λ _, 0).
Definition cpython1 : Runtime := cpython (λ _, 1).

(** The chain A–B–C; the nodes get the handles 0, 1 and 2. *)
Definition chain_ops : list Op :=
  [OpAddNode "Person" "A"; OpAddNode "Person" "B"; OpAddNode "Person" "C";
   OpConnect "Person:A" "Person:B"; OpConnect "Person:B" "Person:C"].

(** The same node added twice. *)
Definition twice_ops : list Op :=
  [OpAddNode "Person" "eljo"; OpAddNode "Person" "eljo"].

(** Two persons, one of them female, not yet connected. *)
Definition pair_ops : list Op :=
  [OpAddNode "Person" "eljo"; OpAddNode "Person" "norah";
   OpSetProperty "Person:norah" "gender" "Female"].

Definition pair_db : GraphDB := reachable cpython0 pair_ops.

(** A chain of three persons with a gender each: eljo – norah – merin; the
    nodes get the handles 0, 1 and 2. *)
Definition trio_ops : list Op :=
  [OpAddNode "Person" "eljo"; OpAddNode "Person" "norah"; OpAddNode "Person" "merin";
   OpSetProperty "Person:eljo" "gender" "Male";
   OpSetProperty "Person:norah" "gender" "Female";
   OpSetProperty "Person:merin" "gender" "Male";
   OpConnect "Person:eljo" "Person:norah"; OpConnect "Person:norah" "Person:merin"].

Definition trio_db : GraphDB := reachable cpython0 trio_ops.

(** A property whose value holds the separator of the qualifier syntax. *)
Definition clock_ops : list Op :=
  [OpAddNode "Person" "eljo"; OpSetProperty "Person:eljo" "time" "10:30"].

(** ** Further predicates *)

(** What one call may do to a stored node: nothing to its label and id, and
    it takes no connection away. *)
Definition node_kept (nd nd' : Node) : Prop :=
  label nd' = label nd ∧ properties nd' !! "id" = properties nd !! "id" ∧
  connections nd ⊆ connections nd'.

(** The connections form an undirected graph without loops on the stored
    nodes. *)
Definition undirected (db : GraphDB) : Prop :=
  ∀ a nd, heap db !! a = Some nd →
    (a ∉ connections nd) ∧
    ∀ b, b ∈ connections nd → ∃ nb, heap db !! b = Some nb ∧ a ∈ connections nb.

(** ** Distances in the graph of connections *)

(** The handles a node is connected to, and the neighbours of a set of
    nodes. *)
Definition adj (db : GraphDB) (h : Handle) : gset Handle :=
  connections (nodeAt (heap db) h).

Definition nbrs (db : GraphDB) (X : gset Handle) : gset Handle :=
  ⋃ (adj db <$> elements X).

(** [layers db s n] is the pair of the nodes first met [n] connections away
    from [s], and of the nodes met at most [n] connections away. *)
Fixpoint layers (db : GraphDB) (s : Handle) (n : nat) : gset Handle * gset Handle :=
  match n with
  | 0 => ({[s]}, {[s]})
  | S n' =>
      let '(L, V) := layers db s n' in
      (nbrs db L ∖ V, V ∪ (nbrs db L ∖ V))
  end.

Definition layer (db : GraphDB) (s : Handle) (n : nat) : gset Handle := (layers db s n).1.
Definition within (db : GraphDB) (s : Handle) (n : nat) : gset Handle := (layers db s n).2.

(** A walk of [n] connections from [s] to a node, and the distance of a
    node from [s]: the length of a shortest walk. *)
Inductive walk (db : GraphDB) (s : Handle) : nat → Handle → Prop :=
  | walk_O : walk db s 0 s
  | walk_S n a b : walk db s n a → b ∈ adj db a → walk db s (S n) b.

Definition distance (db : GraphDB) (s h : Handle) (n : nat) : Prop :=
  walk db s n h ∧ ∀ m, m < n → ¬ walk db s m h.

(** The invariant of the loop of [bfs] without filter: the queue holds the
    rest of the current level, the marker and the part of the next level
    found so far; the levels below are complete. *)
Definition bfs_layers_inv (db : GraphDB) (s : Handle) (maxDepth : Z)
    (q : Queue.t) (visited : gset Handle) (level : nat) (result : Levels) : Prop :=
  ∃ done cur nxt : list Handle,
    q = (Some <$> cur) ++ None :: (Some <$> nxt) ∧
    dict_get (pretty level) result = Some done ∧
    list_to_set (done ++ cur) = layer db s level ∧
    list_to_set nxt = nbrs db (list_to_set done) ∖ within db s level ∧
    (visited = within db s level ∪ list_to_set nxt ∨
     (level = 0 ∧ done = [] ∧ nxt = [] ∧ visited = ∅)) ∧
    (Z.of_nat level ≤ maxDepth + 1)%Z ∧
    ((maxDepth < Z.of_nat level)%Z → done = []) ∧
    (∀ j, j < level →
       ∃ l, dict_get (pretty j) result = Some l ∧ list_to_set l = layer db s j) ∧
    (∀ j, level < j → dict_get (pretty j) result = None) ∧
    (∀ j, j ≤ level → layer db s j ≠ ∅).

(** What the loop establishes: the levels up to the last one, [N], list the
    layers; the last level is either the last layer that is not empty, or
    the level after the depth bound, created empty. *)
Definition bfs_layers_post (db : GraphDB) (s : Handle) (maxDepth : Z) (levels : Levels)
  : Prop :=
  ∃ N : nat,
    (∀ j, j ≤ N → (Z.of_nat j ≤ maxDepth)%Z →
       ∃ l, dict_get (pretty j) levels = Some l ∧ list_to_set l = layer db s j) ∧
    (∀ j, N < j → dict_get (pretty j) levels = None) ∧
    (∀ j, j ≤ N → layer db s j ≠ ∅) ∧
    (((Z.of_nat N ≤ maxDepth)%Z ∧ layer db s (S N) = ∅) ∨
     (Z.of_nat N = (maxDepth + 1)%Z ∧ dict_get (pretty N) levels = Some [])).

(** ** covid_contact_tracing.py *)

(** [determinZone(personId, graphDB)]; the f-string [f"Person:{personId}"]
    formats [personId] with the empty format specifier. *)
Definition determinZone (rt : Runtime) (personId : string) : M string :=
  match str_format rt personId "" with
  | None => raise ValueError
  | Some formatted =>
      graph ← graphQuery rt ("Person:" +:+ formatted) (Some "infected=yes") 2;
      zone ← match dict_get "0" graph with
             | Some (person :: _) =>
                 infected ← Node_getProperty person "infected";
                 if decide (infected = Some "yes") then ret (Some "Infected") else ret None
             | _ => ret None
             end;
      match zone with
      | Some zone => ret zone
      | None =>
          match dict_get "1" graph with
          | Some (_ :: _) => ret "Red"
          | _ =>
              match dict_get "2" graph with
              | Some (_ :: _) => ret "Orange"
              | _ => ret "Green"
              end
          end
      end
  end.

(** The property value that the zones are about. *)
Definition infected (db : GraphDB) (x : Handle) : Prop :=
  properties (nodeAt (heap db) x) !! "infected" = Some "yes".

#[global] Instance infected_dec (db : GraphDB) (x : Handle) : Decision (infected db x).
Proof. unfold infected. apply _. Defined.

(** ** class ListNode and class Queue, as written

    The queue of the source is a singly linked list of [ListNode] objects
    with a [front] and a [back] reference and a counter.  The list nodes
    live in [cells]; a reference is an index into it.  The items are what
    [bfs] enqueues: a node, or [None]. *)
Module LinkedList.

Record ListNode : Type := mkListNode {
  data : option Handle;
  next : option nat
}.

Record Queue : Type := mkQueue {
  cells : list ListNode;
  front : option nat;
  back : option nat;
  queueSize : Z
}.

Definition Queue_init : Queue := mkQueue [] None None 0.

Definition setNext (next : option nat) (self : ListNode) : ListNode :=
  mkListNode (data self) next.

Definition isEmpty (self : Queue) : bool := bool_decide (front self = None).

Definition size (self : Queue) : Z := queueSize self.

(** [self.back.setNext(node)] on [None] is an [AttributeError]. *)
Definition enqueue (item : option Handle) (self : Queue) : Outcome Queue :=
  let node := length (cells self) in
  let cells' := cells self ++ [mkListNode item None] in
  if isEmpty self then
    Return (mkQueue cells' (Some node) (Some node) (queueSize self + 1))
  else
    match back self with
    | None => Raise AttributeError
    | Some b =>
        Return (mkQueue (alter (setNext (Some node)) b cells') (front self) (Some node)
                  (queueSize self + 1))
    end.

Definition dequeue (self : Queue) : Outcome (option Handle * Queue) :=
  if isEmpty self then Raise QueueIsEmpty
  else
    match front self ≫= (cells self !!.) with
    | None => Raise AttributeError
    | Some c =>
        Return (data c, mkQueue (cells self) (next c) (back self) (queueSize self - 1))
    end.

Definition peek (self : Queue) : option Handle :=
  if isEmpty self then None
  else
    match front self ≫= (cells self !!.) with
    | None => None
    | Some c => data c
    end.

End LinkedList.

(** A call on a queue, and what the caller sees of it. *)
Inductive QueueOp : Type :=
  | QEnqueue (item : option Handle)
  | QDequeue
  | QPeek
  | QIsEmpty
  | QSize.

Inductive QueueObs : Type :=
  | ObsNone
  | ObsItem (item : option Handle)
  | ObsRaise (e : Exn)
  | ObsBool (b : bool)
  | ObsInt (n : Z).

Definition linked_step (op : QueueOp) (q : LinkedList.Queue) : QueueObs * LinkedList.Queue :=
  match op with
  | QEnqueue item =>
      match LinkedList.enqueue item q with
      | Return q' => (ObsNone, q')
      | Raise e => (ObsRaise e, q)
      | OutOfFuel => (ObsNone, q)
      end
  | QDequeue =>
      match LinkedList.dequeue q with
      | Return (item, q') => (ObsItem item, q')
      | Raise e => (ObsRaise e, q)
      | OutOfFuel => (ObsNone, q)
      end
  | QPeek => (ObsItem (LinkedList.peek q), q)
  | QIsEmpty => (ObsBool (LinkedList.isEmpty q), q)
  | QSize => (ObsInt (LinkedList.size q), q)
  end.

Definition list_step (op : QueueOp) (q : Queue.t) : QueueObs * Queue.t :=
  match op with
  | QEnqueue item => (ObsNone, Queue.enqueue item q)
  | QDequeue =>
      match Queue.dequeue q with
      | Return (item, q') => (ObsItem item, q')
      | Raise e => (ObsRaise e, q)
      | OutOfFuel => (ObsNone, q)
      end
  | QPeek => (ObsItem (Queue.peek q), q)
  | QIsEmpty => (ObsBool (Queue.isEmpty q), q)
  | QSize => (ObsInt (Z.of_nat (Queue.size q)), q)
  end.

(** What a sequence of calls shows, from a given queue. *)
Fixpoint observe {Q} (step : QueueOp → Q → QueueObs * Q) (ops : list QueueOp) (q : Q)
  : list QueueObs :=
  match ops with
  | [] => []
  | op :: ops' => (step op q).1 :: observe step ops' (step op q).2
  end.

(** The linked queue [q] holds the items [l]: they are the data of the
    cells from some index on, each cell linked to the next and the last one
    referenced by [back]. *)
Definition queue_repr (q : LinkedList.Queue) (l : list (option Handle)) : Prop :=
  ∃ f : nat,
    f ≤ length (LinkedList.cells q) ∧
    l = LinkedList.data <$> drop f (LinkedList.cells q) ∧
    LinkedList.front q =
      (if decide (f < length (LinkedList.cells q)) then Some f else None) ∧
    (∀ i c, f ≤ i → LinkedList.cells q !! i = Some c →
       LinkedList.next c =
         if decide (S i < length (LinkedList.cells q)) then Some (S i) else None) ∧
    (f < length (LinkedList.cells q) →
       LinkedList.back q = Some (length (LinkedList.cells q) - 1)) ∧
    LinkedList.queueSize q = Z.of_nat (length l).

(** ** The label-only index sets *)

(** Every set listed in [allIndexSets] is the set of a (label, property,
    value) triple: the label-only sets are not listed. *)
Definition listed_values (db : GraphDB) : Prop :=
  ∀ r, r ∈ allIndexSets db → ∃ l k v, idxref db l (Some k) (Some v) = Some r.

(** Every stored node has its [id], and the label-only set of a label holds
    the stored nodes with that label. *)
Record label_inv (db : GraphDB) : Prop := mkLabelInv {
  label_listed : listed_values db;
  has_id : ∀ h nd, heap db !! h = Some nd → is_Some (properties nd !! "id");
  label_indexed : ∀ l h,
    h ∈ idxset db l None None ↔ ∃ nd, heap db !! h = Some nd ∧ label nd = l
}.

(** * Properties *)

(** ** The parser *)

Lemma split_length (sep : ascii) (s : string) :
  length (Str.split sep s) = S (Str.count sep s).
Proof.
  induction s as [|c s IH]; simpl; [done|].
  destruct (Ascii.eqb c sep); simpl; [by rewrite IH|].
  destruct (Str.split sep s); simpl in *; lia.
Qed.

Lemma split_count_0 (sep : ascii) (s : string) :
  Str.count sep s = 0 → Str.split sep s = [s].
Proof.
  induction s as [|c s IH]; simpl; [done|].
  destruct (Ascii.eqb c sep); simpl; [done|].
  intros H. by rewrite IH.
Qed.

Lemma split_count_1 (sep : ascii) (s : string) :
  Str.count sep s = 1 → Str.split sep s = [Str.before sep s; Str.after sep s].
Proof.
  induction s as [|c s IH]; simpl; [done|].
  destruct (Ascii.eqb c sep); simpl.
  - intros H. rewrite split_count_0; [done|lia].
  - intros H. by rewrite IH.
Qed.

Lemma parseQueryClause_cases (query : string) :
  match Str.count "=" query with
  | 0 => parseQueryClause query = Return ("id", query)
  | 1 => parseQueryClause query = Return (Str.before "=" query, Str.after "=" query)
  | _ => parseQueryClause query = Raise InvalidQuery
  end.
Proof.
  unfold parseQueryClause.
  destruct (Str.count "=" query) as [|[|n]] eqn:Hc.
  - by rewrite split_count_0.
  - by rewrite split_count_1.
  - pose proof (split_length "=" query) as Hl. rewrite Hc in Hl.
    destruct (Str.split "=" query) as [|a [|b [|c l]]]; simpl in Hl; try lia; done.
Qed.

Lemma parseQueryQualifier_cases (queryQualifier : string) :
  match Str.count ":" queryQualifier with
  | 0 => parseQueryQualifier queryQualifier = Return (queryQualifier, None, None)
  | 1 =>
      let label := Str.before ":" queryQualifier in
      let clause := Str.after ":" queryQualifier in
      match Str.count "=" clause with
      | 0 => parseQueryQualifier queryQualifier = Return (label, Some "id", Some clause)
      | 1 => parseQueryQualifier queryQualifier =
               Return (label, Some (Str.before "=" clause), Some (Str.after "=" clause))
      | _ => parseQueryQualifier queryQualifier = Raise InvalidQuery
      end
  | _ => parseQueryQualifier queryQualifier = Raise InvalidQuery
  end.
Proof.
  unfold parseQueryQualifier.
  destruct (Str.count ":" queryQualifier) as [|[|n]] eqn:Hc.
  - by rewrite split_count_0.
  - rewrite split_count_1 by done. simpl.
    pose proof (parseQueryClause_cases (Str.after ":" queryQualifier)) as H.
    destruct (Str.count "=" (Str.after ":" queryQualifier)) as [|[|m]]; by rewrite H.
  - pose proof (split_length ":" queryQualifier) as Hl. rewrite Hc in Hl.
    destruct (Str.split ":" queryQualifier) as [|a [|b [|c l]]]; simpl in Hl; try lia; done.
Qed.

(** C9. Parsing a qualifier fails — and then with "Invalid Query" — exactly
    when the qualifier has more than one [:] or, having one, a clause (the
    text after the [:]) with more than one [=].  Otherwise it returns a
    triple: a bare label gives key and value [None]; a clause without [=]
    gives key ["id"] and the clause as value; a clause [k=v] gives [k] and
    [v]. *)
Theorem parseQueryQualifier_fails_iff (Q : string) :
  let clause := Str.after ":" Q in
  (parseQueryQualifier Q = Raise InvalidQuery ↔
     1 < Str.count ":" Q ∨ (Str.count ":" Q = 1 ∧ 1 < Str.count "=" clause)) ∧
  (¬ is_Return (parseQueryQualifier Q) ↔ parseQueryQualifier Q = Raise InvalidQuery) ∧
  (Str.count ":" Q = 0 → parseQueryQualifier Q = Return (Q, None, None)) ∧
  (Str.count ":" Q = 1 → Str.count "=" clause = 0 →
     parseQueryQualifier Q = Return (Str.before ":" Q, Some "id", Some clause)) ∧
  (Str.count ":" Q = 1 → Str.count "=" clause = 1 →
     parseQueryQualifier Q =
       Return (Str.before ":" Q, Some (Str.before "=" clause), Some (Str.after "=" clause))).
Proof.
  intros clause. subst clause.
  pose proof (parseQueryQualifier_cases Q) as H.
  destruct (Str.count ":" Q) as [|[|n]]; simpl in H;
    [| destruct (Str.count "=" (Str.after ":" Q)) as [|[|m]] |];
    rewrite H; simpl; split_and!; intros;
    try done; try lia; (split; intros; try done; try lia; naive_solver lia).
Qed.

(** ** Computations that do not write to the store *)

Lemma read_only_ret {A} (a : A) : read_only (ret a).
Proof. done. Qed.

Lemma read_only_raise {A} (e : Exn) : read_only (raise (A:=A) e).
Proof. done. Qed.

Lemma read_only_lift {A} (o : Outcome A) : read_only (lift o).
Proof. done. Qed.

Lemma read_only_get : read_only get.
Proof. done. Qed.

Lemma read_only_subscript {A} (o : option A) : read_only (subscript o).
Proof. by destruct o. Qed.

Lemma read_only_bind {A B} (m : M A) (k : A → M B) :
  read_only m → (∀ a, read_only (k a)) → read_only (bind m k).
Proof.
  intros Hm Hk db. unfold bind. specialize (Hm db).
  destruct (m db) as [db' [a| |]]; simpl in *; subst; try done. apply Hk.
Qed.

Lemma read_only_catch {A} (m : M A) (h : Exn → M A) :
  read_only m → (∀ e, read_only (h e)) → read_only (catch m h).
Proof.
  intros Hm Hh db. unfold catch. specialize (Hm db).
  destruct (m db) as [db' [a| |]]; simpl in *; subst; try done. apply Hh.
Qed.

Create HintDb read_only.
#[local] Hint Resolve read_only_ret read_only_raise read_only_lift read_only_get
  read_only_subscript : read_only.

Ltac read_only_step :=
  first
    [ solve [auto 1 with read_only nocore]
    | apply read_only_catch | apply read_only_bind
    | progress case_match | intro ].

Ltac solve_read_only := repeat read_only_step; try done.

Lemma read_only_getNode (self : Handle) : read_only (getNode self).
Proof. unfold getNode. solve_read_only. Qed.
#[local] Hint Resolve read_only_getNode : read_only.

Lemma read_only_getConnections (self : Handle) : read_only (Node_getConnections self).
Proof. unfold Node_getConnections. solve_read_only. Qed.

Lemma read_only_getLabel (self : Handle) : read_only (Node_getLabel self).
Proof. unfold Node_getLabel. solve_read_only. Qed.

Lemma read_only_getProperties (self : Handle) : read_only (Node_getProperties self).
Proof. unfold Node_getProperties. solve_read_only. Qed.

Lemma read_only_derefSet (r : SetRef) : read_only (derefSet r).
Proof. unfold derefSet. solve_read_only. Qed.

Lemma read_only_indexSubscript (l : string) (k v : option string) :
  read_only (indexSubscript l k v).
Proof. unfold indexSubscript. solve_read_only. Qed.
#[local] Hint Resolve read_only_getConnections read_only_getLabel read_only_getProperties
  read_only_derefSet read_only_indexSubscript : read_only.

Section ReadOnly.

Context (rt : Runtime).

Lemma read_only_query (q : option string) : read_only (query q).
Proof. unfold query. solve_read_only. Qed.

Lemma read_only_queryById (q : string) : read_only (queryById rt q).
Proof.
  unfold queryById. solve_read_only.
Qed.
#[local] Hint Resolve read_only_query read_only_queryById : read_only.

Lemma read_only_doesNodeMatchQuery (node : Handle) (query : string) :
  read_only (doesNodeMatchQuery node query).
Proof. unfold doesNodeMatchQuery. solve_read_only. Qed.
#[local] Hint Resolve read_only_doesNodeMatchQuery : read_only.

Lemma read_only_bfs_loop (fuel : nat) (query : option string) (maxDepth : Z)
    (q : Queue.t) (visited : gset Handle) (level : nat) (result : Levels) :
  read_only (bfs_loop rt fuel query maxDepth q visited level result).
Proof.
  revert q visited level result.
  induction fuel as [|fuel IH]; intros q visited level result; simpl.
  - apply read_only_lift.
  - solve_read_only; apply IH.
Qed.
#[local] Hint Resolve read_only_bfs_loop : read_only.

Lemma read_only_bfs (startNode : Handle) (query : option string) (maxDepth : Z) :
  read_only (bfs rt startNode query maxDepth).
Proof. unfold bfs. solve_read_only. Qed.
#[local] Hint Resolve read_only_bfs : read_only.

Lemma read_only_graphQuery (q : string) (query : option string) (maxDepth : Z) :
  read_only (graphQuery rt q query maxDepth).
Proof.
  unfold graphQuery. solve_read_only.
Qed.

(** C10. The query operations are read-only: after [query], [queryById],
    [graphQuery] or [bfs], whether it returned or raised, the store — node
    set, index store, and every node's label, properties and connections —
    is the store before the call. *)
Theorem queries_leave_store_unchanged (db : GraphDB) :
  (∀ q, (query q db).1 = db) ∧
  (∀ q, (queryById rt q db).1 = db) ∧
  (∀ q filter maxDepth, (graphQuery rt q filter maxDepth db).1 = db) ∧
  (∀ startNode filter maxDepth, (bfs rt startNode filter maxDepth db).1 = db).
Proof.
  split_and!; intros.
  - apply read_only_query.
  - apply read_only_queryById.
  - apply read_only_graphQuery.
  - apply read_only_bfs.
Qed.

End ReadOnly.

(** ** The index store *)

Lemma setAt_app_l (sh t : list (gset Handle)) (r : SetRef) :
  r < length sh → setAt (sh ++ t) r = setAt sh r.
Proof. intros. unfold setAt. by rewrite lookup_app_l. Qed.

Lemma setAt_middle (sh : list (gset Handle)) (s : gset Handle) :
  setAt (sh ++ [s]) (length sh) = s.
Proof. unfold setAt. by rewrite list_lookup_middle. Qed.

Lemma setAt_ge (sh : list (gset Handle)) (r : SetRef) :
  length sh ≤ r → setAt sh r = ∅.
Proof. intros. unfold setAt. by rewrite lookup_ge_None_2. Qed.

Lemma setAt_alter_eq (f : gset Handle → gset Handle) (sh : list (gset Handle)) (r : SetRef) :
  r < length sh → setAt (alter f r sh) r = f (setAt sh r).
Proof.
  intros H. unfold setAt. rewrite list_lookup_alter_eq.
  destruct (lookup_lt_is_Some_2 sh r H) as [s ->]. done.
Qed.

Lemma setAt_alter_ne (f : gset Handle → gset Handle) (sh : list (gset Handle)) (r0 r : SetRef) :
  r0 ≠ r → setAt (alter f r0 sh) r = setAt sh r.
Proof. intros. unfold setAt. by rewrite list_lookup_alter_ne. Qed.

Lemma nodeAt_lookup (hp : list Node) (h : Handle) (nd : Node) :
  hp !! h = Some nd → nodeAt hp h = nd.
Proof. intros H. unfold nodeAt. by rewrite H. Qed.

Lemma idxset_unfold db l k v :
  idxset db l k v = match idxref db l k v with Some r => setAt (setHeap db) r | None => ∅ end.
Proof. done. Qed.

Lemma index_shape_init : index_shape GraphDB_init.
Proof. split; intros *; unfold idxref; simpl; rewrite ?lookup_empty; try done. Qed.

Lemma index_consistent_init : index_consistent GraphDB_init.
Proof.
  split; simpl.
  - intros h. split; [set_solver|lia].
  - intros *. by rewrite lookup_nil.
  - intros *. unfold idxset, idxref. simpl. rewrite lookup_empty. set_solver.
Qed.

(** *** [ensureLabel] *)

Lemma idxref_ensureLabel db l l' k' v' :
  index_shape db →
  idxref (ensureLabel l db) l' k' v' =
    if decide (indexeStore db !! l = None ∧ l' = l ∧ k' = None ∧ v' = None)
    then Some (length (setHeap db)) else idxref db l' k' v'.
Proof.
  intros Hs. unfold ensureLabel.
  destruct (decide (indexeStore db !! l = None)) as [Hn|Hn].
  - unfold idxref at 1. simpl. destruct (decide (l' = l)) as [->|Hne].
    + rewrite lookup_insert_eq.
      destruct k' as [k'|].
      { rewrite lookup_singleton_ne by done. rewrite decide_False by (intros (?&?&?&?); congruence).
        unfold idxref. by rewrite Hn. }
      rewrite lookup_singleton_eq. destruct v' as [v'|].
      { rewrite lookup_singleton_ne by done. rewrite decide_False by (intros (?&?&?&?); congruence).
        unfold idxref. by rewrite Hn. }
      rewrite lookup_singleton_eq. by rewrite decide_True.
    + rewrite lookup_insert_ne by done. rewrite decide_False by (intros (?&?&?&?); congruence). done.
  - rewrite decide_False by (intros (?&?&?&?); congruence). done.
Qed.

Lemma ensureLabel_present db l : is_Some (indexeStore (ensureLabel l db) !! l).
Proof.
  unfold ensureLabel. case_decide as Hn; simpl.
  - rewrite lookup_insert_eq. eauto.
  - by apply not_eq_None_Some.
Qed.

Lemma ensureLabel_frame db l :
  heap (ensureLabel l db) = heap db ∧ nodes (ensureLabel l db) = nodes db ∧
  allIndexSets (ensureLabel l db) = allIndexSets db ∧
  (∀ r, r < length (setHeap db) → setAt (setHeap (ensureLabel l db)) r = setAt (setHeap db) r) ∧
  length (setHeap db) ≤ length (setHeap (ensureLabel l db)) ∧
  (∀ r, length (setHeap db) ≤ r → setAt (setHeap (ensureLabel l db)) r = ∅).
Proof.
  unfold ensureLabel. case_decide; simpl; split_and!; try done; try lia.
  - intros r Hr. by rewrite setAt_app_l.
  - rewrite length_app. simpl. lia.
  - intros r Hr.
    destruct (decide (r = length (setHeap db))) as [->|Hne].
    + by rewrite setAt_middle.
    + rewrite setAt_ge; [done|]. rewrite length_app. simpl. lia.
  - intros r Hr. by rewrite setAt_ge.
Qed.

(** Adding a fresh, empty set object under a missing entry keeps the shape
    and changes no index set. *)
Lemma shape_alloc_entry db db' (P : Prop) `{!Decision P} l k v :
  index_shape db →
  (P → idxref db l k v = None) →
  (∀ l' k' v', idxref db' l' k' v' =
     if decide (P ∧ l' = l ∧ k' = k ∧ v' = v)
     then Some (length (setHeap db)) else idxref db l' k' v') →
  setHeap db' = (if decide P then setHeap db ++ [∅] else setHeap db) →
  (∀ l', is_Some (indexeStore db' !! l') →
     is_Some (indexeStore db !! l') ∨ (P ∧ l' = l ∧ k = None ∧ v = None)) →
  (P → is_Some k → length (setHeap db) ∈ allIndexSets db') →
  (∀ r, r ∈ allIndexSets db → r ∈ allIndexSets db') →
  index_shape db' ∧ ∀ l' k' v', idxset db' l' k' v' = idxset db l' k' v'.
Proof.
  intros Hs Hnone Hidx Hsh Hdom Hnew Hall.
  assert (Hlen : length (setHeap db) ≤ length (setHeap db')).
  { rewrite Hsh. case_decide; [rewrite length_app; simpl|]; lia. }
  assert (Hlen' : P → length (setHeap db) < length (setHeap db')).
  { intros HP. rewrite Hsh, decide_True by done. rewrite length_app. simpl. lia. }
  split; [split|].
  - intros l' k' v' r. rewrite Hidx. destruct (decide (P ∧ _)) as [Hd|Hd].
    + intros [= ?]. subst r. apply Hlen'. tauto.
    + intros Hr. apply (shape_alloc _ Hs) in Hr. lia.
  - intros l1 k1 v1 l2 k2 v2 r. rewrite !Hidx.
    destruct (decide (P ∧ l1 = l ∧ k1 = k ∧ v1 = v)) as [(?&?&?&?)|?],
             (decide (P ∧ l2 = l ∧ k2 = k ∧ v2 = v)) as [(?&?&?&?)|?]; subst.
    + done.
    + intros [= ?] Hr. subst r. apply (shape_alloc _ Hs) in Hr. lia.
    + intros Hr [= ?]. subst r. apply (shape_alloc _ Hs) in Hr. lia.
    + apply (shape_inj _ Hs).
  - intros l' Hl'. rewrite Hidx. destruct (decide (P ∧ _)) as [Hd|Hd]; [eauto|].
    destruct (Hdom _ Hl') as [Hold|(?&?&?&?)]; [|subst; tauto].
    by apply (shape_label _ Hs).
  - intros l' k' v' r. rewrite Hidx. destruct (decide (P ∧ _)) as [Hd|Hd].
    + intros [= ?]. subst r. destruct Hd as (?&?&?&?). subst. apply Hnew; eauto.
    + intros Hr. apply Hall. by apply (shape_listed _ Hs) in Hr.
  - intros l' k' v'. unfold idxset. rewrite Hidx. destruct (decide (P ∧ _)) as [Hd|Hd].
    + destruct Hd as (HP&->&->&->). rewrite Hnone by done.
      rewrite Hsh, decide_True by done.
      by rewrite setAt_middle.
    + destruct (idxref db l' k' v') as [r|] eqn:Hr; [|done].
      apply (shape_alloc _ Hs) in Hr. rewrite Hsh.
      destruct (decide P); [|done]. by rewrite setAt_app_l.
Qed.

Lemma ensureLabel_spec db l :
  index_shape db →
  index_shape (ensureLabel l db) ∧
  (∀ l' k' v', idxset (ensureLabel l db) l' k' v' = idxset db l' k' v').
Proof.
  intros Hs.
  apply (shape_alloc_entry db _ (indexeStore db !! l = None) l None None); try done.
  - intros Hn. unfold idxref. by rewrite Hn.
  - intros l' k' v'. rewrite idxref_ensureLabel by done.
    repeat destruct (decide _); try done; tauto.
  - unfold ensureLabel. by case_decide.
  - intros l'. unfold ensureLabel. case_decide as Hn; simpl; [|eauto].
    destruct (decide (l' = l)) as [->|Hne]; [eauto|].
    rewrite lookup_insert_ne by done. eauto.
  - unfold ensureLabel. by case_decide.
Qed.

(** *** [ensureKey] *)

Lemma idxref_ensureKey db l k l' k' v' :
  idxref (ensureKey l k db) l' k' v' = idxref db l' k' v'.
Proof.
  unfold ensureKey. destruct (indexeStore db !! l) as [byLabel|] eqn:Hl; [|done].
  case_decide as Hk; [|done].
  unfold idxref. simpl. destruct (decide (l' = l)) as [->|Hne].
  - rewrite lookup_alter_eq, Hl. simpl.
    destruct (decide (k' = Some k)) as [->|Hne].
    + rewrite lookup_insert_eq, Hk. by rewrite lookup_empty.
    + by rewrite lookup_insert_ne.
  - by rewrite lookup_alter_ne.
Qed.

Lemma ensureKey_fields db l k :
  heap (ensureKey l k db) = heap db ∧ nodes (ensureKey l k db) = nodes db ∧
  setHeap (ensureKey l k db) = setHeap db ∧
  allIndexSets (ensureKey l k db) = allIndexSets db.
Proof. unfold ensureKey. destruct (indexeStore db !! l); [case_decide|]; done. Qed.

Lemma ensureKey_dom db l k l' :
  is_Some (indexeStore (ensureKey l k db) !! l') ↔ is_Some (indexeStore db !! l').
Proof.
  unfold ensureKey. destruct (indexeStore db !! l) as [byLabel|] eqn:Hl; [|done].
  case_decide; [|done]. simpl.
  destruct (decide (l' = l)) as [->|Hne].
  - rewrite lookup_alter_eq, Hl. simpl. split; eauto.
  - by rewrite lookup_alter_ne.
Qed.

Lemma ensureKey_present db l k :
  is_Some (indexeStore db !! l) →
  ∃ byLabel, indexeStore (ensureKey l k db) !! l = Some byLabel ∧ is_Some (byLabel !! Some k).
Proof.
  intros [byLabel Hl]. unfold ensureKey. rewrite Hl.
  case_decide as Hk; simpl.
  - rewrite lookup_alter_eq, Hl. simpl. eexists. split; [done|].
    rewrite lookup_insert_eq. eauto.
  - exists byLabel. split; [done|]. by apply not_eq_None_Some.
Qed.

Lemma ensureKey_spec db l k :
  index_shape db →
  index_shape (ensureKey l k db) ∧
  (∀ l' k' v', idxset (ensureKey l k db) l' k' v' = idxset db l' k' v').
Proof.
  intros Hs. destruct (ensureKey_fields db l k) as (Hh & Hn & Hsh & Ha).
  split; [split|].
  - intros *. rewrite idxref_ensureKey, Hsh. apply (shape_alloc _ Hs).
  - intros *. rewrite !idxref_ensureKey. apply (shape_inj _ Hs).
  - intros l'. rewrite ensureKey_dom, idxref_ensureKey. apply (shape_label _ Hs).
  - intros *. rewrite idxref_ensureKey, Ha. apply (shape_listed _ Hs).
  - intros *. unfold idxset. by rewrite idxref_ensureKey, Hsh.
Qed.

(** *** [ensureValue] *)

Lemma idxref_ensureValue db l k v l' k' v' :
  (∃ byLabel, indexeStore db !! l = Some byLabel ∧ is_Some (byLabel !! Some k)) →
  idxref (ensureValue l k v db) l' k' v' =
    if decide (idxref db l (Some k) (Some v) = None ∧ l' = l ∧ k' = Some k ∧ v' = Some v)
    then Some (length (setHeap db)) else idxref db l' k' v'.
Proof.
  intros (byLabel & Hl & [byKey Hk]). unfold ensureValue.
  destruct (decide (idxref db l (Some k) (Some v) = None)) as [Hn|Hn].
  - unfold idxref at 1. simpl. destruct (decide (l' = l)) as [->|Hne].
    + rewrite lookup_alter_eq, Hl. simpl.
      destruct (decide (k' = Some k)) as [->|Hne].
      * rewrite lookup_alter_eq, Hk. simpl.
        destruct (decide (v' = Some v)) as [->|Hne].
        -- rewrite lookup_insert_eq. by rewrite decide_True.
        -- rewrite lookup_insert_ne by done.
           rewrite decide_False by (intros (?&?&?&?); congruence).
           unfold idxref. by rewrite Hl, Hk.
      * rewrite lookup_alter_ne by done.
        rewrite decide_False by (intros (?&?&?&?); congruence).
        unfold idxref. by rewrite Hl.
    + rewrite lookup_alter_ne by done.
      by rewrite decide_False by (intros (?&?&?&?); congruence).
  - by rewrite decide_False by (intros (?&?&?&?); congruence).
Qed.

Lemma ensureValue_fields db l k v :
  heap (ensureValue l k v db) = heap db ∧ nodes (ensureValue l k v db) = nodes db.
Proof. unfold ensureValue. by case_decide. Qed.

Lemma ensureValue_spec db l k v :
  index_shape db →
  (∃ byLabel, indexeStore db !! l = Some byLabel ∧ is_Some (byLabel !! Some k)) →
  index_shape (ensureValue l k v db) ∧
  (∀ l' k' v', idxset (ensureValue l k v db) l' k' v' = idxset db l' k' v') ∧
  is_Some (idxref (ensureValue l k v db) l (Some k) (Some v)) ∧
  is_Some (indexeStore (ensureValue l k v db) !! l).
Proof.
  intros Hs Hpres.
  destruct (shape_alloc_entry db (ensureValue l k v db)
              (idxref db l (Some k) (Some v) = None) l (Some k) (Some v))
    as [Hs' Heq]; try done.
  - intros l' k' v'. rewrite idxref_ensureValue by done.
    repeat destruct (decide _); try done; tauto.
  - unfold ensureValue. by case_decide.
  - intros l'. unfold ensureValue. case_decide as Hn; simpl; [|eauto].
    destruct (decide (l' = l)) as [->|Hne].
    + destruct Hpres as (byLabel & Hl & _). rewrite Hl. eauto.
    + rewrite lookup_alter_ne by done. eauto.
  - intros Hn _. unfold ensureValue. rewrite decide_True by done. simpl.
    apply elem_of_app. right. by apply list_elem_of_singleton.
  - intros r. unfold ensureValue. case_decide; simpl; [|done].
    intros ?. apply elem_of_app. by left.
  - split_and!; try done.
    + rewrite idxref_ensureValue by done. case_decide as Hd; [eauto|].
      apply not_eq_None_Some. intros Hn. apply Hd. done.
    + destruct Hpres as (byLabel & Hl & _).
      unfold ensureValue. case_decide; simpl; [|rewrite Hl; eauto].
      rewrite lookup_alter_eq, Hl. simpl. eauto.
Qed.

(** *** Adding a node to an index set *)

Lemma addToSet_shape db r h : index_shape db → index_shape (addToSet r h db).
Proof.
  intros Hs. split; unfold addToSet, idxref; simpl.
  - intros *. rewrite length_alter. apply (shape_alloc _ Hs).
  - apply (shape_inj _ Hs).
  - apply (shape_label _ Hs).
  - apply (shape_listed _ Hs).
Qed.

Lemma idxset_addToSet db r h l k v l' k' v' :
  index_shape db → idxref db l k v = Some r →
  idxset (addToSet r h db) l' k' v' =
    if decide (l' = l ∧ k' = k ∧ v' = v) then {[h]} ∪ idxset db l' k' v'
    else idxset db l' k' v'.
Proof.
  intros Hs Hr. unfold idxset.
  replace (idxref (addToSet r h db) l' k' v') with (idxref db l' k' v') by done.
  case_decide as Hd.
  - destruct Hd as (->&->&->). rewrite Hr. simpl.
    apply setAt_alter_eq. by apply (shape_alloc _ Hs) in Hr.
  - destruct (idxref db l' k' v') as [r'|] eqn:Hr'; [|done]. simpl.
    apply setAt_alter_ne. intros ->.
    destruct (shape_inj _ Hs _ _ _ _ _ _ _ Hr Hr') as (?&?&?). subst. by apply Hd.
Qed.

(** *** Running [index] *)

Lemma bind_run {A B} (m : M A) (k : A → M B) db db' a :
  m db = (db', Return a) → bind m k db = k a db'.
Proof. intros H. unfold bind. by rewrite H. Qed.

Lemma indexSubscript_run db l k v r :
  idxref db l k v = Some r → indexSubscript l k v db = (db, Return r).
Proof.
  unfold idxref, indexSubscript, bind, get. simpl.
  destruct (indexeStore db !! l) as [byLabel|]; [simpl|done].
  destruct (byLabel !! k) as [byKey|]; [simpl|done].
  intros ->. done.
Qed.

Lemma indexSubscript_fail db l k v :
  idxref db l k v = None → indexSubscript l k v db = (db, Raise KeyError).
Proof.
  unfold idxref, indexSubscript, bind, get. simpl.
  destruct (indexeStore db !! l) as [byLabel|]; [simpl|done].
  destruct (byLabel !! k) as [byKey|]; [simpl|done].
  intros ->. done.
Qed.

Lemma index_run l k v h db :
  index_shape db →
  ∃ r r0,
    let db3 := ensureValue l k v (ensureKey l k (ensureLabel l db)) in
    idxref db3 l (Some k) (Some v) = Some r ∧
    idxref db3 l None None = Some r0 ∧
    index_shape db3 ∧
    index l k v h db = (addToSet r0 h (addToSet r h db3), Return tt).
Proof.
  intros Hs.
  destruct (ensureLabel_spec db l Hs) as [Hs1 _].
  pose proof (ensureLabel_present db l) as Hp1.
  destruct (ensureKey_spec _ l k Hs1) as [Hs2 _].
  destruct (ensureKey_present _ l k Hp1) as (byLabel2 & Hl2 & [byKey Hk2]).
  destruct (ensureValue_spec _ l k v Hs2) as (Hs3 & _ & [r Hr] & Hp3); [eauto|].
  destruct (shape_label _ Hs3 l Hp3) as [r0 Hr0].
  exists r, r0. simpl. split_and!; try done.
  unfold index. unfold bind at 1. simpl.
  assert (H1 : (if decide (indexeStore db !! l = None)
                then bind newSet (λ labelSet,
                       modify (with_indexeStore (<[l := {[None := {[None := labelSet]}]}]>)))
                else ret tt) db = (ensureLabel l db, Return tt)).
  { unfold ensureLabel. by destruct (decide _). }
  rewrite (bind_run _ _ _ _ _ H1). clear H1.
  unfold bind at 1. simpl.
  destruct Hp1 as [byLabel1 Hl1]. rewrite Hl1.
  unfold bind at 1. simpl.
  assert (H2 : (if decide (byLabel1 !! Some k = None)
                then modify (with_indexeStore (alter (<[Some k := ∅]>) l))
                else ret tt) (ensureLabel l db)
               = (ensureKey l k (ensureLabel l db), Return tt)).
  { unfold ensureKey. rewrite Hl1. by destruct (decide _). }
  rewrite (bind_run _ _ _ _ _ H2). clear H2.
  unfold bind at 1. simpl. rewrite Hl2.
  unfold bind at 1. simpl. rewrite Hk2.
  unfold bind at 1. simpl.
  assert (H3 : (if decide (byKey !! Some v = None)
                then bind newSet (λ newValueSet,
                       bind (modify (with_indexeStore
                               (alter (alter (<[Some v := newValueSet]>) (Some k)) l)))
                            (λ _, modify (with_allIndexSets (λ a, a ++ [newValueSet]))))
                else ret tt) (ensureKey l k (ensureLabel l db))
               = (ensureValue l k v (ensureKey l k (ensureLabel l db)), Return tt)).
  { unfold ensureValue.
    assert (Hi : idxref (ensureKey l k (ensureLabel l db)) l (Some k) (Some v)
                 = byKey !! Some v).
    { unfold idxref. by rewrite Hl2, Hk2. }
    rewrite Hi. by destruct (decide _). }
  rewrite (bind_run _ _ _ _ _ H3). clear H3.
  rewrite (bind_run _ _ _ _ _ (indexSubscript_run _ _ _ _ _ Hr)).
  unfold bind at 1. simpl.
  assert (Hr0' : idxref (with_setHeap (alter (union {[h]}) r)
                   (ensureValue l k v (ensureKey l k (ensureLabel l db)))) l None None
                 = Some r0) by done.
  rewrite (bind_run _ _ _ _ _ (indexSubscript_run _ _ _ _ _ Hr0')).
  done.
Qed.

(** [index] returns, keeps the shape, and adds the node to the set of its
    triple only (and to the label-only set). *)
Lemma index_spec l k v h db :
  index_shape db →
  ∃ db', index l k v h db = (db', Return tt) ∧ index_shape db' ∧
    heap db' = heap db ∧ nodes db' = nodes db ∧
    ∀ l' k' v', idxset db' l' (Some k') (Some v') =
      if decide (l' = l ∧ k' = k ∧ v' = v)
      then {[h]} ∪ idxset db l' (Some k') (Some v')
      else idxset db l' (Some k') (Some v').
Proof.
  intros Hs. destruct (index_run l k v h db Hs) as (r & r0 & Hr & Hr0 & Hs3 & Hrun).
  simpl in *. eexists. split; [exact Hrun|].
  destruct (ensureLabel_spec db l Hs) as [Hs1 He1].
  destruct (ensureKey_spec _ l k Hs1) as [Hs2 He2].
  destruct (ensureValue_spec _ l k v Hs2) as (_ & He3 & _ & _).
  { apply ensureKey_present, ensureLabel_present. }
  pose proof (addToSet_shape _ r h Hs3) as Hs4.
  split_and!.
  - by apply addToSet_shape.
  - simpl. destruct (ensureValue_fields (ensureKey l k (ensureLabel l db)) l k v) as [-> _].
    destruct (ensureKey_fields (ensureLabel l db) l k) as [-> _].
    by destruct (ensureLabel_frame db l) as [-> _].
  - simpl. destruct (ensureValue_fields (ensureKey l k (ensureLabel l db)) l k v) as [_ ->].
    destruct (ensureKey_fields (ensureLabel l db) l k) as (_ & -> & _).
    by destruct (ensureLabel_frame db l) as (_ & -> & _).
  - intros l' k' v'.
    rewrite (idxset_addToSet _ r0 h l None None) by done.
    rewrite decide_False by (intros (?&?&?); congruence).
    rewrite (idxset_addToSet _ r h l (Some k) (Some v)) by done.
    rewrite He3, He2, He1.
    destruct (decide (_ ∧ Some k' = _ ∧ _)) as [(?&?&?)|Hn1];
      destruct (decide (_ ∧ k' = _ ∧ _)) as [(?&?&?)|Hn2]; simplify_eq; try done;
      exfalso; [apply Hn2|apply Hn1]; done.
Qed.

(** *** [unIndex], [addIndex] and [reIndex] *)

Lemma lookup_total_alter_remove (h : Handle) (sh : list (gset Handle)) (r0 r : SetRef) :
  setAt (alter (λ s, s ∖ {[h]}) r0 sh) r =
    if decide (r = r0) then (setAt sh r) ∖ {[h]} else setAt sh r.
Proof.
  destruct (decide (r = r0)) as [->|Hne].
  - destruct (decide (r0 < length sh)) as [Hlt|Hge].
    + by rewrite setAt_alter_eq.
    + unfold setAt. rewrite list_lookup_alter_eq.
      rewrite lookup_ge_None_2 by lia. simpl. set_solver.
  - by apply setAt_alter_ne.
Qed.

Lemma unIndex_loop (h : Handle) (refs : list SetRef) (db : GraphDB) :
  ∃ db', for_ refs (unIndex_body h) db = (db', Return tt) ∧
    heap db' = heap db ∧ nodes db' = nodes db ∧ indexeStore db' = indexeStore db ∧
    allIndexSets db' = allIndexSets db ∧ length (setHeap db') = length (setHeap db) ∧
    ∀ r, setAt (setHeap db') r =
      if decide (r ∈ refs) then (setAt (setHeap db) r) ∖ {[h]} else setAt (setHeap db) r.
Proof.
  revert db. induction refs as [|r0 refs IH]; intros db.
  - exists db. simpl. split_and!; try done.
  - simpl.
    set (db1 := if decide (h ∈ setAt (setHeap db) r0)
                then with_setHeap (alter (λ s, s ∖ {[h]}) r0) db else db).
    assert (Hb : unIndex_body h r0 db = (db1, Return tt)).
    { unfold unIndex_body, derefSet, bind, get, db1. simpl. by destruct (decide _). }
    rewrite (bind_run _ _ _ _ _ Hb).
    destruct (IH db1) as (db' & Hrun & Hh & Hn & Hi & Ha & Hl & Hsets).
    exists db'. split; [done|].
    assert (Hdb1 : heap db1 = heap db ∧ nodes db1 = nodes db ∧
                   indexeStore db1 = indexeStore db ∧ allIndexSets db1 = allIndexSets db ∧
                   length (setHeap db1) = length (setHeap db) ∧
                   ∀ r, setAt (setHeap db1) r =
                     if decide (r = r0) then (setAt (setHeap db) r) ∖ {[h]} else setAt (setHeap db) r).
    { unfold db1. destruct (decide (h ∈ _)) as [Hin|Hnin]; simpl; split_and!; try done.
      - by rewrite length_alter.
      - intros r. apply lookup_total_alter_remove.
      - intros r. destruct (decide (r = r0)) as [->|]; [|done].
        revert Hnin. generalize (setAt (setHeap db) r0). clear. intros X Hnin. set_solver. }
    destruct Hdb1 as (Hh1 & Hn1 & Hi1 & Ha1 & Hl1 & Hs1).
    split_and!; try congruence.
    intros r. rewrite Hsets, Hs1.
    destruct (decide (r = r0)) as [->|Hne].
    + rewrite (decide_True (P := r0 ∈ r0 :: refs)) by apply list_elem_of_here.
      destruct (decide (r0 ∈ refs)); [|done].
      generalize (setAt (setHeap db) r0). clear. intros X. set_solver.
    + destruct (decide (r ∈ refs)) as [Hin|Hnin].
      * rewrite decide_True by (by apply list_elem_of_further). done.
      * rewrite decide_False; [done|]. rewrite elem_of_cons. tauto.
Qed.

Lemma unIndex_spec (h : Handle) (db : GraphDB) :
  index_shape db →
  ∃ db', unIndex h db = (db', Return tt) ∧ index_shape db' ∧
    heap db' = heap db ∧ nodes db' = nodes db ∧
    ∀ l k v, idxset db' l (Some k) (Some v) = idxset db l (Some k) (Some v) ∖ {[h]}.
Proof.
  intros Hs.
  destruct (unIndex_loop h (allIndexSets db) db) as (db' & Hrun & Hh & Hn & Hi & Ha & Hl & Hsets).
  exists db'. split; [exact Hrun|].
  assert (Hidx : ∀ l k v, idxref db' l k v = idxref db l k v).
  { intros. unfold idxref. by rewrite Hi. }
  split_and!; try done.
  - split.
    + intros *. rewrite Hidx, Hl. apply (shape_alloc _ Hs).
    + intros *. rewrite !Hidx. apply (shape_inj _ Hs).
    + intros l. rewrite Hidx, Hi. apply (shape_label _ Hs).
    + intros *. rewrite Hidx, Ha. apply (shape_listed _ Hs).
  - intros l k v. unfold idxset. rewrite Hidx.
    destruct (idxref db l (Some k) (Some v)) as [r|] eqn:Hr; [|set_solver].
    rewrite Hsets. rewrite decide_True; [done|]. by apply (shape_listed _ Hs) in Hr.
Qed.

Lemma addIndex_loop (h : Handle) (kvs : list (string * string)) (db : GraphDB) :
  index_shape db →
  ∃ db', for_ kvs (addIndex_body h) db = (db', Return tt) ∧ index_shape db' ∧
    heap db' = heap db ∧ nodes db' = nodes db ∧
    ∀ l k v x, x ∈ idxset db' l (Some k) (Some v) ↔
      x ∈ idxset db l (Some k) (Some v) ∨
      (x = h ∧ l = label (nodeAt (heap db) h) ∧ (k, v) ∈ kvs).
Proof.
  revert db. induction kvs as [|[k0 v0] kvs IH]; intros db Hs.
  - exists db. simpl. split_and!; try done. intros. set_solver.
  - simpl.
    destruct (index_spec (label (nodeAt (heap db) h)) k0 v0 h db Hs)
      as (db1 & Hrun1 & Hs1 & Hh1 & Hn1 & Hidx1).
    assert (Hb : (l ← Node_getLabel h; index l k0 v0 h) db = (db1, Return tt)).
    { unfold Node_getLabel, getNode, bind, get. simpl. exact Hrun1. }
    rewrite (bind_run _ _ _ _ _ Hb).
    destruct (IH db1 Hs1) as (db' & Hrun & Hs' & Hh & Hn & Hidx).
    exists db'. split_and!; try congruence.
    intros l k v x. rewrite Hidx, Hidx1, Hh1, elem_of_cons.
    destruct (decide _) as [(->&->&->)|Hne].
    + rewrite elem_of_union, elem_of_singleton. naive_solver.
    + naive_solver.
Qed.

Lemma reIndex_spec (h : Handle) (db : GraphDB) :
  index_shape db →
  ∃ db', reIndex h db = (db', Return tt) ∧ index_shape db' ∧
    heap db' = heap db ∧ nodes db' = nodes db ∧
    ∀ l k v x, x ∈ idxset db' l (Some k) (Some v) ↔
      (x ≠ h ∧ x ∈ idxset db l (Some k) (Some v)) ∨
      (x = h ∧ l = label (nodeAt (heap db) h) ∧ properties (nodeAt (heap db) h) !! k = Some v).
Proof.
  intros Hs.
  destruct (unIndex_spec h db Hs) as (db1 & Hrun1 & Hs1 & Hh1 & Hn1 & Hidx1).
  destruct (addIndex_loop h (map_to_list (properties (nodeAt (heap db1) h))) db1 Hs1)
    as (db' & Hrun & Hs' & Hh & Hn & Hidx).
  exists db'. split_and!; try congruence.
  - unfold reIndex. rewrite (bind_run _ _ _ _ _ Hrun1).
    unfold addIndex, Node_getProperties, getNode. unfold bind at 1. simpl. exact Hrun.
  - intros l k v x. rewrite Hidx, Hidx1, Hh1, elem_of_map_to_list.
    rewrite elem_of_difference, elem_of_singleton.
    destruct (decide (x = h)); naive_solver.
Qed.

(** ** Iteration order of sets *)

Lemma insert_at_Permutation {A} (i : nat) (x : A) (l : list A) :
  insert_at i x l ≡ₚ x :: l.
Proof.
  unfold insert_at. rewrite <- Permutation_middle. by rewrite take_drop.
Qed.

Lemma permute_Permutation {A} (code : nat) (l : list A) : permute code l ≡ₚ l.
Proof.
  revert code. induction l as [|x l IH]; intros code; simpl; [done|].
  rewrite insert_at_Permutation. by rewrite IH.
Qed.

Lemma set_iter_Permutation rt (s : gset Handle) : set_iter rt s ≡ₚ elements s.
Proof. apply permute_Permutation. Qed.

Lemma elem_of_set_iter rt (s : gset Handle) (x : Handle) : x ∈ set_iter rt s ↔ x ∈ s.
Proof. rewrite set_iter_Permutation. apply elem_of_elements. Qed.

Lemma set_iter_empty rt : set_iter rt ∅ = [].
Proof. unfold set_iter. by rewrite elements_empty. Qed.

Lemma set_iter_nil_inv rt (s : gset Handle) : set_iter rt s = [] → s = ∅.
Proof.
  intros H. apply leibniz_equiv, elements_empty_inv. apply Permutation_nil_r.
  rewrite <- H. symmetry. apply set_iter_Permutation.
Qed.

(** ** [queryById] without the monad *)

Lemma queryById_unfold rt q db : queryById rt q db = (db, queryById_outcome rt db q).
Proof.
  unfold queryById, queryById_outcome, bind at 1, lift.
  destruct (parseQueryQualifier q) as [[[l k] v]|e|]; [|done..].
  destruct (decide (k ≠ Some "id")); [done|].
  unfold catch, idxset. destruct (idxref db l k v) as [r|] eqn:Hr.
  - rewrite (bind_run _ _ _ _ _ (indexSubscript_run _ _ _ _ _ Hr)).
    unfold derefSet, bind, get. simpl. by destruct (set_iter rt _).
  - unfold bind. rewrite (indexSubscript_fail _ _ _ _ Hr). by rewrite set_iter_empty.
Qed.

Lemma parseQueryQualifier_outcome q :
  parseQueryQualifier q = Raise InvalidQuery ∨ ∃ t, parseQueryQualifier q = Return t.
Proof.
  pose proof (parseQueryQualifier_cases q) as H.
  destruct (Str.count ":" q) as [|[|n]]; simpl in H; eauto.
  destruct (Str.count "=" (Str.after ":" q)) as [|[|m]]; eauto.
Qed.

Lemma queryById_outcome_not_OutOfFuel rt db q : queryById_outcome rt db q ≠ OutOfFuel.
Proof.
  unfold queryById_outcome.
  destruct (parseQueryQualifier_outcome q) as [->|[[[l k] v] ->]]; [done|].
  destruct (decide _); [done|]. by destruct (set_iter rt _).
Qed.

(** A node that [queryById] returns is a member of the id index set of the
    parsed label and id. *)
Lemma queryById_Return rt db q h :
  queryById_outcome rt db q = Return h →
  ∃ l v, parseQueryQualifier q = Return (l, Some "id", Some v) ∧
         h ∈ idxset db l (Some "id") (Some v).
Proof.
  unfold queryById_outcome.
  destruct (parseQueryQualifier_outcome q) as [Hp|[[[l k] v] Hp]]; rewrite Hp; [done|].
  destruct (decide (k ≠ Some "id")) as [|Hk]; [done|].
  apply dec_stable in Hk. subst k.
  destruct (set_iter rt (idxset db l (Some "id") v)) as [|x xs] eqn:Hi; [done|].
  intros [= ->].
  assert (Hin : h ∈ idxset db l (Some "id") v).
  { apply (elem_of_set_iter rt). rewrite Hi. apply list_elem_of_here. }
  destruct v as [v|]; [eauto|].
  (* a clause always carries a value *)
  exfalso. unfold parseQueryQualifier in Hp.
  destruct (Str.split ":" q) as [|a [|b [|c t]]]; try done.
  destruct (parseQueryClause b) as [[? ?]| |]; done.
Qed.

(** ** The operations keep the invariant *)

Lemma idx_fields_same db db1 :
  indexeStore db1 = indexeStore db → setHeap db1 = setHeap db →
  allIndexSets db1 = allIndexSets db →
  (∀ l k v, idxref db1 l k v = idxref db l k v) ∧
  (∀ l k v, idxset db1 l k v = idxset db l k v) ∧
  (index_shape db → index_shape db1).
Proof.
  intros Hi Hsh Ha.
  assert (Hr : ∀ l k v, idxref db1 l k v = idxref db l k v).
  { intros. unfold idxref. by rewrite Hi. }
  split_and!; [done| |].
  - intros. unfold idxset. by rewrite Hr, Hsh.
  - intros Hs. split.
    + intros *. rewrite Hr, Hsh. apply (shape_alloc _ Hs).
    + intros *. rewrite !Hr. apply (shape_inj _ Hs).
    + intros l. rewrite Hr, Hi. apply (shape_label _ Hs).
    + intros *. rewrite Hr, Ha. apply (shape_listed _ Hs).
Qed.

(** After the heap changed at one node only, re-indexing that node restores
    the invariant. *)
Lemma reIndex_restores h db db1 :
  store_inv db →
  indexeStore db1 = indexeStore db → setHeap db1 = setHeap db →
  allIndexSets db1 = allIndexSets db →
  (∀ x, x ≠ h → heap db1 !! x = heap db !! x) →
  is_Some (heap db1 !! h) →
  (∀ x, x ∈ nodes db1 ↔ x < length (heap db1)) →
  ∃ db', reIndex h db1 = (db', Return tt) ∧ store_inv db' ∧
         heap db' = heap db1 ∧ nodes db' = nodes db1.
Proof.
  intros [Hs Hc] Hi Hsh Ha Hagree [nd1 Hh] Hnodes.
  destruct (idx_fields_same db db1 Hi Hsh Ha) as (_ & Hset & Hs1).
  destruct (reIndex_spec h db1 (Hs1 Hs)) as (db' & Hrun & Hs' & Hheap & Hn & Hidx).
  exists db'. split_and!; try done. split; [done|]. split.
  - intros x. rewrite Hn, Hheap. apply Hnodes.
  - intros x nd k v Hx Hp. rewrite Hheap in Hx. apply Hidx.
    destruct (decide (x = h)) as [->|Hne].
    + right. rewrite (nodeAt_lookup _ _ _ Hx). done.
    + left. split; [done|]. rewrite Hset.
      apply (indexed_complete _ Hc); [|done]. by rewrite <- Hagree.
  - intros l k v x Hx. apply Hidx in Hx. rewrite Hheap.
    destruct Hx as [[Hne Hx]|(-> & -> & Hp)].
    + rewrite Hset in Hx. rewrite Hagree by done. by apply (indexed_sound _ Hc).
    + rewrite (nodeAt_lookup _ _ _ Hh) in Hp |- *. eauto.
Qed.

(** Changing connections only keeps the invariant. *)
Lemma store_inv_connections db hp :
  store_inv db →
  length hp = length (heap db) →
  (∀ x nd1, hp !! x = Some nd1 →
     ∃ nd, heap db !! x = Some nd ∧ label nd1 = label nd ∧ properties nd1 = properties nd) →
  store_inv (with_heap (λ _, hp) db).
Proof.
  intros [Hs Hc] Hlen Hsame.
  destruct (idx_fields_same db (with_heap (λ _, hp) db)) as (_ & Hset & Hs1); try done.
  split; [by apply Hs1|]. split; simpl.
  - intros x. rewrite Hlen. apply (nodes_are_heap _ Hc).
  - intros x nd1 k v Hx Hp. destruct (Hsame _ _ Hx) as (nd & Hnd & Hl & Hpr).
    rewrite Hset, Hl. apply (indexed_complete _ Hc); [done|]. by rewrite <- Hpr.
  - intros l k v x Hx. rewrite Hset in Hx.
    destruct (indexed_sound _ Hc _ _ _ _ Hx) as (nd & Hnd & Hl & Hp).
    assert (Hlt : x < length hp).
    { rewrite Hlen. by apply lookup_lt_Some in Hnd. }
    destruct (lookup_lt_is_Some_2 _ _ Hlt) as [nd1 Hnd1].
    destruct (Hsame _ _ Hnd1) as (nd' & Hnd' & Hl' & Hp').
    exists nd1. simplify_eq. split_and!; [done|congruence|congruence].
Qed.

(** A node returned by [queryById] is a stored node with the parsed label
    and id. *)
Lemma queryById_Return_stored rt db q h :
  store_inv db → queryById_outcome rt db q = Return h →
  ∃ l v nd, parseQueryQualifier q = Return (l, Some "id", Some v) ∧
    heap db !! h = Some nd ∧ label nd = l ∧ properties nd !! "id" = Some v.
Proof.
  intros [_ Hc] Hq. destruct (queryById_Return _ _ _ _ Hq) as (l & v & Hp & Hin).
  destruct (indexed_sound _ Hc _ _ _ _ Hin) as (nd & ? & ? & ?). eauto 10.
Qed.

Section Operations.

Context (rt : Runtime).

Lemma label_formatted_by_id_run node db :
  ∃ o, label_formatted_by_id rt node db = (db, o) ∧ o ≠ OutOfFuel.
Proof.
  unfold label_formatted_by_id, bind, subscript.
  destruct (properties node !! "id") as [id|]; simpl; [|by eexists].
  destruct (str_format rt id ""); [|by eexists].
  destruct (str_format rt (label node) _); by eexists.
Qed.

Lemma throwIfNodeAlreadyExists_run h node db :
  ∃ o, throwIfNodeAlreadyExists rt h node db = (db, o) ∧
       (o = Return tt ∨ o = Raise AttributeError).
Proof.
  unfold throwIfNodeAlreadyExists. unfold bind at 1. simpl.
  destruct (decide (h ∈ nodes db)); [eexists; split; [reflexivity|by right]|].
  unfold bind at 1, catch, bind at 1.
  destruct (label_formatted_by_id_run node db) as (o & -> & Ho).
  destruct o as [qualifier|e|]; [|eexists; split; [reflexivity|by left]|done].
  unfold bind. rewrite queryById_unfold.
  pose proof (queryById_outcome_not_OutOfFuel rt db qualifier).
  destruct (queryById_outcome rt db qualifier);
    [eexists; split; [reflexivity|by right]|eexists; split; [reflexivity|by left]|done].
Qed.

Lemma throwIfNodeAlreadyExists_cases h node db :
  throwIfNodeAlreadyExists rt h node db = (db, Return tt) ∨
  throwIfNodeAlreadyExists rt h node db = (db, Raise AttributeError).
Proof.
  destruct (throwIfNodeAlreadyExists_run h node db) as (o & -> & [->| ->]); eauto.
Qed.

Lemma addNode_cases l i db :
  store_inv db →
  addNode rt l i db = (db, Raise AttributeError) ∨
  ∃ db', addNode rt l i db = (db', Return tt) ∧ store_inv db' ∧
         heap db' = heap db ++ [Node_init i l] ∧
         nodes db' = {[length (heap db)]} ∪ nodes db.
Proof.
  intros Hinv. destruct (addNode rt l i db) as [db2 o] eqn:Hrun.
  unfold addNode, verifyEntity in Hrun.
  unfold bind at 1 in Hrun. simpl in Hrun.
  unfold bind at 1 in Hrun. simpl in Hrun.
  unfold bind at 1 in Hrun.
  destruct (throwIfNodeAlreadyExists_cases (length (heap db)) (Node_init i l) db)
    as [Ht | Ht]; rewrite Ht in Hrun; [|left; congruence].
  right. unfold bind at 1 in Hrun. simpl in Hrun.
  unfold bind at 1 in Hrun. simpl in Hrun.
  set (db1 := with_nodes (union {[length (heap db)]})
                (with_heap (λ hp, hp ++ [Node_init i l]) db)) in *.
  destruct (reIndex_restores (length (heap db)) db db1 Hinv)
    as (db' & Hrun' & Hinv' & Hh & Hn); try done.
  - intros x Hne. unfold db1. simpl. destruct (decide (x < length (heap db))).
    + by rewrite lookup_app_l.
    + rewrite !lookup_ge_None_2; [done|lia|]. rewrite length_app. simpl. lia.
  - unfold db1. simpl. apply lookup_lt_is_Some_2. rewrite length_app. simpl. lia.
  - intros x. unfold db1. simpl. rewrite length_app. simpl.
    destruct Hinv as [_ Hc].
    rewrite elem_of_union, elem_of_singleton, (nodes_are_heap _ Hc x). lia.
  - rewrite Hrun' in Hrun. simplify_eq.
    exists db2. split_and!; [done|done|by rewrite Hh|by rewrite Hn].
Qed.

Lemma addOrUpdateNodeProperty_cases q name value db :
  store_inv db →
  (∃ e, addOrUpdateNodeProperty rt q name value db = (db, Raise e)) ∨
  ∃ db' h nd, addOrUpdateNodeProperty rt q name value db = (db', Return tt) ∧
    store_inv db' ∧ queryById_outcome rt db q = Return h ∧
    heap db !! h = Some nd ∧ name ≠ "id" ∧
    heap db' = <[h := setProp name value nd]> (heap db) ∧ nodes db' = nodes db.
Proof.
  intros Hinv. destruct (addOrUpdateNodeProperty rt q name value db) as [db2 o] eqn:Hrun.
  unfold addOrUpdateNodeProperty in Hrun. unfold bind at 1 in Hrun.
  rewrite queryById_unfold in Hrun.
  pose proof (queryById_outcome_not_OutOfFuel rt db q).
  destruct (queryById_outcome rt db q) as [h|e|] eqn:Hq;
    [|left; exists e; congruence|done].
  destruct (queryById_Return_stored _ _ _ _ Hinv Hq) as (l & v & nd & Hp & Hnd & Hl & Hid).
  unfold Node_addOrUpdateProperty in Hrun.
  destruct (decide ("id" = name)) as [Heq|Hne].
  { left. exists ReservedProperty. unfold bind, raise in Hrun. congruence. }
  right. unfold bind at 1 in Hrun. simpl in Hrun.
  set (db1 := with_heap (alter (λ n, mkNode (label n) (<[name := value]> (properties n))
                                        (connections n)) h) db) in *.
  assert (Hlt : h < length (heap db)) by (by apply lookup_lt_Some in Hnd).
  destruct (reIndex_restores h db db1 Hinv) as (db' & Hrun' & Hinv' & Hh & Hn); try done.
  - intros x Hne'. unfold db1. simpl. by rewrite list_lookup_alter_ne.
  - unfold db1. simpl. rewrite list_lookup_alter_eq, Hnd. simpl. eauto.
  - intros x. unfold db1. simpl. rewrite length_alter. destruct Hinv as [_ Hc].
    apply (nodes_are_heap _ Hc).
  - rewrite Hrun' in Hrun. simplify_eq.
    exists db2, h, nd. split_and!; try done.
    rewrite Hh. unfold db1. simpl. apply list_eq. intros x.
    destruct (decide (x = h)) as [->|Hne'].
    + rewrite list_lookup_alter_eq, list_lookup_insert_eq, Hnd by done. done.
    + by rewrite list_lookup_alter_ne, list_lookup_insert_ne.
Qed.

Lemma connect_cases q1 q2 db :
  store_inv db →
  (∃ e, connect rt q1 q2 db = (db, Raise e)) ∨
  ∃ a b, queryById_outcome rt db q1 = Return a ∧ queryById_outcome rt db q2 = Return b ∧
    a ≠ b ∧ a < length (heap db) ∧ b < length (heap db) ∧
    connect rt q1 q2 db =
      (with_heap (λ hp, alter (addConn a) b (alter (addConn b) a hp)) db, Return tt) ∧
    store_inv (with_heap (λ hp, alter (addConn a) b (alter (addConn b) a hp)) db).
Proof.
  intros Hinv. destruct (connect rt q1 q2 db) as [db2 o] eqn:Hrun.
  unfold connect in Hrun. unfold bind at 1 in Hrun. rewrite queryById_unfold in Hrun.
  pose proof (queryById_outcome_not_OutOfFuel rt db q1).
  destruct (queryById_outcome rt db q1) as [a|e|] eqn:Hq1;
    [|left; exists e; congruence|done].
  unfold bind at 1 in Hrun. rewrite queryById_unfold in Hrun.
  pose proof (queryById_outcome_not_OutOfFuel rt db q2).
  destruct (queryById_outcome rt db q2) as [b|e|] eqn:Hq2;
    [|left; exists e; congruence|done].
  unfold Node_addConnection in Hrun.
  destruct (decide (b = a)) as [->|Hne].
  { left. exists CannotConnectOneself. unfold raise in Hrun. congruence. }
  right. exists a, b.
  destruct (queryById_Return_stored _ _ _ _ Hinv Hq1) as (l1 & v1 & nd1 & _ & Hnd1 & _).
  destruct (queryById_Return_stored _ _ _ _ Hinv Hq2) as (l2 & v2 & nd2 & _ & Hnd2 & _).
  apply lookup_lt_Some in Hnd1 as Hlt1. apply lookup_lt_Some in Hnd2 as Hlt2.
  split_and!; try done.
  apply (store_inv_connections db (alter (addConn a) b (alter (addConn b) a (heap db))) Hinv).
  - by rewrite !length_alter.
  - intros x nd Hx. destruct (decide (x = b)) as [Hb|Hb].
    + subst x. rewrite list_lookup_alter_eq, list_lookup_alter_ne in Hx by done.
      apply fmap_Some in Hx as (nd' & Hx & ->). eauto.
    + rewrite list_lookup_alter_ne in Hx by done.
      destruct (decide (x = a)) as [Ha|Ha].
      * subst x. rewrite list_lookup_alter_eq in Hx.
        apply fmap_Some in Hx as (nd' & Hx & ->). eauto.
      * rewrite list_lookup_alter_ne in Hx by done. eauto.
Qed.

Lemma exec_store_inv op db : store_inv db → store_inv (exec rt op db).1.
Proof.
  intros Hinv. destruct op as [l i|q n v|q1 q2|q|q|q f d]; simpl; unfold bind.
  - destruct (addNode_cases l i db Hinv) as [->|(db' & -> & ? & _)]; done.
  - destruct (addOrUpdateNodeProperty_cases q n v db Hinv)
      as [[e ->]|(db' & h & nd & -> & ? & _)]; done.
  - destruct (connect_cases q1 q2 db Hinv) as [[e ->]|(a & b & _ & _ & _ & _ & _ & -> & ?)];
      done.
  - pose proof (read_only_queryById rt q db) as Hro.
    destruct (queryById rt q db) as [db' [?| |]]; simpl in *; by subst.
  - pose proof (read_only_query q db) as Hro.
    destruct (query q db) as [db' [?| |]]; simpl in *; by subst.
  - pose proof (read_only_graphQuery rt q f d db) as Hro.
    destruct (graphQuery rt q f d db) as [db' [?| |]]; simpl in *; by subst.
Qed.

Lemma run_store_inv ops db : store_inv db → store_inv (run rt ops db).
Proof.
  revert db. induction ops as [|op ops IH]; intros db Hinv; simpl; [done|].
  apply IH. by apply exec_store_inv.
Qed.

Lemma reachable_store_inv ops : store_inv (reachable rt ops).
Proof.
  apply run_store_inv. split; [apply index_shape_init|apply index_consistent_init].
Qed.

End Operations.

(** ** Qualifiers built from separator-free parts *)

Lemma count_app (c : ascii) (s1 s2 : string) :
  Str.count c (s1 +:+ s2) = Str.count c s1 + Str.count c s2.
Proof. induction s1 as [|a s1 IH]; simpl; [done|]. rewrite IH. lia. Qed.

Lemma before_app (c : ascii) (s1 s2 : string) :
  Str.count c s1 = 0 → Str.before c (s1 +:+ String c s2) = s1.
Proof.
  induction s1 as [|a s1 IH]; simpl.
  - by rewrite Ascii.eqb_refl.
  - destruct (Ascii.eqb a c); [done|]. intros H. by rewrite IH.
Qed.

Lemma after_app (c : ascii) (s1 s2 : string) :
  Str.count c s1 = 0 → Str.after c (s1 +:+ String c s2) = s2.
Proof.
  induction s1 as [|a s1 IH]; simpl.
  - by rewrite Ascii.eqb_refl.
  - destruct (Ascii.eqb a c); [done|]. intros H. by rewrite IH.
Qed.

Lemma parseQueryQualifier_triple (l k v : string) :
  Str.count ":" l = 0 → Str.count ":" k = 0 → Str.count ":" v = 0 →
  Str.count "=" k = 0 → Str.count "=" v = 0 →
  parseQueryQualifier (l +:+ ":" +:+ k +:+ "=" +:+ v) = Return (l, Some k, Some v).
Proof.
  intros Hl Hk Hv Hk' Hv'.
  pose proof (parseQueryQualifier_cases (l +:+ ":" +:+ k +:+ "=" +:+ v)) as H.
  assert (Hc : Str.count ":" (l +:+ ":" +:+ k +:+ "=" +:+ v) = 1).
  { rewrite !count_app. simpl. lia. }
  rewrite Hc in H. simpl in H.
  change (l +:+ String ":" (k +:+ String "=" v)) with (l +:+ ":" +:+ k +:+ "=" +:+ v) in H.
  replace (Str.after ":" (l +:+ ":" +:+ k +:+ "=" +:+ v)) with (k +:+ "=" +:+ v) in H
    by (symmetry; by apply after_app).
  replace (Str.before ":" (l +:+ ":" +:+ k +:+ "=" +:+ v)) with l in H
    by (symmetry; by apply before_app).
  assert (Hc' : Str.count "=" (k +:+ "=" +:+ v) = 1).
  { rewrite !count_app. simpl. lia. }
  rewrite Hc' in H. rewrite H.
  change (k +:+ "=" +:+ v) with (k +:+ String "=" v).
  by rewrite before_app, after_app.
Qed.

Lemma query_unfold (q : string) (db : GraphDB) :
  query (Some q) db =
    (db, match parseQueryQualifier q with
         | Return (l, k, v) => Return (idxset db l k v)
         | Raise e => Raise e
         | OutOfFuel => OutOfFuel
         end).
Proof.
  unfold query, bind, lift, get, ret. simpl.
  destruct (parseQueryQualifier q) as [[[l k] v]|e|]; [|done..].
  unfold idxset, idxref.
  destruct (indexeStore db !! l) as [byLabel|]; simpl; [|by rewrite !lookup_empty].
  destruct (byLabel !! k) as [byKey|]; simpl; [done|by rewrite lookup_empty].
Qed.

(** ** The claims about the store *)

(** C2, as amended.  After any sequence of calls — so after every [addNode]
    and every [addOrUpdateNodeProperty] — index and properties agree: a
    stored node with label [l] whose property [k] has value [v] is in the
    index set of (l, k, v), and every member of that index set is such a
    node (so a node is in no set of a value its property no longer has).
    That set is what [query("l:k=v")] returns when [l], [k] and [v] hold no
    [:] and [k] and [v] no [=]; the qualifier syntax has no escaping, and
    with a separator in a part the qualifier does not denote the triple. *)
Theorem index_agrees_with_properties (rt : Runtime) (ops : list Op) :
  let db := reachable rt ops in
  (∀ h nd k v,
     h ∈ nodes db → heap db !! h = Some nd → properties nd !! k = Some v →
     h ∈ idxset db (label nd) (Some k) (Some v)) ∧
  (∀ l k v h,
     h ∈ idxset db l (Some k) (Some v) →
     ∃ nd, h ∈ nodes db ∧ heap db !! h = Some nd ∧ label nd = l ∧
           properties nd !! k = Some v) ∧
  (∀ l k v,
     Str.count ":" l = 0 → Str.count ":" k = 0 → Str.count ":" v = 0 →
     Str.count "=" k = 0 → Str.count "=" v = 0 →
     query (Some (l +:+ ":" +:+ k +:+ "=" +:+ v)) db =
       (db, Return (idxset db l (Some k) (Some v)))).
Proof.
  intros db. destruct (reachable_store_inv rt ops) as [Hs Hc]. fold db in Hs, Hc.
  split_and!.
  - intros h nd k v _. apply (indexed_complete _ Hc).
  - intros l k v h Hin.
    destruct (indexed_sound _ Hc _ _ _ _ Hin) as (nd & Hnd & Hl & Hp).
    exists nd. split_and!; try done.
    apply (nodes_are_heap _ Hc). by apply lookup_lt_Some in Hnd.
  - intros l k v ? ? ? ? ?. rewrite query_unfold.
    by rewrite parseQueryQualifier_triple.
Qed.

Lemma addConn_idemp (c : Handle) (n : Node) : addConn c (addConn c n) = addConn c n.
Proof. unfold addConn. simpl. f_equal. set_solver. Qed.

Lemma addConn_comm (c d : Handle) (n : Node) :
  addConn c (addConn d n) = addConn d (addConn c n).
Proof. unfold addConn. simpl. f_equal. set_solver. Qed.

Lemma connect_heap_idemp (a b : Handle) (hp : list Node) :
  a ≠ b →
  let hp' := alter (addConn a) b (alter (addConn b) a hp) in
  alter (addConn a) b (alter (addConn b) a hp') = hp' ∧
  alter (addConn b) a (alter (addConn a) b hp') = hp'.
Proof.
  intros Hne hp'. subst hp'.
  split; apply list_eq; intros x; rewrite !list_lookup_alter;
    repeat case_decide; simplify_eq; destruct (hp !! x); simpl;
    by rewrite ?addConn_idemp.
Qed.

Lemma with_heap_id (f : list Node → list Node) (db : GraphDB) :
  f (heap db) = heap db → with_heap f db = db.
Proof. destruct db. unfold with_heap. simpl. by intros ->. Qed.

Lemma nodeAt_alter_eq (f : Node → Node) (hp : list Node) (h : Handle) :
  h < length hp → nodeAt (alter f h hp) h = f (nodeAt hp h).
Proof.
  intros H. unfold nodeAt. rewrite list_lookup_alter_eq.
  destruct (lookup_lt_is_Some_2 hp h H) as [n ->]. done.
Qed.

Lemma nodeAt_alter_ne (f : Node → Node) (hp : list Node) (h0 h : Handle) :
  h0 ≠ h → nodeAt (alter f h0 hp) h = nodeAt hp h.
Proof. intros. unfold nodeAt. by rewrite list_lookup_alter_ne. Qed.

Lemma queryById_outcome_same_index rt db db1 q :
  indexeStore db1 = indexeStore db → setHeap db1 = setHeap db →
  allIndexSets db1 = allIndexSets db →
  queryById_outcome rt db1 q = queryById_outcome rt db q.
Proof.
  intros Hi Hsh Ha. destruct (idx_fields_same db db1 Hi Hsh Ha) as (_ & Hset & _).
  unfold queryById_outcome. destruct (parseQueryQualifier q) as [[[l k] v]|e|]; [|done..].
  by rewrite Hset.
Qed.

(** C5. On a store obtained by any sequence of calls, a [connect] that
    returns resolved its qualifiers to two distinct stored nodes [a] and
    [b], has put [b] among the connections of [a] and [a] among the
    connections of [b], and connecting the pair again, in either order,
    returns and leaves the whole store — so both connection sets — as it
    is. *)
Theorem connect_symmetric_idempotent (rt : Runtime) (ops : list Op)
    (q1 q2 : string) (db' : GraphDB) :
  let db := reachable rt ops in
  connect rt q1 q2 db = (db', Return tt) →
  ∃ a b,
    queryById rt q1 db = (db, Return a) ∧ queryById rt q2 db = (db, Return b) ∧
    a ≠ b ∧ a ∈ nodes db ∧ b ∈ nodes db ∧
    b ∈ connections (nodeAt (heap db') a) ∧
    a ∈ connections (nodeAt (heap db') b) ∧
    connect rt q1 q2 db' = (db', Return tt) ∧
    connect rt q2 q1 db' = (db', Return tt).
Proof.
  intros db Hrun. pose proof (reachable_store_inv rt ops) as Hinv. fold db in Hinv.
  destruct (connect_cases rt q1 q2 db Hinv)
    as [[e He]|(a & b & Hq1 & Hq2 & Hne & Hlt1 & Hlt2 & Hrun' & Hinv')]; [congruence|].
  rewrite Hrun' in Hrun. injection Hrun as Hdb'. rewrite Hdb' in Hinv'.
  assert (Hheap : heap db' = alter (addConn a) b (alter (addConn b) a (heap db))).
  { by rewrite <- Hdb'. }
  assert (Hsame : ∀ q, queryById_outcome rt db' q = queryById_outcome rt db q).
  { intros q. apply queryById_outcome_same_index; by rewrite <- Hdb'. }
  destruct (connect_heap_idemp a b (heap db) Hne) as [Hid1 Hid2].
  exists a, b. rewrite !queryById_unfold, Hq1, Hq2.
  destruct Hinv as [_ Hc].
  split_and!; try done.
  - by apply (nodes_are_heap _ Hc).
  - by apply (nodes_are_heap _ Hc).
  - rewrite Hheap. rewrite nodeAt_alter_ne by done.
    rewrite nodeAt_alter_eq by done. simpl. set_solver.
  - rewrite Hheap. rewrite nodeAt_alter_eq by (by rewrite length_alter).
    simpl. set_solver.
  - destruct (connect_cases rt q1 q2 db' Hinv')
      as [[e He]|(a' & b' & Hq1' & Hq2' & _ & _ & _ & Hrun2 & _)].
    + exfalso. revert He. unfold connect, bind. rewrite !queryById_unfold, !Hsame, Hq1, Hq2.
      unfold Node_addConnection. rewrite decide_False by done. done.
    + rewrite Hsame, Hq1 in Hq1'. rewrite Hsame, Hq2 in Hq2'. simplify_eq.
      rewrite Hrun2. f_equal. apply with_heap_id. by rewrite Hheap.
  - destruct (connect_cases rt q2 q1 db' Hinv')
      as [[e He]|(a' & b' & Hq1' & Hq2' & _ & _ & _ & Hrun2 & _)].
    + exfalso. revert He. unfold connect, bind. rewrite !queryById_unfold, !Hsame, Hq1, Hq2.
      unfold Node_addConnection. rewrite decide_False by done. done.
    + rewrite Hsame, Hq2 in Hq1'. rewrite Hsame, Hq1 in Hq2'. simplify_eq.
      rewrite Hrun2. f_equal. apply with_heap_id. by rewrite Hheap.
Qed.

(** C6. On a store obtained by any sequence of calls, a call of any of the
    six operations that does not return — it raised — leaves the store
    exactly as it was: node set, heap of nodes (labels, properties,
    connections), index store and index sets. *)
Theorem failed_call_leaves_store_unchanged (rt : Runtime) (ops : list Op) (op : Op) :
  let db := reachable rt ops in
  ¬ is_Return (exec rt op db).2 → (exec rt op db).1 = db.
Proof.
  intros db. pose proof (reachable_store_inv rt ops) as Hinv. fold db in Hinv.
  destruct op as [l i|q n v|q1 q2|q|q|q f d]; simpl; unfold bind.
  - destruct (addNode_cases rt l i db Hinv) as [->|(db' & -> & _)]; simpl; [done|].
    intros H. by destruct H.
  - destruct (addOrUpdateNodeProperty_cases rt q n v db Hinv)
      as [[e ->]|(db' & h & nd & -> & _)]; simpl; [done|].
    intros H. by destruct H.
  - destruct (connect_cases rt q1 q2 db Hinv)
      as [[e ->]|(a & b & _ & _ & _ & _ & _ & -> & _)]; simpl; [done|].
    intros H. by destruct H.
  - pose proof (read_only_queryById rt q db) as Hro.
    destruct (queryById rt q db) as [db' [?| |]]; simpl in *; by subst.
  - pose proof (read_only_query q db) as Hro.
    destruct (query q db) as [db' [?| |]]; simpl in *; by subst.
  - pose proof (read_only_graphQuery rt q f d db) as Hro.
    destruct (graphQuery rt q f d db) as [db' [?| |]]; simpl in *; by subst.
Qed.

(** ** [queryById] on stores the operations can build *)

Lemma parseQueryQualifier_id (l i : string) :
  Str.count ":" l = 0 → Str.count ":" i = 0 → Str.count "=" i = 0 →
  parseQueryQualifier (l +:+ ":" +:+ i) = Return (l, Some "id", Some i).
Proof.
  intros Hl Hi Hi'.
  pose proof (parseQueryQualifier_cases (l +:+ ":" +:+ i)) as H.
  assert (Hc : Str.count ":" (l +:+ ":" +:+ i) = 1).
  { rewrite !count_app. simpl. lia. }
  rewrite Hc in H. simpl in H.
  change (l +:+ String ":" i) with (l +:+ ":" +:+ i) in H.
  replace (Str.after ":" (l +:+ ":" +:+ i)) with i in H by (symmetry; by apply after_app).
  replace (Str.before ":" (l +:+ ":" +:+ i)) with l in H by (symmetry; by apply before_app).
  by rewrite Hi' in H.
Qed.

(** X17. The parts of the contract of [queryById] that hold of the code: the
    store is not changed; a parsed key other than ["id"] raises "Invalid
    query format"; with key ["id"], the call raises "No nodes ... found"
    when no stored node has the parsed label and id, and otherwise returns a
    stored node with that label and id. *)
Lemma queryById_on_reachable (rt : Runtime) (ops : list Op) (q : string) :
  let db := reachable rt ops in
  let stored l i h :=
    ∃ nd, heap db !! h = Some nd ∧ label nd = l ∧ properties nd !! "id" = Some i in
  (queryById rt q db).1 = db ∧
  (∀ l k v, parseQueryQualifier q = Return (l, k, v) → k ≠ Some "id" →
     (queryById rt q db).2 = Raise InvalidQueryFormat) ∧
  (∀ l i, parseQueryQualifier q = Return (l, Some "id", Some i) →
     (∀ h, ¬ stored l i h) → (queryById rt q db).2 = Raise NoNodesFound) ∧
  (∀ l i h0, parseQueryQualifier q = Return (l, Some "id", Some i) →
     stored l i h0 → ∃ h, (queryById rt q db).2 = Return h ∧ stored l i h).
Proof.
  intros db stored. destruct (reachable_store_inv rt ops) as [_ Hc]. fold db in Hc.
  rewrite queryById_unfold. simpl. unfold queryById_outcome.
  split_and!; [done| | |].
  - intros l k v -> Hk. by rewrite decide_True.
  - intros l i -> Hnone. rewrite decide_False by (intros Hk; by apply Hk).
    destruct (set_iter rt (idxset db l (Some "id") (Some i))) as [|x xs] eqn:Hi; [done|].
    exfalso. apply (Hnone x). apply (indexed_sound _ Hc).
    apply (elem_of_set_iter rt). rewrite Hi. apply list_elem_of_here.
  - intros l i h0 -> (nd0 & Hnd0 & Hl0 & Hi0).
    rewrite decide_False by (intros Hk; by apply Hk).
    assert (Hin : h0 ∈ idxset db l (Some "id") (Some i)).
    { rewrite <- Hl0. by apply (indexed_complete _ Hc). }
    destruct (set_iter rt (idxset db l (Some "id") (Some i))) as [|x xs] eqn:Hi.
    + apply set_iter_nil_inv in Hi. rewrite Hi in Hin. set_solver.
    + exists x. split; [done|]. apply (indexed_sound _ Hc).
      apply (elem_of_set_iter rt). rewrite Hi. apply list_elem_of_here.
Qed.

(** X18. The half of C1 that holds of the code: after [addNode(L, I)] returned,
    [queryById("L:I")] returns a node with label [L] and id [I] (for a label
    and an id without separators). *)
Lemma queryById_after_addNode (rt : Runtime) (ops : list Op) (L I : string) (db' : GraphDB) :
  addNode rt L I (reachable rt ops) = (db', Return tt) →
  Str.count ":" L = 0 → Str.count ":" I = 0 → Str.count "=" I = 0 →
  ∃ h nd, queryById rt (L +:+ ":" +:+ I) db' = (db', Return h) ∧
          heap db' !! h = Some nd ∧ label nd = L ∧ properties nd !! "id" = Some I.
Proof.
  intros Hrun HL HI HI'.
  destruct (addNode_cases rt L I _ (reachable_store_inv rt ops))
    as [Hf|(db2 & Hrun2 & [Hs Hc] & Hheap & Hnodes)]; [congruence|].
  rewrite Hrun2 in Hrun. injection Hrun as ->.
  rewrite queryById_unfold. unfold queryById_outcome.
  rewrite parseQueryQualifier_id by done. rewrite decide_False by (intros Hk; by apply Hk).
  assert (Hin : length (heap (reachable rt ops)) ∈ idxset db' L (Some "id") (Some I)).
  { apply (indexed_complete _ Hc _ (Node_init I L)); [|done].
    rewrite Hheap. by apply list_lookup_middle. }
  destruct (set_iter rt (idxset db' L (Some "id") (Some I))) as [|x xs] eqn:Hi.
  - apply set_iter_nil_inv in Hi. rewrite Hi in Hin. set_solver.
  - assert (Hx : x ∈ idxset db' L (Some "id") (Some I)).
    { apply (elem_of_set_iter rt). rewrite Hi. apply list_elem_of_here. }
    destruct (indexed_sound _ Hc _ _ _ _ Hx) as (nd & ? & ? & ?). eauto 10.
Qed.

(** ** The traversal *)

Section Traversal.

Context (rt : Runtime).

Lemma doesNodeMatchQuery_unfold node query db :
  doesNodeMatchQuery node query db = (db, matches_outcome db node query).
Proof.
  unfold doesNodeMatchQuery, matches_outcome, bind, lift.
  destruct (parseQueryClause query) as [[key value]|e|]; [|done..].
  unfold Node_getProperties, getNode, bind, get, node_matches. simpl.
  by destruct (properties (nodeAt (heap db) node) !! key).
Qed.

Lemma bfs_loop_unfold fuel query maxDepth q visited level result db :
  bfs_loop rt fuel query maxDepth q visited level result db =
    (db, bfs_outcome rt db fuel query maxDepth q visited level result).
Proof.
  revert q visited level result.
  induction fuel as [|fuel IH]; intros q visited level result; simpl; [done|].
  destruct (negb (Queue.isEmpty q) && (Z.of_nat level <=? maxDepth)%Z); [|done].
  destruct q as [|[node|] q']; unfold bind at 1, lift; simpl; [done| |].
  - unfold bind at 1.
    assert (Hinc : match query with
                   | Some query0 =>
                       if decide (level = 0) then ret true
                       else doesNodeMatchQuery node query0
                   | None => ret true
                   end db = (db, include_outcome db query level node)).
    { unfold include_outcome. destruct query as [query0|]; [|done].
      destruct (decide (level = 0)); [done|]. apply doesNodeMatchQuery_unfold. }
    rewrite Hinc. destruct (include_outcome db query level node) as [include| |]; [|done..].
    unfold bind at 1.
    assert (Happ : (if include
                    then bind (subscript (dict_get (pretty level) result))
                           (λ l, ret (dict_update (pretty level) (l ++ [node]) result))
                    else ret result) db
                   = (db, if include then append_level level node result
                          else Return result)).
    { destruct include; [|done]. unfold append_level, bind, subscript.
      by destruct (dict_get (pretty level) result). }
    rewrite Happ.
    destruct (if include then append_level level node result else Return result)
      as [result'| |]; [|done..].
    unfold bind at 1, Node_getConnections, getNode, bind, get. simpl. apply IH.
  - destruct (Queue.peek q'); [apply IH|done].
Qed.

Lemma bfs_unfold startNode query maxDepth db :
  bfs rt startNode query maxDepth db =
    (db, bfs_outcome rt db (bfs_fuel db startNode) query maxDepth
           [Some startNode; None] ∅ 0 [("0", [])]).
Proof. unfold bfs, bind, get. simpl. apply bfs_loop_unfold. Qed.

(** *** The loop over the connections of a node *)

Lemma visitChild_seen (q : Queue.t) (v : gset Handle) (c : Handle) :
  c ∈ v → visitChild (q, v) c = (q, v).
Proof. intros H. unfold visitChild. simpl. by rewrite decide_True. Qed.

Lemma visitChild_new (q : Queue.t) (v : gset Handle) (c : Handle) :
  c ∉ v → visitChild (q, v) c = (Queue.enqueue (Some c) q, {[c]} ∪ v).
Proof. intros H. unfold visitChild. simpl. by rewrite decide_False. Qed.

Lemma visitChild_fold (cs : list Handle) (q : Queue.t) (v : gset Handle) :
  ∃ news : list Handle,
    (foldl visitChild (q, v) cs).1 = q ++ (Some <$> news) ∧
    (foldl visitChild (q, v) cs).2 = list_to_set news ∪ v ∧
    NoDup news ∧ (∀ x, x ∈ news → (x ∉ v) ∧ x ∈ cs).
Proof.
  revert q v. induction cs as [|c cs IH]; intros q v; simpl.
  - exists []. simpl. split_and!; [by rewrite app_nil_r|set_solver|constructor|].
    intros x Hx. by apply elem_of_nil in Hx.
  - destruct (decide (c ∈ v)) as [Hin|Hnin];
      [rewrite visitChild_seen by done|rewrite visitChild_new by done].
    + destruct (IH q v) as (news & H1 & H2 & H3 & H4).
      exists news. split_and!; try done.
      intros x Hx. destruct (H4 x Hx). split; [done|]. by apply list_elem_of_further.
    + destruct (IH (Queue.enqueue (Some c) q) ({[c]} ∪ v)) as (news & H1 & H2 & H3 & H4).
      exists (c :: news). split_and!.
      * rewrite H1. unfold Queue.enqueue. by rewrite <- app_assoc.
      * rewrite H2. set_solver.
      * constructor; [|done]. intros Hc. apply H4 in Hc. set_solver.
      * intros x Hx. apply elem_of_cons in Hx as [->|Hx].
        -- split; [done|]. apply list_elem_of_here.
        -- destruct (H4 x Hx). split; [set_solver|]. by apply list_elem_of_further.
Qed.

Lemma qnodes_app (q1 q2 : Queue.t) : qnodes (q1 ++ q2) = qnodes q1 ++ qnodes q2.
Proof. apply omap_app. Qed.

Lemma qnodes_Some (l : list Handle) : qnodes (Some <$> l) = l.
Proof. unfold qnodes. induction l as [|x l IH]; simpl; [done|]. by f_equal. Qed.

Lemma size_difference_step (U W : gset Handle) (c : Handle) :
  c ∈ U → c ∉ W → size (U ∖ W) = S (size (U ∖ ({[c]} ∪ W))).
Proof.
  intros HU HW.
  assert (Heq : U ∖ W = {[c]} ∪ U ∖ ({[c]} ∪ W)).
  { apply set_eq. intros x. rewrite elem_of_union, !elem_of_difference, elem_of_union,
      elem_of_singleton. destruct (decide (x = c)); naive_solver. }
  rewrite Heq at 1. rewrite size_union by set_solver. by rewrite size_singleton.
Qed.

Lemma size_difference_news (U v : gset Handle) (news : list Handle) :
  NoDup news → (∀ x, x ∈ news → (x ∉ v) ∧ x ∈ U) →
  size (U ∖ v) = size (U ∖ (list_to_set news ∪ v)) + length news.
Proof.
  revert v. induction news as [|c news IH]; intros v Hnd Hin; simpl.
  - replace (∅ ∪ v) with v by set_solver. lia.
  - apply NoDup_cons in Hnd as [Hc Hnd].
    destruct (Hin c) as [Hcv HcU]; [apply list_elem_of_here|].
    rewrite (size_difference_step U v c) by done.
    rewrite (IH ({[c]} ∪ v)); [|done|].
    + replace ({[c]} ∪ list_to_set news ∪ v) with (list_to_set news ∪ ({[c]} ∪ v))
        by set_solver. lia.
    + intros x Hx. destruct (Hin x) as [? ?]; [by apply list_elem_of_further|].
      split; [|done]. intros [->%elem_of_singleton|?]%elem_of_union; done.
Qed.

(** *** Termination: the fuel of [bfs] is never used up *)

Lemma bfs_outcome_enough_fuel db U fuel query maxDepth q visited level result :
  (∀ h, connections (nodeAt (heap db) h) ⊆ U) →
  potential U q visited < fuel →
  bfs_outcome rt db fuel query maxDepth q visited level result ≠ OutOfFuel.
Proof.
  intros HU. revert q visited level result.
  induction fuel as [|fuel IH]; intros q visited level result Hpot; simpl; [lia|].
  destruct (negb (Queue.isEmpty q) && (Z.of_nat level <=? maxDepth)%Z); [|done].
  destruct q as [|[node|] q']; [done| |].
  - destruct (include_outcome db query level node) as [include| |] eqn:Hinc; [|done|].
    2:{ unfold include_outcome, matches_outcome in Hinc.
        destruct query as [qy|]; [|done]. destruct (decide (level = 0)); [done|].
        pose proof (parseQueryClause_cases qy) as Hc.
        destruct (Str.count "=" qy) as [|[|m]]; rewrite Hc in Hinc; done. }
    destruct (if include then append_level level node result else Return result)
      as [result'| |] eqn:Happ; [|done|].
    2:{ destruct include; [|done]. unfold append_level in Happ.
        by destruct (dict_get (pretty level) result). }
    cbv zeta. apply IH.
    destruct (visitChild_fold (set_iter rt (connections (nodeAt (heap db) node))) q'
                ({[node]} ∪ visited)) as (news & H1 & H2 & Hnd & Hnews).
    rewrite H1, H2. unfold potential in *. rewrite qnodes_app, qnodes_Some, length_app.
    assert (Hle : size (U ∖ ({[node]} ∪ visited)) ≤ size (U ∖ visited)).
    { apply subseteq_size. set_solver. }
    rewrite (size_difference_news U ({[node]} ∪ visited) news) in Hle; [|done|].
    + simpl in Hpot. assert (front_is_marker (q' ++ (Some <$> news)) ≤ 1).
      { destruct (q' ++ (Some <$> news)) as [|[?|] ?]; simpl; lia. }
      lia.
    + intros x Hx. destruct (Hnews x Hx) as [? Hxc]. split; [done|].
      apply elem_of_set_iter in Hxc. by apply (HU node).
  - destruct q' as [|[x|] q'']; simpl; [done| |done].
    apply IH. unfold potential in *. simpl in *.
    unfold Queue.enqueue. rewrite qnodes_app. simpl. rewrite length_app. simpl. lia.
Qed.

Lemma bfs_outcome_more_fuel db fuel query maxDepth q visited level result :
  bfs_outcome rt db fuel query maxDepth q visited level result ≠ OutOfFuel →
  bfs_outcome rt db (S fuel) query maxDepth q visited level result =
    bfs_outcome rt db fuel query maxDepth q visited level result.
Proof.
  revert q visited level result.
  induction fuel as [|fuel IH]; intros q visited level result; [done|].
  intros H. simpl in H. change (bfs_outcome rt db (S (S fuel)) query maxDepth q visited
                                  level result) with
    (if negb (Queue.isEmpty q) && (Z.of_nat level <=? maxDepth)%Z then
      match q with
      | [] => Raise QueueIsEmpty
      | None :: q' =>
          match Queue.peek q' with
          | None => Return result
          | Some _ =>
              bfs_outcome rt db (S fuel) query maxDepth (Queue.enqueue None q') visited
                (S level) (dict_update (pretty (S level)) [] result)
          end
      | Some node :: q' =>
          match include_outcome db query level node with
          | Return include =>
              match (if include : bool then append_level level node result
                     else Return result) with
              | Return result' =>
                  let st := foldl visitChild (q', {[node]} ∪ visited)
                              (set_iter rt (connections (nodeAt (heap db) node))) in
                  bfs_outcome rt db (S fuel) query maxDepth st.1 st.2 level result'
              | Raise e => Raise e
              | OutOfFuel => OutOfFuel
              end
          | Raise e => Raise e
          | OutOfFuel => OutOfFuel
          end
      end
    else Return result).
  simpl.
  destruct (negb (Queue.isEmpty q) && (Z.of_nat level <=? maxDepth)%Z); [|done].
  destruct q as [|[node|] q']; [done| |].
  - destruct (include_outcome db query level node) as [include| |]; [|done..].
    destruct (if include then append_level level node result else Return result)
      as [result'| |]; [|done..].
    by apply IH.
  - destruct (Queue.peek q'); [|done]. by apply IH.
Qed.

Lemma bfs_outcome_fuel_irrelevant db fuel fuel' query maxDepth q visited level result :
  bfs_outcome rt db fuel query maxDepth q visited level result ≠ OutOfFuel →
  fuel ≤ fuel' →
  bfs_outcome rt db fuel' query maxDepth q visited level result =
    bfs_outcome rt db fuel query maxDepth q visited level result.
Proof.
  intros H Hle. induction Hle as [|fuel' Hle IH]; [done|].
  rewrite bfs_outcome_more_fuel; [done|]. by rewrite IH.
Qed.

Lemma bfs_universe_closed db startNode h :
  connections (nodeAt (heap db) h) ⊆ bfs_universe db startNode.
Proof.
  unfold bfs_universe, nodeAt. destruct (heap db !! h) as [nd|] eqn:Hnd; simpl; [|set_solver].
  intros x Hx. apply elem_of_union. right. apply elem_of_union_list.
  exists (connections nd). split; [|done].
  apply list_elem_of_fmap. exists nd. split; [done|]. by apply list_elem_of_lookup_2 in Hnd.
Qed.

Lemma bfs_initial_potential db startNode :
  potential (bfs_universe db startNode) [Some startNode; None] ∅ < bfs_fuel db startNode.
Proof.
  unfold potential, bfs_fuel. simpl.
  replace (bfs_universe db startNode ∖ ∅) with (bfs_universe db startNode) by set_solver.
  lia.
Qed.

End Traversal.

(** ** Result dicts *)

Lemma dict_get_update_eq {V} (k : string) (v : V) (d : list (string * V)) :
  dict_get k (dict_update k v d) = Some v.
Proof.
  induction d as [|[k' v'] d IH]; simpl.
  - by rewrite decide_True.
  - destruct (decide (k' = k)); simpl; [by rewrite decide_True|by rewrite decide_False].
Qed.

Lemma dict_get_update_ne {V} (k k' : string) (v : V) (d : list (string * V)) :
  k ≠ k' → dict_get k' (dict_update k v d) = dict_get k' d.
Proof.
  intros Hne. induction d as [|[k0 v0] d IH]; simpl.
  - by rewrite decide_False.
  - destruct (decide (k0 = k)) as [->|]; simpl.
    + by rewrite !decide_False.
    + destruct (decide (k0 = k')); [done|apply IH].
Qed.

Lemma resnodes_update_nil (k : string) (d : Levels) :
  resnodes (dict_update k [] d) `sublist_of` resnodes d.
Proof.
  unfold resnodes. induction d as [|[k' v'] d IH]; simpl; [done|].
  destruct (decide (k' = k)); simpl.
  - by apply sublist_inserts_l.
  - by apply sublist_app.
Qed.

Lemma resnodes_append (k : string) (l : list Handle) (x : Handle) (d : Levels) :
  dict_get k d = Some l → resnodes (dict_update k (l ++ [x]) d) ≡ₚ x :: resnodes d.
Proof.
  unfold resnodes. induction d as [|[k' v'] d IH]; simpl; [done|].
  destruct (decide (k' = k)); simpl.
  - intros [= ->]. rewrite <- app_assoc. simpl.
    by rewrite <- Permutation_middle.
  - intros H. rewrite IH by done. by rewrite <- Permutation_middle.
Qed.

Section NoRevisit.

Context (rt : Runtime).

Lemma bfs_inv_initial startNode : bfs_inv [Some startNode; None] ∅ [("0", [])].
Proof.
  split_and!; simpl.
  - apply NoDup_singleton.
  - intros x Hx. by apply elem_of_nil in Hx.
  - right. eauto.
Qed.

Lemma bfs_inv_NoDup q visited result : bfs_inv q visited result → NoDup (resnodes result).
Proof. intros (H & _). by apply NoDup_app in H as (_ & _ & ?). Qed.

Lemma bfs_inv_marker q visited (level : nat) result :
  bfs_inv (None :: q) visited result →
  bfs_inv (Queue.enqueue None q) visited (dict_update (pretty level) [] result).
Proof.
  intros (H1 & H2 & H3). unfold Queue.enqueue.
  assert (Hq : qnodes (q ++ [None]) = qnodes (None :: q)).
  { rewrite qnodes_app. simpl. by rewrite app_nil_r. }
  pose proof (resnodes_update_nil (pretty level) result) as Hsub.
  split_and!.
  - rewrite Hq. eapply sublist_NoDup; [exact H1|]. by apply sublist_app.
  - intros x Hx. apply H2. by apply (sublist_subseteq _ _ Hsub).
  - rewrite Hq. destruct H3 as [H3|[Hnil Hx]]; [by left|right].
    split; [|done]. rewrite Hnil in Hsub. by apply sublist_nil_r in Hsub.
Qed.

Lemma bfs_inv_node db q node visited result result' (include : bool) :
  bfs_inv (Some node :: q) visited result →
  (result' = result ∨ resnodes result' ≡ₚ node :: resnodes result) →
  let st := foldl visitChild (q, {[node]} ∪ visited)
              (set_iter rt (connections (nodeAt (heap db) node))) in
  bfs_inv st.1 st.2 result'.
Proof.
  intros (H1 & H2 & H3) Hres st. subst st.
  destruct (visitChild_fold (set_iter rt (connections (nodeAt (heap db) node))) q
              ({[node]} ∪ visited)) as (news & Hq & Hv & Hnd & Hnews).
  rewrite Hq, Hv. unfold bfs_inv. rewrite qnodes_app, qnodes_Some.
  simpl in H1. apply NoDup_cons in H1 as [Hnode H1].
  apply NoDup_app in H1 as (Hq1 & Hdisj & Hr1).
  assert (Hqv : ∀ x, x ∈ qnodes q → x ∈ visited).
  { intros x Hx. destruct H3 as [H3|[_ [y Hy]]].
    - apply H3. simpl. by apply list_elem_of_further.
    - simpl in Hy. injection Hy as _ Hy. rewrite Hy in Hx. by apply elem_of_nil in Hx. }
  assert (Hres' : ∀ x, x ∈ resnodes result' → x = node ∨ x ∈ resnodes result).
  { intros x Hx. destruct Hres as [->|Hp]; [by right|].
    rewrite Hp in Hx. by apply elem_of_cons in Hx. }
  assert (Hnd' : NoDup (resnodes result')).
  { destruct Hres as [->|Hp]; [done|]. rewrite Hp. constructor; [|done].
    intros Hin. apply Hnode. apply elem_of_app. by right. }
  split_and!.
  - apply NoDup_app. split_and!.
    + apply NoDup_app. split_and!; [done| |done].
      intros x Hx Hx'. destruct (Hnews x Hx') as [Hnv _]. apply Hnv.
      apply elem_of_union. right. by apply Hqv.
    + intros x [Hx|Hx]%elem_of_app Hx'.
      * destruct (Hres' x Hx') as [->|Hr].
        -- apply Hnode. apply elem_of_app. by left.
        -- by apply (Hdisj x).
      * destruct (Hnews x Hx) as [Hnv _]. apply Hnv.
        destruct (Hres' x Hx') as [->|Hr]; [set_solver|].
        apply elem_of_union. right. by apply H2.
    + done.
  - intros x Hx. apply elem_of_union. right.
    destruct (Hres' x Hx) as [->|Hr]; [set_solver|].
    apply elem_of_union. right. by apply H2.
  - left. intros x [Hx|Hx]%elem_of_app.
    + apply elem_of_union. right. apply elem_of_union. right. by apply Hqv.
    + apply elem_of_union. left. by apply elem_of_list_to_set.
Qed.

Lemma bfs_outcome_NoDup db fuel query maxDepth q visited level result levels :
  bfs_inv q visited result →
  bfs_outcome rt db fuel query maxDepth q visited level result = Return levels →
  NoDup (resnodes levels).
Proof.
  revert q visited level result.
  induction fuel as [|fuel IH]; intros q visited level result Hinv; simpl; [done|].
  destruct (negb (Queue.isEmpty q) && (Z.of_nat level <=? maxDepth)%Z).
  2:{ intros [= <-]. by eapply bfs_inv_NoDup. }
  destruct q as [|[node|] q']; [done| |].
  - destruct (include_outcome db query level node) as [include| |]; [|done..].
    destruct (if include then append_level level node result else Return result)
      as [result'| |] eqn:Happ; [|done..].
    apply IH. apply (bfs_inv_node db q' node visited result result' include Hinv).
    destruct include; [|left; congruence].
    unfold append_level in Happ.
    destruct (dict_get (pretty level) result) as [l|] eqn:Hl; [|done].
    injection Happ as <-. right. by apply resnodes_append.
  - destruct (Queue.peek q').
    + apply IH. by apply bfs_inv_marker.
    + intros [= <-]. by eapply bfs_inv_NoDup.
Qed.

(** C8. For every store, start node, filter and depth bound — cycles or
    not, and whether or not the bound is negative — [bfs] terminates: the
    fuel the model gives the loop is never used up, and more fuel changes
    nothing.  The call returns or raises (a filter with several [=]
    raises), and in a returned result no node occurs twice, within a level
    or across levels.  [graphQuery] terminates as well. *)
Theorem bfs_terminates_without_revisit (db : GraphDB) (startNode : Handle)
    (filter : option string) (maxDepth : Z) :
  ∃ o : Outcome Levels,
    bfs rt startNode filter maxDepth db = (db, o) ∧
    o ≠ OutOfFuel ∧
    (∀ fuel, bfs_fuel db startNode ≤ fuel →
       bfs_loop rt fuel filter maxDepth [Some startNode; None] ∅ 0 [("0", [])] db
         = (db, o)) ∧
    (∀ levels, o = Return levels → NoDup (concat (levels.*2))) ∧
    (∀ q, (graphQuery rt q filter maxDepth db).2 ≠ OutOfFuel).
Proof.
  eexists. split; [apply bfs_unfold|].
  assert (Hfuel : bfs_outcome rt db (bfs_fuel db startNode) filter maxDepth
                    [Some startNode; None] ∅ 0 [("0", [])] ≠ OutOfFuel).
  { apply (bfs_outcome_enough_fuel rt db (bfs_universe db startNode)).
    - intros h. apply bfs_universe_closed.
    - apply bfs_initial_potential. }
  split_and!; [done| | |].
  - intros fuel Hle. rewrite bfs_loop_unfold. f_equal.
    by apply bfs_outcome_fuel_irrelevant.
  - intros levels Hl. eapply bfs_outcome_NoDup; [|exact Hl]. apply bfs_inv_initial.
  - intros q. unfold graphQuery, bind. rewrite queryById_unfold.
    pose proof (queryById_outcome_not_OutOfFuel rt db q).
    destruct (queryById_outcome rt db q) as [h| |]; [|done..].
    rewrite bfs_unfold. simpl.
    apply (bfs_outcome_enough_fuel rt db (bfs_universe db h)).
    + intros h'. apply bfs_universe_closed.
    + apply bfs_initial_potential.
Qed.

End NoRevisit.

(** ** Filtering the levels *)

Lemma pretty_nat_zero (n : nat) : pretty n = "0" ↔ n = 0.
Proof.
  split; [|by intros ->].
  intros H. apply (inj (pretty : nat → string)). by rewrite H.
Qed.

Lemma dict_update_id {V} (k : string) (v : V) (d : list (string * V)) :
  dict_get k d = Some v → dict_update k v d = d.
Proof.
  induction d as [|[k' v'] d IH]; simpl; [done|].
  destruct (decide (k' = k)) as [->|].
  - by intros [= ->].
  - intros H. by rewrite IH.
Qed.

Section Filter.

Context (rt : Runtime) (db : GraphDB) (key value : string).

Lemma dict_get_filter_levels (k : string) (d : Levels) :
  dict_get k (filter_levels db key value d) = keep_level db key value k <$> dict_get k d.
Proof.
  unfold filter_levels. induction d as [|[k' l'] d IH]; simpl; [done|].
  destruct (decide (k' = k)) as [->|]; [done|apply IH].
Qed.

Lemma filter_levels_update (k : string) (l : list Handle) (d : Levels) :
  filter_levels db key value (dict_update k l d) =
    dict_update k (keep_level db key value k l) (filter_levels db key value d).
Proof.
  unfold filter_levels. induction d as [|[k' l'] d IH]; simpl; [done|].
  destruct (decide (k' = k)) as [->|]; simpl; [done|]. f_equal. apply IH.
Qed.

(** With a clause that parses, the traversal with the filter is the
    traversal without it, each level but level 0 filtered. *)
Lemma bfs_filter_simulation fuel f maxDepth q visited level ru :
  parseQueryClause f = Return (key, value) →
  is_Some (dict_get (pretty level) ru) →
  bfs_outcome rt db fuel (Some f) maxDepth q visited level (filter_levels db key value ru) =
    match bfs_outcome rt db fuel None maxDepth q visited level ru with
    | Return levels => Return (filter_levels db key value levels)
    | Raise e => Raise e
    | OutOfFuel => OutOfFuel
    end.
Proof.
  intros Hparse. revert q visited level ru.
  induction fuel as [|fuel IH]; intros q visited level ru [l Hl]; simpl; [done|].
  destruct (negb (Queue.isEmpty q) && (Z.of_nat level <=? maxDepth)%Z); [|done].
  destruct q as [|[node|] q']; [done| |].
  - unfold matches_outcome. rewrite Hparse.
    unfold append_level at 2. rewrite Hl.
    assert (Hstep : (if decide (level = 0) then Return true
                     else Return (node_matches db key value node)) =
                    Return (if decide (level = 0) then true
                            else node_matches db key value node)).
    { by destruct (decide (level = 0)). }
    rewrite Hstep. clear Hstep.
    assert (Happ : (if (if decide (level = 0) then true
                        else node_matches db key value node)
                    then append_level level node (filter_levels db key value ru)
                    else Return (filter_levels db key value ru)) =
                   Return (filter_levels db key value
                             (dict_update (pretty level) (l ++ [node]) ru))).
    { rewrite filter_levels_update. unfold append_level.
      rewrite dict_get_filter_levels, Hl. simpl. unfold keep_level.
      destruct (decide (level = 0)) as [->|Hne].
      - rewrite decide_True by done. done.
      - assert (Hp : pretty level ≠ "0") by (by rewrite pretty_nat_zero).
        repeat (rewrite (decide_False (P := pretty level = "0")) by done).
        rewrite filter_app.
        destruct (node_matches db key value node) eqn:Hm.
        + rewrite filter_cons_True by (by apply Is_true_true_2). by rewrite filter_nil.
        + rewrite filter_cons_False by (by apply Is_true_false_2). rewrite filter_nil, app_nil_r.
          f_equal. symmetry. apply dict_update_id.
          rewrite dict_get_filter_levels, Hl. simpl. unfold keep_level.
          by rewrite decide_False. }
    rewrite Happ. apply IH. rewrite dict_get_update_eq. eauto.
  - destruct (Queue.peek q'); [|done].
    rewrite <- IH by (rewrite dict_get_update_eq; eauto).
    f_equal. rewrite filter_levels_update. unfold keep_level. by destruct (decide _).
Qed.

Lemma bfs_unfiltered_returns fuel maxDepth q visited level ru e :
  is_Some (dict_get (pretty level) ru) →
  bfs_outcome rt db fuel None maxDepth q visited level ru ≠ Raise e.
Proof.
  revert q visited level ru.
  induction fuel as [|fuel IH]; intros q visited level ru [l Hl]; simpl; [done|].
  destruct (negb (Queue.isEmpty q) && (Z.of_nat level <=? maxDepth)%Z) eqn:Hc; [|done].
  destruct q as [|[node|] q']; [done| |].
  - unfold append_level. rewrite Hl. apply IH. rewrite dict_get_update_eq. eauto.
  - destruct (Queue.peek q'); [|done]. apply IH. rewrite dict_get_update_eq. eauto.
Qed.

Lemma bfs_level0_kept startNode fuel maxDepth q visited level ru levels :
  dict_get "0" ru = Some [startNode] →
  (level = 0 → ∃ q', q = None :: q') →
  is_Some (dict_get (pretty level) ru) →
  bfs_outcome rt db fuel None maxDepth q visited level ru = Return levels →
  dict_get "0" levels = Some [startNode].
Proof.
  revert q visited level ru.
  induction fuel as [|fuel IH]; intros q visited level ru H0 Hq [l Hl]; simpl; [done|].
  destruct (negb (Queue.isEmpty q) && (Z.of_nat level <=? maxDepth)%Z); [|congruence].
  destruct q as [|[node|] q']; [done| |].
  - assert (Hne : level ≠ 0).
    { intros Hz. destruct (Hq Hz) as [? ?]. done. }
    unfold append_level. rewrite Hl. apply IH.
    + rewrite dict_get_update_ne; [done|]. by rewrite pretty_nat_zero.
    + done.
    + rewrite dict_get_update_eq. eauto.
  - destruct (Queue.peek q'); [|congruence]. apply IH.
    + rewrite dict_get_update_ne; [done|]. by rewrite pretty_nat_zero.
    + done.
    + rewrite dict_get_update_eq. eauto.
Qed.

End Filter.

(** With a negative depth bound the loop of [bfs] is not entered. *)
Lemma bfs_negative_depth (rt : Runtime) (db : GraphDB) (startNode : Handle)
    (filter : option string) (maxDepth : Z) :
  (maxDepth < 0)%Z →
  bfs rt startNode filter maxDepth db = (db, Return [("0", [])]).
Proof.
  intros Hd. rewrite bfs_unfold. f_equal. unfold bfs_fuel.
  replace (2 * size (bfs_universe db startNode) + 3)
    with (S (2 * size (bfs_universe db startNode) + 2)) by lia.
  cbn [bfs_outcome].
  replace (Z.of_nat 0 <=? maxDepth)%Z with false
    by (symmetry; apply Z.leb_gt; simpl; lia).
  by rewrite andb_false_r.
Qed.

(** C7, as amended.  For a filter clause that parses to (key, value).  With
    a depth bound that is not negative: the traversal without filter returns
    some levels, the traversal with the filter returns the same levels with
    every level but level 0 reduced to the nodes whose property [key] is
    [value] (a node without the property does not match), and level 0 is
    exactly the start node, whatever its properties.  With a negative depth
    bound: the loop is not entered, and the result of [bfs] and of
    [graphQuery], with the filter or without, is level 0 alone, empty. *)
Theorem bfs_filter_levels (rt : Runtime) (db : GraphDB) (startNode : Handle)
    (f key value : string) (maxDepth : Z) :
  parseQueryClause f = Return (key, value) →
  ((0 ≤ maxDepth)%Z →
   ∃ levels : Levels,
     bfs rt startNode None maxDepth db = (db, Return levels) ∧
     bfs rt startNode (Some f) maxDepth db =
       (db, Return (filter_levels db key value levels)) ∧
     dict_get "0" levels = Some [startNode] ∧
     dict_get "0" (filter_levels db key value levels) = Some [startNode] ∧
     (∀ k l, k ≠ "0" → dict_get k levels = Some l →
        dict_get k (filter_levels db key value levels) =
          Some (filter (λ x, node_matches db key value x) l)) ∧
     (∀ q, queryById rt q db = (db, Return startNode) →
        graphQuery rt q (Some f) maxDepth db =
          (db, Return (filter_levels db key value levels)))) ∧
  ((maxDepth < 0)%Z →
   bfs rt startNode None maxDepth db = (db, Return [("0", [])]) ∧
   bfs rt startNode (Some f) maxDepth db = (db, Return [("0", [])]) ∧
   (∀ q, queryById rt q db = (db, Return startNode) →
      graphQuery rt q (Some f) maxDepth db = (db, Return [("0", [])]) ∧
      graphQuery rt q None maxDepth db = (db, Return [("0", [])]))).
Proof.
  intros Hparse. split; [intros Hdepth|].
  2:{ intros Hneg. split_and!; [by apply bfs_negative_depth..|].
      intros q Hq. unfold graphQuery, bind. rewrite Hq.
      split; by apply bfs_negative_depth. }
  assert (Hinit : is_Some (dict_get (pretty 0) [("0", @nil Handle)])) by (simpl; eauto).
  pose proof (bfs_filter_simulation rt db key value (bfs_fuel db startNode) f maxDepth
                [Some startNode; None] ∅ 0 [("0", [])] Hparse Hinit) as Hsim.
  destruct (bfs_outcome rt db (bfs_fuel db startNode) None maxDepth
              [Some startNode; None] ∅ 0 [("0", [])]) as [levels|e|] eqn:Hu.
  - assert (H0 : dict_get "0" levels = Some [startNode]).
    { revert Hu. unfold bfs_fuel.
      replace (2 * size (bfs_universe db startNode) + 3)
        with (S (2 * size (bfs_universe db startNode) + 2)) by lia.
      simpl. replace (Z.of_nat 0 <=? maxDepth)%Z with true
        by (symmetry; apply Z.leb_le; simpl; lia).
      destruct (visitChild_fold (set_iter rt (connections (nodeAt (heap db) startNode)))
                  [None] ({[startNode]} ∪ ∅)) as (news & Hq & _).
      apply bfs_level0_kept.
      - reflexivity.
      - intros _. rewrite Hq. simpl. eauto.
      - eexists. reflexivity. }
    assert (Hf : bfs rt startNode (Some f) maxDepth db =
                 (db, Return (filter_levels db key value levels))).
    { rewrite bfs_unfold. f_equal. exact Hsim. }
    exists levels. split_and!.
    + rewrite bfs_unfold. by rewrite Hu.
    + done.
    + done.
    + rewrite dict_get_filter_levels, H0. reflexivity.
    + intros k l Hk Hl. rewrite dict_get_filter_levels, Hl. simpl.
      unfold keep_level. by rewrite decide_False.
    + intros q Hq. unfold graphQuery, bind. by rewrite Hq.
  - exfalso. by eapply (bfs_unfiltered_returns rt db); [|exact Hu].
  - exfalso. revert Hu. apply (bfs_outcome_enough_fuel rt db (bfs_universe db startNode)).
    + intros h. apply bfs_universe_closed.
    + apply bfs_initial_potential.
Qed.

(** ** The code on concrete stores *)

(** The traversal depends on the runtime only through the order in which the
    connection sets of the store are iterated. *)
Lemma bfs_outcome_ext (rt rt' : Runtime) (db : GraphDB) fuel query maxDepth q visited
    level result :
  (∀ h, set_iter rt (connections (nodeAt (heap db) h)) =
        set_iter rt' (connections (nodeAt (heap db) h))) →
  bfs_outcome rt db fuel query maxDepth q visited level result =
    bfs_outcome rt' db fuel query maxDepth q visited level result.
Proof.
  intros Hext. revert q visited level result.
  induction fuel as [|fuel IH]; intros q visited level result; simpl; [done|].
  destruct (negb (Queue.isEmpty q) && (Z.of_nat level <=? maxDepth)%Z); [|done].
  destruct q as [|[node|] q']; [done| |].
  - destruct (include_outcome db query level node) as [include| |]; [|done..].
    destruct (if include then append_level level node result else Return result)
      as [result'| |]; [|done..].
    rewrite Hext. apply IH.
  - destruct (Queue.peek q'); [apply IH|done].
Qed.

Lemma permute_pair {A} (code : nat) (x y : A) :
  permute code [x; y] = [x; y] ∨ permute code [x; y] = [y; x].
Proof.
  change (permute code [x; y])
    with (insert_at (code mod 2) x (insert_at (code / 2 mod 1) y [])).
  rewrite Nat.mod_1_r.
  assert (Hm : code mod 2 < 2) by (apply Nat.mod_upper_bound; lia).
  destruct (code mod 2) as [|[|m]]; [by left|by right|lia].
Qed.

Lemma permute_singleton {A} (code : nat) (x : A) : permute code [x] = [x].
Proof.
  change (permute code [x]) with (insert_at (code mod 1) x []).
  by rewrite Nat.mod_1_r.
Qed.

(** The chain store does not depend on the iteration order of sets, and
    every runtime iterates its connection sets as [cpython0] or as
    [cpython1] does. *)
Lemma chain_store (order : list Handle → nat) :
  reachable (cpython order) chain_ops = reachable cpython0 chain_ops.
Proof. vm_compute. reflexivity. Qed.

Lemma chain_orders (order : list Handle → nat) :
  let db := reachable cpython0 chain_ops in
  (∀ h, set_iter (cpython order) (connections (nodeAt (heap db) h)) =
        set_iter cpython0 (connections (nodeAt (heap db) h))) ∨
  (∀ h, set_iter (cpython order) (connections (nodeAt (heap db) h)) =
        set_iter cpython1 (connections (nodeAt (heap db) h))).
Proof.
  intros db.
  assert (H0 : elements (connections (nodeAt (heap db) 0)) = [1]) by (vm_compute; reflexivity).
  assert (H1 : elements (connections (nodeAt (heap db) 1)) = [2; 0])
    by (vm_compute; reflexivity).
  assert (H2 : elements (connections (nodeAt (heap db) 2)) = [1]) by (vm_compute; reflexivity).
  assert (H3 : ∀ h, elements (connections (nodeAt (heap db) (S (S (S h))))) = []).
  { intros h. vm_compute. reflexivity. }
  destruct (permute_pair (order [2; 0]) 2 0) as [Hp|Hp]; [left|right];
    intros [|[|[|h]]]; unfold set_iter; rewrite ?H0, ?H1, ?H2, ?H3; simpl set_order;
    rewrite ?permute_singleton, ?Hp; reflexivity.
Qed.

Lemma chain_graphQuery (order : list Handle → nat) (maxDepth : Z) :
  let db := reachable cpython0 chain_ops in
  (graphQuery (cpython order) "Person:A" None maxDepth db).2 =
    (graphQuery cpython0 "Person:A" None maxDepth db).2 ∨
  (graphQuery (cpython order) "Person:A" None maxDepth db).2 =
    (graphQuery cpython1 "Person:A" None maxDepth db).2.
Proof.
  intros db. unfold graphQuery, bind. rewrite !queryById_unfold.
  assert (Hq : ∀ rt, queryById_outcome rt db "Person:A" = Return 0).
  { intros rt. vm_compute. reflexivity. }
  rewrite !Hq, !bfs_unfold. cbv beta iota delta [snd].
  destruct (chain_orders order) as [H|H]; [left|right]; by apply bfs_outcome_ext.
Qed.

(** C1 (the code at the failing input).  Whatever the iteration order of
    sets, a second [addNode("Person", "eljo")] returns instead of raising:
    the label formatted with the id as format specifier is a [ValueError],
    which the duplicate check swallows.  The store then holds two nodes
    with label Person and id eljo, both in the id index set. *)
Theorem addNode_twice_returns (order : list Handle → nat) :
  let rt := cpython order in
  let db1 := reachable rt [OpAddNode "Person" "eljo"] in
  let r := addNode rt "Person" "eljo" db1 in
  str_format rt "Person" "eljo" = None ∧
  (addNode rt "Person" "eljo" GraphDB_init).2 = Return tt ∧
  r.2 = Return tt ∧
  r.1 = reachable cpython0 twice_ops ∧
  nodes r.1 = {[0; 1]} ∧
  label <$> heap r.1 = ["Person"; "Person"] ∧
  (λ n, properties n !! "id") <$> heap r.1 = [Some "eljo"; Some "eljo"] ∧
  idxset r.1 "Person" (Some "id") (Some "eljo") = {[0; 1]}.
Proof. vm_compute. repeat split; reflexivity. Qed.

(** C3 (the code at the failing input).  On the chain A–B–C, whatever the
    iteration order of sets, [graphQuery] from A without filter returns
    [{'0': [A], '1': [B], '2': [C]}] for depth 2, and for depth 1 it returns
    [{'0': [A], '1': [B], '2': []}]: C appears nowhere, but the key of
    level 2 is present, with an empty list. *)
Theorem chain_graphQuery_levels (order : list Handle → nat) :
  let rt := cpython order in
  let db := reachable rt chain_ops in
  (queryById rt "Person:A" db).2 = Return 0 ∧
  (queryById rt "Person:B" db).2 = Return 1 ∧
  (queryById rt "Person:C" db).2 = Return 2 ∧
  (graphQuery rt "Person:A" None 2 db).2 = Return [("0", [0]); ("1", [1]); ("2", [2])] ∧
  (graphQuery rt "Person:A" None 1 db).2 = Return [("0", [0]); ("1", [1]); ("2", [])].
Proof.
  intros rt db. subst rt db. rewrite chain_store.
  split_and!.
  - vm_compute. reflexivity.
  - vm_compute. reflexivity.
  - vm_compute. reflexivity.
  - destruct (chain_graphQuery order 2) as [-> | ->]; vm_compute; reflexivity.
  - destruct (chain_graphQuery order 1) as [-> | ->]; vm_compute; reflexivity.
Qed.

(** C4 (the code at the failing input).  After the same node was added
    twice, the id index set of (Person, eljo) holds two nodes, and which of
    them [queryById("Person:eljo")] returns depends on the order in which
    the runtime iterates that set. *)
Theorem queryById_after_duplicate :
  let db := reachable cpython0 twice_ops in
  idxset db "Person" (Some "id") (Some "eljo") = {[0; 1]} ∧
  (queryById cpython0 "Person:eljo" db).2 = Return 1 ∧
  (queryById cpython1 "Person:eljo" db).2 = Return 0.
Proof. vm_compute. repeat split; reflexivity. Qed.

(** C2 (counterexample).  A value may hold the separator [:].  After
    [addOrUpdateNodeProperty("Person:eljo", "time", "10:30")] the node has
    the property and is in the index set of (Person, time, 10:30), yet
    [query("Person:time=10:30")] does not contain it: it raises "Invalid
    Query". *)
Lemma query_misses_indexed_value :
  let db := reachable cpython0 clock_ops in
  heap db !! 0 = Some (mkNode "Person" (<["time" := "10:30"]> {["id" := "eljo"]}) ∅) ∧
  idxset db "Person" (Some "time") (Some "10:30") = {[0]} ∧
  (query (Some "Person:time=10:30") db).2 = Raise InvalidQuery.
Proof. vm_compute. repeat split; reflexivity. Qed.

(** C7 (counterexample).  With the depth bound -1 the loop of [bfs] is never
    entered: the result of [graphQuery] has level 0, and the start node is
    not in it. *)
Lemma graphQuery_negative_depth_omits_start :
  (queryById cpython0 "Person:eljo" (reachable cpython0 pair_ops)).2 = Return 0 ∧
  (graphQuery cpython0 "Person:eljo" (Some "gender=Female") (-1)
     (reachable cpython0 pair_ops)).2 = Return [("0", [])].
Proof. vm_compute. split; reflexivity. Qed.

(** ** Witnesses *)

Lemma bfs_filter_levels_witness :
  parseQueryClause "gender=Female" = Return ("gender", "Female") ∧
  (0 ≤ 2)%Z ∧ (-1 < 0)%Z ∧
  queryById cpython0 "Person:eljo" trio_db = (trio_db, Return 0) ∧
  graphQuery cpython0 "Person:eljo" None 2 trio_db =
    (trio_db, Return [("0", [0]); ("1", [1]); ("2", [2])]) ∧
  graphQuery cpython0 "Person:eljo" (Some "gender=Female") 2 trio_db =
    (trio_db, Return [("0", [0]); ("1", [1]); ("2", [])]) ∧
  (∃ levels : Levels,
     bfs cpython0 0 None 2 trio_db = (trio_db, Return levels) ∧
     bfs cpython0 0 (Some "gender=Female") 2 trio_db =
       (trio_db, Return (filter_levels trio_db "gender" "Female" levels)) ∧
     dict_get "0" levels = Some [0] ∧
     dict_get "0" (filter_levels trio_db "gender" "Female" levels) = Some [0] ∧
     (∀ k l, k ≠ "0" → dict_get k levels = Some l →
        dict_get k (filter_levels trio_db "gender" "Female" levels) =
          Some (filter (λ x, node_matches trio_db "gender" "Female" x) l)) ∧
     (∀ q, queryById cpython0 q trio_db = (trio_db, Return 0) →
        graphQuery cpython0 q (Some "gender=Female") 2 trio_db =
          (trio_db, Return (filter_levels trio_db "gender" "Female" levels)))) ∧
  (bfs cpython0 0 None (-1) trio_db = (trio_db, Return [("0", [])]) ∧
   bfs cpython0 0 (Some "gender=Female") (-1) trio_db = (trio_db, Return [("0", [])]) ∧
   (∀ q, queryById cpython0 q trio_db = (trio_db, Return 0) →
      graphQuery cpython0 q (Some "gender=Female") (-1) trio_db =
        (trio_db, Return [("0", [])]) ∧
      graphQuery cpython0 q None (-1) trio_db = (trio_db, Return [("0", [])]))).
Proof.
  split; [reflexivity|]. split; [lia|]. split; [lia|].
  split; [vm_compute; reflexivity|].
  split; [vm_compute; reflexivity|].
  split; [vm_compute; reflexivity|].
  split.
  - apply (bfs_filter_levels cpython0 trio_db 0 "gender=Female" "gender" "Female" 2);
      [reflexivity|lia].
  - apply (bfs_filter_levels cpython0 trio_db 0 "gender=Female" "gender" "Female" (-1));
      [reflexivity|lia].
Defined.

Lemma index_agrees_with_properties_witness :
  Str.count ":" "Person" = 0 ∧ Str.count ":" "gender" = 0 ∧ Str.count ":" "Female" = 0 ∧
  Str.count "=" "gender" = 0 ∧ Str.count "=" "Female" = 0 ∧
  heap (reachable cpython0 trio_ops) !! 1 =
    Some (mkNode "Person" (<["gender" := "Female"]> {["id" := "norah"]}) {[0; 2]}) ∧
  1 ∈ nodes (reachable cpython0 trio_ops) ∧
  1 ∈ idxset (reachable cpython0 trio_ops) "Person" (Some "gender") (Some "Female") ∧
  query (Some ("Person" +:+ ":" +:+ "gender" +:+ "=" +:+ "Female"))
      (reachable cpython0 trio_ops) =
    (reachable cpython0 trio_ops,
     Return (idxset (reachable cpython0 trio_ops) "Person" (Some "gender") (Some "Female"))).
Proof.
  do 5 (split; [reflexivity|]).
  assert (Hnd : heap (reachable cpython0 trio_ops) !! 1 =
            Some (mkNode "Person" (<["gender" := "Female"]> {["id" := "norah"]}) {[0; 2]}))
    by (vm_compute; reflexivity).
  assert (Hin : 1 ∈ nodes (reachable cpython0 trio_ops)).
  { apply (bool_decide_unpack (1 ∈ nodes (reachable cpython0 trio_ops))).
    vm_compute. exact I. }
  split; [exact Hnd|]. split; [exact Hin|]. split.
  - apply (proj1 (index_agrees_with_properties cpython0 trio_ops) 1
             (mkNode "Person" (<["gender" := "Female"]> {["id" := "norah"]}) {[0; 2]})
             "gender" "Female" Hin Hnd).
    reflexivity.
  - apply (proj2 (proj2 (index_agrees_with_properties cpython0 trio_ops))
             "Person" "gender" "Female"); reflexivity.
Defined.

Lemma connect_symmetric_idempotent_witness :
  connect cpython0 "Person:eljo" "Person:norah" pair_db =
    ((connect cpython0 "Person:eljo" "Person:norah" pair_db).1,
     Return tt) ∧
  ∃ a b,
    queryById cpython0 "Person:eljo" pair_db =
      (pair_db, Return a) ∧
    queryById cpython0 "Person:norah" pair_db =
      (pair_db, Return b) ∧
    a ≠ b ∧ a ∈ nodes pair_db ∧
    b ∈ nodes pair_db ∧
    b ∈ connections
          (nodeAt (heap (connect cpython0 "Person:eljo" "Person:norah"
                           pair_db).1) a) ∧
    a ∈ connections
          (nodeAt (heap (connect cpython0 "Person:eljo" "Person:norah"
                           pair_db).1) b) ∧
    connect cpython0 "Person:eljo" "Person:norah"
      (connect cpython0 "Person:eljo" "Person:norah" pair_db).1 =
      ((connect cpython0 "Person:eljo" "Person:norah" pair_db).1,
       Return tt) ∧
    connect cpython0 "Person:norah" "Person:eljo"
      (connect cpython0 "Person:eljo" "Person:norah" pair_db).1 =
      ((connect cpython0 "Person:eljo" "Person:norah" pair_db).1,
       Return tt).
Proof.
  split; [vm_compute; reflexivity|].
  apply (connect_symmetric_idempotent cpython0 pair_ops "Person:eljo" "Person:norah").
  vm_compute. reflexivity.
Defined.

Lemma failed_call_leaves_store_unchanged_witness :
  ¬ is_Return (exec cpython0 (OpConnect "Person:eljo" "Person:eljo")
                 pair_db).2 ∧
  (exec cpython0 (OpConnect "Person:eljo" "Person:eljo") pair_db).1 =
    pair_db.
Proof.
  split; [vm_compute; tauto|].
  apply (failed_call_leaves_store_unchanged cpython0 pair_ops
           (OpConnect "Person:eljo" "Person:eljo")).
  vm_compute. tauto.
Defined.

(** * Further properties of the store *)

Lemma bind_ret_fst {A B} (m : M A) (f : A → B) (db : GraphDB) :
  (bind m (λ x, ret (f x)) db).1 = (m db).1.
Proof. unfold bind, ret. by destruct (m db) as [db' [a|e|]]. Qed.

Lemma exec_fst (rt : Runtime) (op : Op) (db : GraphDB) :
  (exec rt op db).1 =
    match op with
    | OpAddNode l i => (addNode rt l i db).1
    | OpSetProperty q n v => (addOrUpdateNodeProperty rt q n v db).1
    | OpConnect q1 q2 => (connect rt q1 q2 db).1
    | _ => db
    end.
Proof.
  destruct op as [l i|q n v|q1 q2|q|q|q f d]; simpl; rewrite bind_ret_fst; try done.
  - apply read_only_queryById.
  - apply read_only_query.
  - apply read_only_graphQuery.
Qed.

Lemma node_kept_refl (nd : Node) : node_kept nd nd.
Proof. by split_and!. Qed.

Lemma node_kept_trans (n1 n2 n3 : Node) : node_kept n1 n2 → node_kept n2 n3 → node_kept n1 n3.
Proof.
  intros (H1 & H2 & H3) (H1' & H2' & H3').
  split_and!; [congruence|congruence|set_solver].
Qed.

Lemma exec_step (rt : Runtime) (op : Op) (db : GraphDB) :
  store_inv db →
  nodes db ⊆ nodes (exec rt op db).1 ∧
  ∀ h nd, heap db !! h = Some nd →
    ∃ nd', heap (exec rt op db).1 !! h = Some nd' ∧ node_kept nd nd'.
Proof.
  intros Hinv. rewrite exec_fst.
  assert (Hsame : nodes db ⊆ nodes db ∧
            ∀ h nd, heap db !! h = Some nd → ∃ nd', heap db !! h = Some nd' ∧ node_kept nd nd').
  { split; [done|]. intros h nd Hnd. exists nd. split; [done|apply node_kept_refl]. }
  destruct op as [l i|q n v|q1 q2|q|q|q f d]; try done.
  - destruct (addNode_cases rt l i db Hinv) as [->|(db' & -> & _ & Hh & Hn)]; [done|].
    simpl. split; [rewrite Hn; set_solver|].
    intros h nd Hnd. exists nd. split; [|apply node_kept_refl].
    rewrite Hh. by apply lookup_app_l_Some.
  - destruct (addOrUpdateNodeProperty_cases rt q n v db Hinv)
      as [[e ->]|(db' & h0 & nd0 & -> & _ & _ & Hnd0 & Hne & Hh & Hn)]; [done|].
    simpl. split; [by rewrite Hn|].
    intros h nd Hnd. rewrite Hh. destruct (decide (h = h0)) as [->|Hneq].
    + assert (nd = nd0) as -> by congruence. exists (setProp n v nd0). split.
      * apply list_lookup_insert_eq. by apply lookup_lt_Some in Hnd0.
      * split_and!; simpl; [done| |done]. by apply lookup_insert_ne.
    + exists nd. split; [by rewrite list_lookup_insert_ne|apply node_kept_refl].
  - destruct (connect_cases rt q1 q2 db Hinv)
      as [[e ->]|(a & b & _ & _ & Hab & _ & _ & -> & _)]; [done|].
    simpl. split; [done|].
    intros h nd Hnd.
    assert (Hk : ∀ c n, node_kept n (addConn c n)).
    { intros c n. unfold node_kept, addConn. simpl. split_and!; [done|done|set_solver]. }
    destruct (decide (h = b)) as [->|Hb].
    + rewrite list_lookup_alter_eq, list_lookup_alter_ne, Hnd by done.
      simpl. eauto.
    + rewrite list_lookup_alter_ne by done. destruct (decide (h = a)) as [->|Ha].
      * rewrite list_lookup_alter_eq, Hnd. simpl. eauto.
      * rewrite list_lookup_alter_ne by done. eauto using node_kept_refl.
Qed.

Lemma run_steps (rt : Runtime) (ops : list Op) (db : GraphDB) :
  store_inv db →
  nodes db ⊆ nodes (run rt ops db) ∧
  ∀ h nd, heap db !! h = Some nd →
    ∃ nd', heap (run rt ops db) !! h = Some nd' ∧ node_kept nd nd'.
Proof.
  revert db. induction ops as [|op ops IH]; intros db Hinv; simpl.
  - split; [done|]. intros h nd Hnd. exists nd. split; [done|apply node_kept_refl].
  - destruct (exec_step rt op db Hinv) as [Hn Hh].
    destruct (IH _ (exec_store_inv rt op db Hinv)) as [Hn' Hh'].
    split; [set_solver|]. intros h nd Hnd.
    destruct (Hh h nd Hnd) as (nd1 & Hnd1 & Hk1).
    destruct (Hh' h nd1 Hnd1) as (nd2 & Hnd2 & Hk2).
    exists nd2. split; [done|]. by eapply node_kept_trans.
Qed.

Lemma reachable_app (rt : Runtime) (ops1 ops2 : list Op) :
  reachable rt (ops1 ++ ops2) = run rt ops2 (reachable rt ops1).
Proof. unfold reachable, run. by rewrite foldl_app. Qed.

(** X1. No call removes a node: a node stored at some time is stored at
    every later time, and [query()] without qualifier returns exactly the
    stored nodes — the nodes of all [addNode] calls that returned. *)
Theorem nodes_are_never_removed (rt : Runtime) (ops1 ops2 : list Op) :
  let db1 := reachable rt ops1 in
  let db2 := reachable rt (ops1 ++ ops2) in
  nodes db1 ⊆ nodes db2 ∧
  length (heap db1) ≤ length (heap db2) ∧
  query None db2 = (db2, Return (nodes db2)) ∧
  (∀ h, h ∈ nodes db2 ↔ h < length (heap db2)).
Proof.
  intros db1 db2. subst db1 db2. rewrite reachable_app.
  pose proof (reachable_store_inv rt ops1) as Hinv.
  destruct (run_steps rt ops2 _ Hinv) as [Hn Hh].
  destruct (run_store_inv rt ops2 _ Hinv) as [_ Hc].
  split_and!; [done| |done|apply (nodes_are_heap _ Hc)].
  destruct (decide (length (heap (reachable rt ops1)) = 0)) as [->|Hne]; [lia|].
  destruct (lookup_lt_is_Some_2 (heap (reachable rt ops1))
              (pred (length (heap (reachable rt ops1))))) as [nd Hnd]; [lia|].
  destruct (Hh _ _ Hnd) as (nd' & Hnd' & _). apply lookup_lt_Some in Hnd'. lia.
Qed.

(** X2. The label and the id of a stored node never change, whatever calls
    follow, and a node never loses a connection. *)
Theorem label_and_id_are_immutable (rt : Runtime) (ops1 ops2 : list Op)
    (h : Handle) (nd : Node) :
  heap (reachable rt ops1) !! h = Some nd →
  ∃ nd', heap (reachable rt (ops1 ++ ops2)) !! h = Some nd' ∧
         label nd' = label nd ∧
         properties nd' !! "id" = properties nd !! "id" ∧
         connections nd ⊆ connections nd'.
Proof.
  intros Hnd. rewrite reachable_app.
  destruct (run_steps rt ops2 _ (reachable_store_inv rt ops1)) as [_ Hh].
  destruct (Hh h nd Hnd) as (nd' & Hnd' & Hk). exists nd'. by split.
Qed.

(** X3. When [addOrUpdateNodeProperty] returns, it has changed one thing:
    the property [name] of the node the qualifier resolves to is now
    [value].  That node keeps its label, its other properties and its
    connections, every other node and the node set are untouched, the node
    is in the index set of the new value and in no index set of another
    value of that property. *)
Theorem addOrUpdateNodeProperty_returns (rt : Runtime) (ops : list Op)
    (q name value : string) (db' : GraphDB) :
  let db := reachable rt ops in
  addOrUpdateNodeProperty rt q name value db = (db', Return tt) →
  ∃ h nd,
    queryById rt q db = (db, Return h) ∧ heap db !! h = Some nd ∧ name ≠ "id" ∧
    heap db' = <[h := mkNode (label nd) (<[name := value]> (properties nd)) (connections nd)]>
                 (heap db) ∧
    nodes db' = nodes db ∧
    h ∈ idxset db' (label nd) (Some name) (Some value) ∧
    (∀ other, other ≠ value → h ∉ idxset db' (label nd) (Some name) (Some other)).
Proof.
  intros db Hrun.
  destruct (addOrUpdateNodeProperty_cases rt q name value db (reachable_store_inv rt ops))
    as [[e He]|(db2 & h & nd & Hrun2 & [_ Hc] & Hq & Hnd & Hne & Hh & Hn)]; [congruence|].
  rewrite Hrun2 in Hrun. injection Hrun as ->.
  assert (Hlt : h < length (heap db)) by (by apply lookup_lt_Some in Hnd).
  assert (Hnew : heap db' !! h = Some (setProp name value nd)).
  { rewrite Hh. by apply list_lookup_insert_eq. }
  exists h, nd. rewrite queryById_unfold, Hq. split_and!; try done.
  - apply (indexed_complete _ Hc _ _ _ _ Hnew). simpl. apply lookup_insert_eq.
  - intros other Hother Hin.
    destruct (indexed_sound _ Hc _ _ _ _ Hin) as (nd' & Hnd' & _ & Hp).
    rewrite Hnew in Hnd'. injection Hnd' as <-. simpl in Hp.
    rewrite lookup_insert_eq in Hp. congruence.
Qed.

(** X4. When [addNode] returns, the store has exactly one node more: a new
    node with the given label, the property [id] only and no connection.
    The nodes that were stored are untouched, the new node is in the id
    index set of its label and id, and for every other node membership in
    every index set is as before. *)
Theorem addNode_returns (rt : Runtime) (ops : list Op) (l i : string) (db' : GraphDB) :
  let db := reachable rt ops in
  addNode rt l i db = (db', Return tt) →
  let h := length (heap db) in
  (h ∉ nodes db) ∧
  heap db' = heap db ++ [mkNode l {["id" := i]} ∅] ∧
  nodes db' = {[h]} ∪ nodes db ∧
  h ∈ idxset db' l (Some "id") (Some i) ∧
  (∀ l' k v x, x ≠ h →
     x ∈ idxset db' l' (Some k) (Some v) ↔ x ∈ idxset (reachable rt ops) l' (Some k) (Some v)).
Proof.
  intros db Hrun h. destruct (reachable_store_inv rt ops) as [Hs Hc]. fold db in Hs, Hc.
  destruct (addNode_cases rt l i db (conj Hs Hc))
    as [Hf|(db2 & Hrun2 & [_ Hc'] & Hh & Hn)]; [congruence|].
  rewrite Hrun2 in Hrun. injection Hrun as ->.
  split_and!; try done.
  - rewrite (nodes_are_heap _ Hc). unfold h. lia.
  - apply (indexed_complete _ Hc' _ (Node_init i l)); [|done].
    rewrite Hh. by apply list_lookup_middle.
  - intros l' k v x Hx. fold db. split; intros Hin.
    + destruct (indexed_sound _ Hc' _ _ _ _ Hin) as (nd & Hnd & <- & Hp).
      apply (indexed_complete _ Hc); [|done].
      rewrite Hh in Hnd. apply lookup_app_Some in Hnd as [Hnd|[Hge Hnd]]; [done|].
      apply lookup_lt_Some in Hnd. simpl in Hnd. unfold h in Hx. lia.
    + destruct (indexed_sound _ Hc _ _ _ _ Hin) as (nd & Hnd & <- & Hp).
      apply (indexed_complete _ Hc'); [|done]. rewrite Hh. by apply lookup_app_l_Some.
Qed.

(** X5. [addNode] raises exactly when the label, formatted with the id as
    its format specifier, is a qualifier that [queryById] resolves in the
    store; the exception is then the [AttributeError] of the failed
    [node.id].  Whether a node with this label and id is already stored
    plays no part. *)
Theorem addNode_raises_iff (rt : Runtime) (ops : list Op) (l i : string) :
  let db := reachable rt ops in
  ((addNode rt l i db).2 = Raise AttributeError ↔
     ∃ spec qualifier h,
       str_format rt i "" = Some spec ∧ str_format rt l spec = Some qualifier ∧
       queryById rt qualifier db = (db, Return h)) ∧
  ((addNode rt l i db).2 = Return tt ∨ (addNode rt l i db).2 = Raise AttributeError).
Proof.
  intros db. destruct (reachable_store_inv rt ops) as [Hs Hc]. fold db in Hs, Hc.
  assert (Hfresh : length (heap db) ∉ nodes db).
  { rewrite (nodes_are_heap _ Hc). lia. }
  assert (Hthrow : (throwIfNodeAlreadyExists rt (length (heap db)) (Node_init i l) db).2
                   = Raise AttributeError ↔
                   ∃ spec qualifier h,
                     str_format rt i "" = Some spec ∧ str_format rt l spec = Some qualifier ∧
                     queryById rt qualifier db = (db, Return h)).
  { unfold throwIfNodeAlreadyExists. unfold bind at 1. simpl.
    rewrite decide_False by done.
    unfold bind at 1, catch, bind at 1, label_formatted_by_id, bind at 1, subscript. simpl.
    rewrite lookup_singleton_eq. simpl.
    destruct (str_format rt i "") as [spec|]; simpl.
    2:{ split; [done|]. intros (? & ? & ? & Hx & _). discriminate Hx. }
    destruct (str_format rt l spec) as [qualifier|] eqn:Hf; simpl.
    2:{ split; [done|]. intros (? & ? & ? & Hx & Hy & _). congruence. }
    unfold bind. rewrite queryById_unfold.
    pose proof (queryById_outcome_not_OutOfFuel rt db qualifier).
    destruct (queryById_outcome rt db qualifier) as [h|e|] eqn:Hq; simpl; [| |done].
    - split; [|done]. intros _. exists spec, qualifier, h. split_and!; try done.
      by rewrite queryById_unfold, Hq.
    - split; [done|]. intros (? & ? & h & ? & ? & Hq'). simplify_eq.
      rewrite queryById_unfold, Hq in Hq'. done. }
  destruct (addNode rt l i db) as [db2 o] eqn:Hrun.
  unfold addNode, verifyEntity in Hrun.
  unfold bind at 1 in Hrun. simpl in Hrun.
  unfold bind at 1 in Hrun. simpl in Hrun.
  unfold bind at 1 in Hrun.
  destruct (throwIfNodeAlreadyExists_cases rt (length (heap db)) (Node_init i l) db)
    as [Ht | Ht]; rewrite Ht in Hrun, Hthrow; simpl in *.
  - destruct (addNode_cases rt l i db (conj Hs Hc)) as [Hf|(db3 & Hrun3 & _)].
    + exfalso. unfold addNode, verifyEntity in Hf.
      unfold bind at 1 in Hf. simpl in Hf.
      unfold bind at 1 in Hf. simpl in Hf.
      unfold bind at 1 in Hf. rewrite Ht in Hf.
      rewrite Hrun in Hf. injection Hf as _ Hf. subst o.
      unfold addNode, verifyEntity in Hrun.
      destruct (reIndex_restores (length (heap db)) db
                  (with_nodes (union {[length (heap db)]})
                     (with_heap (λ hp, hp ++ [Node_init i l]) db)) (conj Hs Hc))
        as (db' & Hrun' & _); try done.
      * intros x Hne. simpl. destruct (decide (x < length (heap db))).
        -- by rewrite lookup_app_l.
        -- rewrite !lookup_ge_None_2; [done|lia|]. rewrite length_app. simpl. lia.
      * simpl. apply lookup_lt_is_Some_2. rewrite length_app. simpl. lia.
      * intros x. simpl. rewrite length_app. simpl.
        rewrite elem_of_union, elem_of_singleton, (nodes_are_heap _ Hc x). lia.
      * unfold bind at 1 in Hrun. simpl in Hrun. unfold bind at 1 in Hrun. simpl in Hrun.
        rewrite Hrun' in Hrun. done.
    + unfold addNode, verifyEntity in Hrun3.
      unfold bind at 1 in Hrun3. simpl in Hrun3.
      unfold bind at 1 in Hrun3. simpl in Hrun3.
      unfold bind at 1 in Hrun3. rewrite Ht in Hrun3.
      rewrite Hrun in Hrun3. injection Hrun3 as _ ->.
      split; [|by left]. rewrite <- Hthrow. done.
  - injection Hrun as _ <-. split; [|by right]. rewrite <- Hthrow. done.
Qed.

Lemma connect_heap_lookup (a b x : Handle) (hp : list Node) :
  a ≠ b →
  alter (addConn a) b (alter (addConn b) a hp) !! x =
    (if decide (x = b) then addConn a else if decide (x = a) then addConn b else id)
      <$> hp !! x.
Proof.
  intros Hab. destruct (decide (x = b)) as [->|Hb].
  - by rewrite list_lookup_alter_eq, list_lookup_alter_ne.
  - rewrite list_lookup_alter_ne by done. destruct (decide (x = a)) as [->|Ha].
    + by rewrite list_lookup_alter_eq.
    + rewrite list_lookup_alter_ne by done. by destruct (hp !! x).
Qed.

Lemma exec_undirected (rt : Runtime) (op : Op) (db : GraphDB) :
  store_inv db → undirected db → undirected (exec rt op db).1.
Proof.
  intros Hinv Hu. rewrite exec_fst.
  destruct op as [l i|q n v|q1 q2|q|q|q f d]; try done.
  - destruct (addNode_cases rt l i db Hinv) as [->|(db' & -> & _ & Hh & _)]; [done|].
    simpl. intros x nd Hx. rewrite Hh in Hx.
    apply lookup_app_Some in Hx as [Hx|[Hge Hx]].
    + destruct (Hu x nd Hx) as [Hself Hsym]. split; [done|].
      intros b Hb. destruct (Hsym b Hb) as (nb & Hnb & Ha).
      exists nb. split; [|done]. rewrite Hh. by apply lookup_app_l_Some.
    + destruct (x - length (heap db)) as [|k]; [|done]. simpl in Hx.
      injection Hx as <-. simpl. split; set_solver.
  - destruct (addOrUpdateNodeProperty_cases rt q n v db Hinv)
      as [[e ->]|(db' & h0 & nd0 & -> & _ & _ & Hnd0 & _ & Hh & _)]; [done|].
    simpl.
    assert (Hconn : ∀ x nd', heap db' !! x = Some nd' →
              ∃ nd, heap db !! x = Some nd ∧ connections nd' = connections nd).
    { intros x nd' Hx. rewrite Hh in Hx. destruct (decide (x = h0)) as [->|Hne].
      - rewrite list_lookup_insert_eq in Hx by (by apply lookup_lt_Some in Hnd0).
        injection Hx as <-. eauto.
      - rewrite list_lookup_insert_ne in Hx by done. eauto. }
    assert (Hconn' : ∀ x nd, heap db !! x = Some nd →
              ∃ nd', heap db' !! x = Some nd' ∧ connections nd' = connections nd).
    { intros x nd Hx. rewrite Hh. destruct (decide (x = h0)) as [->|Hne].
      - rewrite list_lookup_insert_eq by (by apply lookup_lt_Some in Hnd0).
        assert (nd = nd0) as -> by congruence. eauto.
      - rewrite list_lookup_insert_ne by done. eauto. }
    intros x nd' Hx. destruct (Hconn x nd' Hx) as (nd & Hnd & ->).
    destruct (Hu x nd Hnd) as [Hself Hsym]. split; [done|].
    intros b Hb. destruct (Hsym b Hb) as (nb & Hnb & Ha).
    destruct (Hconn' b nb Hnb) as (nb' & Hnb' & Heq). exists nb'. by rewrite Heq.
  - destruct (connect_cases rt q1 q2 db Hinv)
      as [[e ->]|(a & b & _ & _ & Hab & Hla & Hlb & -> & _)]; [done|].
    unfold undirected. simpl. intros x nd' Hx. rewrite connect_heap_lookup in Hx by done.
    apply fmap_Some in Hx as (nd & Hnd & ->).
    destruct (Hu x nd Hnd) as [Hself Hsym].
    assert (Hold : ∀ y, y ∈ connections nd →
              ∃ ny', alter (addConn a) b (alter (addConn b) a (heap db)) !! y = Some ny' ∧
                     x ∈ connections ny').
    { intros y Hy. destruct (Hsym y Hy) as (ny & Hny & Hxy).
      rewrite connect_heap_lookup, Hny by done. simpl. eexists. split; [done|].
      repeat case_decide; unfold addConn; simpl; set_solver. }
    destruct (lookup_lt_is_Some_2 _ _ Hla) as [na Hna].
    destruct (lookup_lt_is_Some_2 _ _ Hlb) as [nb Hnb].
    destruct (decide (x = b)) as [->|Hxb]; [|destruct (decide (x = a)) as [->|Hxa]].
    + split; [unfold addConn; simpl; set_solver|].
      intros y [->%elem_of_singleton|Hy]%elem_of_union; [|by apply Hold].
      rewrite connect_heap_lookup, Hna by done. simpl. eexists. split; [done|].
      rewrite decide_False by done. rewrite decide_True by done.
      unfold addConn. simpl. set_solver.
    + split; [unfold addConn; simpl; set_solver|].
      intros y [->%elem_of_singleton|Hy]%elem_of_union; [|by apply Hold].
      rewrite connect_heap_lookup, Hnb by done. simpl. eexists. split; [done|].
      rewrite decide_True by done. unfold addConn. simpl. set_solver.
    + split; [done|]. intros y Hy. by apply Hold.
Qed.

Lemma reachable_undirected (rt : Runtime) (ops : list Op) : undirected (reachable rt ops).
Proof.
  unfold reachable.
  assert (H : ∀ db, store_inv db → undirected db → undirected (run rt ops db)).
  { induction ops as [|op ops' IH]; intros db Hinv Hu; simpl; [done|].
    apply IH; [by apply exec_store_inv|by apply exec_undirected]. }
  apply H.
  - split; [apply index_shape_init|apply index_consistent_init].
  - intros a nd Ha. simpl in Ha. by rewrite lookup_nil in Ha.
Qed.

(** X6. On every store the operations can build, the connections are an
    undirected graph on the stored nodes: no node is connected to itself,
    and whenever [b] is among the connections of a stored node [a], [b] is a
    stored node with [a] among its connections. *)
Theorem connections_are_undirected (rt : Runtime) (ops : list Op) :
  let db := reachable rt ops in
  ∀ a nd, heap db !! a = Some nd →
    (a ∉ connections nd) ∧
    ∀ b, b ∈ connections nd → ∃ nb, heap db !! b = Some nb ∧ a ∈ connections nb.
Proof. intros db. apply reachable_undirected. Qed.

(** X7. [query] with a qualifier raises only for a qualifier that does not
    parse, and then "Invalid Query".  For a qualifier that parses to
    (label, property, value), it returns the empty set exactly when no
    stored node with that label has that value of the property, and
    otherwise the set of handles of those nodes. *)
Theorem query_returns_matches (rt : Runtime) (ops : list Op) (q : string) :
  let db := reachable rt ops in
  (∀ e, (query (Some q) db).2 = Raise e →
        e = InvalidQuery ∧ parseQueryQualifier q = Raise InvalidQuery) ∧
  (query (Some q) db).2 ≠ OutOfFuel ∧
  (∀ l k v, parseQueryQualifier q = Return (l, Some k, Some v) →
     ∃ s, (query (Some q) db).2 = Return s ∧
       (∀ h, h ∈ s ↔ ∃ nd, heap db !! h = Some nd ∧ label nd = l ∧
                            properties nd !! k = Some v) ∧
       (s = ∅ ↔ ∀ h nd, heap db !! h = Some nd → label nd = l →
                         properties nd !! k ≠ Some v)).
Proof.
  intros db. destruct (reachable_store_inv rt ops) as [_ Hc]. fold db in Hc.
  rewrite query_unfold. simpl.
  split_and!.
  - intros e. destruct (parseQueryQualifier_outcome q) as [->|[[[l k] v] ->]]; [|done].
    by intros [= <-].
  - by destruct (parseQueryQualifier_outcome q) as [->|[[[l k] v] ->]].
  - intros l k v ->. eexists. split; [done|].
    assert (Hmem : ∀ h, h ∈ idxset db l (Some k) (Some v) ↔
               ∃ nd, heap db !! h = Some nd ∧ label nd = l ∧ properties nd !! k = Some v).
    { intros h. split; [apply (indexed_sound _ Hc)|].
      intros (nd & Hnd & <- & Hp). by apply (indexed_complete _ Hc). }
    split; [done|]. split.
    + intros Hempty h nd Hnd Hl Hp.
      assert (Hin : h ∈ idxset db l (Some k) (Some v)) by (apply Hmem; eauto).
      rewrite Hempty in Hin. set_solver.
    + intros Hnone. apply set_eq. intros h. rewrite Hmem. split; [|set_solver].
      intros (nd & Hnd & Hl & Hp). by destruct (Hnone h nd Hnd Hl).
Qed.

(** X8. [connect] with two qualifiers that resolve to the same node raises
    "Cannot connect onself." and changes nothing, on every store. *)
Theorem connect_to_itself_raises (rt : Runtime) (db : GraphDB) (q1 q2 : string) (a : Handle) :
  queryById rt q1 db = (db, Return a) →
  queryById rt q2 db = (db, Return a) →
  connect rt q1 q2 db = (db, Raise CannotConnectOneself).
Proof.
  intros H1 H2. unfold connect, bind. rewrite H1, H2.
  unfold Node_addConnection. by rewrite decide_True.
Qed.

(** X9. Qualifiers round-trip through the parser: for a label, a property
    and a value without [:] and (but for the label) without [=], the
    qualifier [label:property=value] parses to the three parts, the
    qualifier [label:value] to the label, the key ["id"] and the value, and
    the bare label to the label alone. *)
Theorem qualifier_round_trip (l k v : string) :
  Str.count ":" l = 0 → Str.count ":" k = 0 → Str.count ":" v = 0 →
  Str.count "=" k = 0 → Str.count "=" v = 0 →
  parseQueryQualifier (l +:+ ":" +:+ k +:+ "=" +:+ v) = Return (l, Some k, Some v) ∧
  parseQueryQualifier (l +:+ ":" +:+ v) = Return (l, Some "id", Some v) ∧
  parseQueryQualifier l = Return (l, None, None) ∧
  parseQueryClause (k +:+ "=" +:+ v) = Return (k, v) ∧
  parseQueryClause v = Return ("id", v).
Proof.
  intros Hl Hk Hv Hk' Hv'. split_and!.
  - by apply parseQueryQualifier_triple.
  - by apply parseQueryQualifier_id.
  - pose proof (parseQueryQualifier_cases l) as H. by rewrite Hl in H.
  - pose proof (parseQueryClause_cases (k +:+ "=" +:+ v)) as H.
    assert (Hc : Str.count "=" (k +:+ "=" +:+ v) = 1) by (rewrite !count_app; simpl; lia).
    rewrite Hc in H. rewrite H.
    change (k +:+ "=" +:+ v) with (k +:+ String "=" v).
    by rewrite before_app, after_app.
  - pose proof (parseQueryClause_cases v) as H. by rewrite Hv' in H.
Qed.

(** ** The levels of the traversal are the distance classes *)

Section Layers.

Context (rt : Runtime) (db : GraphDB) (s : Handle).

Lemma elem_of_nbrs (X : gset Handle) (x : Handle) :
  x ∈ nbrs db X ↔ ∃ a, a ∈ X ∧ x ∈ adj db a.
Proof.
  unfold nbrs. rewrite elem_of_union_list. split.
  - intros (Y & HY & Hx). apply list_elem_of_fmap in HY as (a & -> & Ha).
    exists a. split; [by apply elem_of_elements|done].
  - intros (a & Ha & Hx). exists (adj db a). split; [|done].
    apply list_elem_of_fmap. exists a. split; [done|by apply elem_of_elements].
Qed.

Lemma nbrs_empty : nbrs db ∅ = ∅.
Proof.
  apply set_eq. intros x. rewrite elem_of_nbrs. split; [|set_solver].
  intros (a & Ha & _). set_solver.
Qed.

Lemma nbrs_snoc (l : list Handle) (node : Handle) :
  nbrs db (list_to_set (l ++ [node])) = nbrs db (list_to_set l) ∪ adj db node.
Proof.
  apply set_eq. intros x. rewrite elem_of_union, !elem_of_nbrs. split.
  - intros (a & Ha & Hx). rewrite list_to_set_app_L in Ha.
    apply elem_of_union in Ha as [Ha|Ha]; [left; eauto|].
    right. assert (a = node) as -> by set_solver. done.
  - intros [(a & Ha & Hx)|Hx].
    + exists a. split; [|done]. rewrite list_to_set_app_L. set_solver.
    + exists node. split; [|done]. rewrite list_to_set_app_L. set_solver.
Qed.

Lemma layer_S (n : nat) :
  layer db s (S n) = nbrs db (layer db s n) ∖ within db s n.
Proof. unfold layer, within. simpl. by destruct (layers db s n). Qed.

Lemma within_S (n : nat) :
  within db s (S n) = within db s n ∪ layer db s (S n).
Proof. unfold layer, within. simpl. by destruct (layers db s n). Qed.

Lemma layer_within (n : nat) : layer db s n ⊆ within db s n.
Proof. destruct n as [|n]; [done|]. rewrite within_S. set_solver. Qed.

Lemma within_mono (n m : nat) : n ≤ m → within db s n ⊆ within db s m.
Proof.
  induction 1 as [|m Hle IH]; [done|]. rewrite within_S. set_solver.
Qed.

Lemma within_layer (n : nat) (x : Handle) :
  x ∈ within db s n ↔ ∃ j, j ≤ n ∧ x ∈ layer db s j.
Proof.
  induction n as [|n IH].
  - split; [intros Hx; exists 0; done|].
    intros (j & Hj & Hx). by replace j with 0 in Hx by lia.
  - rewrite within_S, elem_of_union, IH. split.
    + intros [(j & Hj & Hx)|Hx]; [exists j; split; [lia|done]|exists (S n); done].
    + intros (j & Hj & Hx). destruct (decide (j = S n)) as [->|]; [by right|].
      left. exists j. split; [lia|done].
Qed.

Lemma layer_walk (n : nat) (x : Handle) : x ∈ layer db s n → walk db s n x.
Proof.
  revert x. induction n as [|n IH]; intros x Hx.
  - assert (x = s) as -> by (unfold layer in Hx; simpl in Hx; set_solver). constructor.
  - rewrite layer_S in Hx. apply elem_of_difference in Hx as [Hx _].
    apply elem_of_nbrs in Hx as (a & Ha & Hx). apply (walk_S _ _ _ a); [by apply IH|done].
Qed.

Lemma walk_within (n : nat) (x : Handle) : walk db s n x → x ∈ within db s n.
Proof.
  induction 1 as [|n a b Hw IH Hb].
  - unfold within. simpl. set_solver.
  - apply within_layer in IH as (j & Hj & Ha).
    destruct (decide (b ∈ within db s j)) as [Hin|Hnin].
    + apply (within_mono j); [lia|done].
    + apply (within_mono (S j)); [lia|]. rewrite within_S. apply elem_of_union. right.
      rewrite layer_S. apply elem_of_difference. split; [|done].
      apply elem_of_nbrs. eauto.
Qed.

Lemma layer_distance (n : nat) (x : Handle) : x ∈ layer db s n ↔ distance db s x n.
Proof.
  split.
  - intros Hx. split; [by apply layer_walk|].
    intros m Hm Hw. apply walk_within in Hw.
    destruct n as [|n]; [lia|]. rewrite layer_S in Hx.
    apply elem_of_difference in Hx as [_ Hx]. apply Hx.
    apply (within_mono m); [lia|done].
  - intros [Hw Hmin]. apply walk_within, within_layer in Hw as (j & Hj & Hx).
    destruct (decide (j = n)) as [->|Hne]; [done|].
    destruct (Hmin j); [lia|]. by apply layer_walk.
Qed.

Lemma layer_empty_later (n m : nat) : layer db s n = ∅ → n ≤ m → layer db s m = ∅.
Proof.
  intros Hn. induction 1 as [|m Hle IH]; [done|].
  rewrite layer_S, IH, nbrs_empty. set_solver.
Qed.

(** *** The loop over the connections finds exactly the new nodes *)

Lemma visitChild_fold_covers (cs : list Handle) (q : Queue.t) (v : gset Handle)
    (x : Handle) :
  x ∈ cs ∨ x ∈ v → x ∈ (foldl visitChild (q, v) cs).2.
Proof.
  revert q v. induction cs as [|c cs IH]; intros q v; simpl.
  - intros [Hx|Hx]; [by apply elem_of_nil in Hx|done].
  - intros Hx. unfold visitChild at 2. simpl.
    destruct (decide (c ∈ v)) as [Hc|Hc]; apply IH.
    + destruct Hx as [[->|Hx]%elem_of_cons|Hx]; auto.
    + destruct Hx as [[->|Hx]%elem_of_cons|Hx]; [right|left|right]; set_solver.
Qed.

Lemma visitChild_fold_exact (cs : list Handle) (q : Queue.t) (v : gset Handle) :
  ∃ news : list Handle,
    (foldl visitChild (q, v) cs).1 = q ++ (Some <$> news) ∧
    (foldl visitChild (q, v) cs).2 = list_to_set news ∪ v ∧
    list_to_set (C := gset Handle) news = list_to_set cs ∖ v.
Proof.
  destruct (visitChild_fold cs q v) as (news & H1 & H2 & _ & H4).
  exists news. split_and!; [done..|].
  apply set_eq. intros x. rewrite elem_of_difference, !elem_of_list_to_set. split.
  - intros Hx. destruct (H4 x Hx). done.
  - intros [Hx Hv].
    pose proof (visitChild_fold_covers cs q v x (or_introl Hx)) as Hin.
    rewrite H2 in Hin. apply elem_of_union in Hin as [Hin|Hin]; [|done].
    by apply elem_of_list_to_set in Hin.
Qed.

Lemma new_neighbours (A B C : gset Handle) :
  A ∖ C ∪ B ∖ (C ∪ A ∖ C) = (A ∪ B) ∖ C.
Proof.
  apply set_eq. intros x.
  rewrite !elem_of_union, !elem_of_difference, !elem_of_union, !elem_of_difference.
  destruct (decide (x ∈ A)); destruct (decide (x ∈ C)); tauto.
Qed.

Lemma union_assoc_flip (A B C : gset Handle) : B ∪ (C ∪ A) = C ∪ (A ∪ B).
Proof.
  apply set_eq. intros x. rewrite !elem_of_union. tauto.
Qed.

(** *** The loop *)

Lemma bfs_layers_inv_initial (maxDepth : Z) :
  (-1 ≤ maxDepth)%Z →
  bfs_layers_inv db s maxDepth [Some s; None] ∅ 0 [("0", [])].
Proof.
  intros Hd. exists [], [s], []. split_and!; try done.
  - unfold layer. simpl. set_solver.
  - simpl. rewrite nbrs_empty. set_solver.
  - right. done.
  - simpl. lia.
  - intros j Hj. lia.
  - intros j Hj. simpl. rewrite decide_False; [done|].
    intros Heq. symmetry in Heq. apply pretty_nat_zero in Heq. lia.
  - intros j Hj. replace j with 0 by lia. unfold layer. simpl. set_solver.
Qed.

Lemma bfs_layers_loop (maxDepth : Z) (fuel : nat) (q : Queue.t) (visited : gset Handle)
    (level : nat) (result levels : Levels) :
  bfs_layers_inv db s maxDepth q visited level result →
  bfs_outcome rt db fuel None maxDepth q visited level result = Return levels →
  bfs_layers_post db s maxDepth levels.
Proof.
  revert q visited level result.
  induction fuel as [|fuel IH]; intros q visited level result Hinv Hrun;
    simpl in Hrun; [done|].
  destruct Hinv as (done & cur & nxt & Hq & Hget & Hcur & Hnxt & Hvis & Hle & Hdone &
                    Hlow & Hhigh & Hne).
  assert (Hpne : ∀ j, j ≠ level → pretty level ≠ pretty j).
  { intros j Hj Heq. apply (inj (pretty : nat → string)) in Heq. lia. }
  destruct (Z.of_nat level <=? maxDepth)%Z eqn:Hd.
  2:{ apply Z.leb_gt in Hd. rewrite andb_false_r in Hrun. injection Hrun as <-.
      exists level. split_and!; [|done..|].
      - intros j Hj Hjd. apply Hlow. lia.
      - right. split; [lia|]. rewrite Hget. f_equal. apply Hdone. lia. }
  apply Z.leb_le in Hd.
  destruct cur as [|node cur'].
  - subst q. simpl in Hrun. rewrite app_nil_r in Hcur.
    destruct nxt as [|x nxt']; simpl in Hrun.
    + injection Hrun as <-. exists level. split_and!; [|done..|].
      * intros j Hj _. destruct (decide (j = level)) as [->|]; [eauto|]. apply Hlow. lia.
      * left. split; [done|]. rewrite layer_S, <- Hcur, <- Hnxt. done.
    + apply IH in Hrun; [done|].
      assert (Hnext : layer db s (S level) = list_to_set (x :: nxt')).
      { by rewrite layer_S, <- Hcur, <- Hnxt. }
      exists [], (x :: nxt'), []. split_and!.
      * done.
      * apply dict_get_update_eq.
      * done.
      * simpl. rewrite nbrs_empty. set_solver.
      * left. destruct Hvis as [->|(-> & -> & _)].
        -- rewrite within_S, Hnext. set_solver.
        -- exfalso. unfold layer in Hcur. simpl in Hcur. set_solver.
      * lia.
      * done.
      * intros j Hj. destruct (decide (j = level)) as [->|Hjl].
        -- exists done. rewrite dict_get_update_ne; [done|].
           intros Heq. apply (inj (pretty : nat → string)) in Heq. lia.
        -- destruct (Hlow j) as (l & Hl & Hs); [lia|]. exists l.
           rewrite dict_get_update_ne; [done|].
           intros Heq. apply (inj (pretty : nat → string)) in Heq. lia.
      * intros j Hj. rewrite dict_get_update_ne; [apply Hhigh; lia|].
        intros Heq. apply (inj (pretty : nat → string)) in Heq. lia.
      * intros j Hj. destruct (decide (j = S level)) as [->|]; [|apply Hne; lia].
        rewrite Hnext. set_solver.
  - subst q. simpl in Hrun. unfold append_level in Hrun. rewrite Hget in Hrun.
    destruct (visitChild_fold_exact (set_iter rt (connections (nodeAt (heap db) node)))
                ((Some <$> cur') ++ None :: (Some <$> nxt)) ({[node]} ∪ visited))
      as (news & H1 & H2 & H3).
    change (list_fmap nat (option nat) Some cur') with (Some <$> cur') in Hrun.
    rewrite H1, H2 in Hrun. apply IH in Hrun; [done|].
    assert (Hnode : node ∈ layer db s level).
    { rewrite <- Hcur, list_to_set_app_L. set_solver. }
    assert (HV : {[node]} ∪ visited = within db s level ∪ list_to_set nxt).
    { pose proof (layer_within level) as Hsub.
      destruct Hvis as [->|(-> & _ & -> & ->)]; [set_solver|].
      unfold layer, within in *. simpl in *. set_solver. }
    assert (Hcs : list_to_set (set_iter rt (connections (nodeAt (heap db) node))) =
                  adj db node).
    { apply set_eq. intros x. rewrite elem_of_list_to_set. apply elem_of_set_iter. }
    exists (done ++ [node]), cur', (nxt ++ news). split_and!.
    + rewrite fmap_app, <- app_assoc. done.
    + apply dict_get_update_eq.
    + rewrite <- Hcur, <- app_assoc. done.
    + rewrite nbrs_snoc, list_to_set_app_L, H3, Hcs, HV, Hnxt.
      apply new_neighbours.
    + left. rewrite HV, list_to_set_app_L. apply union_assoc_flip.
    + done.
    + intros Hgt. lia.
    + intros j Hj. destruct (Hlow j Hj) as (l & Hl & Hs). exists l.
      rewrite dict_get_update_ne; [done|]. apply Hpne. lia.
    + intros j Hj. rewrite dict_get_update_ne; [by apply Hhigh|]. apply Hpne. lia.
    + done.
Qed.

(** The traversal without filter returns, and its levels are the layers. *)
Lemma bfs_layers (maxDepth : Z) :
  (-1 ≤ maxDepth)%Z →
  ∃ levels : Levels,
    bfs rt s None maxDepth db = (db, Return levels) ∧
    bfs_layers_post db s maxDepth levels.
Proof.
  intros Hd. rewrite bfs_unfold.
  destruct (bfs_outcome rt db (bfs_fuel db s) None maxDepth [Some s; None] ∅ 0
              [("0", [])]) as [levels|e|] eqn:Hrun.
  - exists levels. split; [done|].
    eapply bfs_layers_loop; [|exact Hrun]. by apply bfs_layers_inv_initial.
  - exfalso. eapply (bfs_unfiltered_returns rt db); [|exact Hrun]. simpl. eauto.
  - exfalso. revert Hrun. apply (bfs_outcome_enough_fuel rt db (bfs_universe db s)).
    + intros h. apply bfs_universe_closed.
    + apply bfs_initial_potential.
Qed.

Lemma bfs_layers_post_keys (maxDepth : Z) (levels : Levels) (n : nat) :
  bfs_layers_post db s maxDepth levels →
  is_Some (dict_get (pretty n) levels) ↔
  (Z.of_nat n ≤ maxDepth + 1)%Z ∧ layer db s n ≠ ∅.
Proof.
  intros (N & Hlow & Hhigh & Hne & Hlast). split.
  - intros Hn. assert (n ≤ N).
    { destruct (decide (n ≤ N)); [done|]. rewrite Hhigh in Hn by lia. by destruct Hn. }
    split; [|by apply Hne]. destruct Hlast as [[? _]|[? _]]; lia.
  - intros [Hn Hl]. destruct Hlast as [[HN Hempty]|[HN Hget]].
    + assert (n ≤ N).
      { destruct (decide (n ≤ N)); [done|]. destruct Hl.
        apply (layer_empty_later (S N)); [done|lia]. }
      destruct (Hlow n) as (l & -> & _); [done|lia|eauto].
    + destruct (decide (n = N)) as [->|]; [rewrite Hget; eauto|].
      destruct (Hlow n) as (l & -> & _); [lia|lia|eauto].
Qed.

Lemma bfs_layers_post_level (maxDepth : Z) (levels : Levels) (n : nat) (l : list Handle) :
  bfs_layers_post db s maxDepth levels →
  dict_get (pretty n) levels = Some l →
  ((Z.of_nat n ≤ maxDepth)%Z ∧ list_to_set l = layer db s n) ∨
  (Z.of_nat n = (maxDepth + 1)%Z ∧ l = []).
Proof.
  intros (N & Hlow & Hhigh & Hne & Hlast) Hl.
  assert (n ≤ N).
  { destruct (decide (n ≤ N)); [done|]. rewrite Hhigh in Hl by lia. done. }
  destruct (decide (Z.of_nat n ≤ maxDepth)%Z) as [Hn|Hn].
  - left. split; [done|]. destruct (Hlow n) as (l' & Hl' & Hs); [done..|]. congruence.
  - right. destruct Hlast as [[HN _]|[HN Hget]]; [lia|].
    assert (n = N) as -> by lia. split; [done|]. congruence.
Qed.

End Layers.

(** X10. Breadth-first search is correct.  For a depth bound of at least
    -1, [bfs] without filter returns, and level [n] of its result lists
    exactly the nodes at distance [n] from the start node — the nodes that a
    walk of [n] connections reaches and no shorter walk does — for every
    [n] up to the depth bound.  A level exists exactly when some node is at
    that distance and the level is at most one beyond the bound; the level
    one beyond the bound is created and left empty. *)
Theorem bfs_levels_are_distances (rt : Runtime) (db : GraphDB) (s : Handle) (maxDepth : Z) :
  (-1 ≤ maxDepth)%Z →
  ∃ levels : Levels,
    bfs rt s None maxDepth db = (db, Return levels) ∧
    (∀ n l h, dict_get (pretty n) levels = Some l → h ∈ l →
       (Z.of_nat n ≤ maxDepth)%Z ∧ distance db s h n) ∧
    (∀ n h, (Z.of_nat n ≤ maxDepth)%Z → distance db s h n →
       ∃ l, dict_get (pretty n) levels = Some l ∧ h ∈ l) ∧
    (∀ n, is_Some (dict_get (pretty n) levels) ↔
          (Z.of_nat n ≤ maxDepth + 1)%Z ∧ ∃ h, distance db s h n) ∧
    (∀ n, Z.of_nat n = (maxDepth + 1)%Z → (∃ h, distance db s h n) →
          dict_get (pretty n) levels = Some []).
Proof.
  intros Hd. destruct (bfs_layers rt db s maxDepth Hd) as (levels & Hrun & Hpost).
  assert (Hex : ∀ n, layer db s n ≠ ∅ ↔ ∃ h, distance db s h n).
  { intros n. split.
    - intros Hn. apply set_choose_L in Hn as [h Hh]. exists h. by apply layer_distance.
    - intros [h Hh%layer_distance]. set_solver. }
  exists levels. split_and!; [done| | | |].
  - intros n l h Hl Hh.
    destruct (bfs_layers_post_level db s maxDepth levels n l Hpost Hl) as [[Hn Hs]|[_ ->]].
    + split; [done|]. apply layer_distance. rewrite <- Hs. by apply elem_of_list_to_set.
    + by apply elem_of_nil in Hh.
  - intros n h Hn Hh.
    destruct (proj2 (bfs_layers_post_keys db s maxDepth levels n Hpost)) as [l Hl].
    { split; [lia|]. apply Hex. eauto. }
    exists l. split; [done|].
    destruct (bfs_layers_post_level db s maxDepth levels n l Hpost Hl) as [[_ Hs]|[? _]];
      [|lia].
    apply layer_distance in Hh. rewrite <- Hs in Hh. by apply elem_of_list_to_set in Hh.
  - intros n. rewrite (bfs_layers_post_keys db s maxDepth levels n Hpost). by rewrite Hex.
  - intros n Hn Hh.
    destruct (proj2 (bfs_layers_post_keys db s maxDepth levels n Hpost)) as [l Hl].
    { split; [lia|]. by apply Hex. }
    destruct (bfs_layers_post_level db s maxDepth levels n l Hpost Hl) as [[? _]|[_ ->]];
      [lia|done].
Qed.

(** ** The zones of contact tracing *)

Section Zones.

Context (rt : Runtime) (db : GraphDB).

Lemma node_matches_true (key value : string) (x : Handle) :
  node_matches db key value x = true ↔
  properties (nodeAt (heap db) x) !! key = Some value.
Proof.
  unfold node_matches. destruct (properties (nodeAt (heap db) x) !! key) as [v|].
  - rewrite bool_decide_eq_true. split; congruence.
  - split; discriminate.
Qed.

(** The traversal with a filter that parses: level 0 is the start node,
    and a level up to the depth bound lists the nodes at that distance
    that match. *)
Lemma bfs_filtered_layers (s : Handle) (f key value : string) (maxDepth : Z) :
  (0 ≤ maxDepth)%Z →
  parseQueryClause f = Return (key, value) →
  ∃ levels : Levels,
    bfs rt s (Some f) maxDepth db = (db, Return levels) ∧
    (∃ l0, dict_get "0" levels = Some (s :: l0)) ∧
    ∀ n, 0 < n → (Z.of_nat n ≤ maxDepth)%Z →
      match dict_get (pretty n) levels with
      | Some l => ∀ x, x ∈ l ↔ x ∈ layer db s n ∧ node_matches db key value x = true
      | None => layer db s n = ∅
      end.
Proof.
  intros Hd Hparse.
  destruct (bfs_layers rt db s maxDepth) as (levels & Hrun & Hpost); [lia|].
  rewrite bfs_unfold in Hrun. injection Hrun as Hrun.
  assert (Hinit : is_Some (dict_get (pretty 0) [("0", @nil Handle)])) by (simpl; eauto).
  pose proof (bfs_filter_simulation rt db key value (bfs_fuel db s) f maxDepth
                [Some s; None] ∅ 0 [("0", [])] Hparse Hinit) as Hsim.
  rewrite Hrun in Hsim.
  exists (filter_levels db key value levels). split_and!.
  - rewrite bfs_unfold. f_equal. exact Hsim.
  - destruct (proj2 (bfs_layers_post_keys db s maxDepth levels 0 Hpost)) as [l Hl].
    { split; [simpl; lia|]. unfold layer. simpl. set_solver. }
    destruct (bfs_layers_post_level db s maxDepth levels 0 l Hpost Hl) as [[_ Hs]|[? _]];
      [|simpl in *; lia].
    change (pretty 0) with "0" in Hl.
    rewrite dict_get_filter_levels, Hl. simpl.
    unfold layer in Hs. simpl in Hs.
    destruct l as [|x l0]; [set_solver|].
    assert (x = s) as -> by set_solver. eauto.
  - intros n Hn Hnd. rewrite dict_get_filter_levels.
    destruct (dict_get (pretty n) levels) as [l|] eqn:Hl; simpl.
    + destruct (bfs_layers_post_level db s maxDepth levels n l Hpost Hl) as [[_ Hs]|[? _]];
        [|lia].
      intros x. unfold keep_level. rewrite decide_False.
      2:{ rewrite pretty_nat_zero. lia. }
      rewrite list_elem_of_filter, <- Hs, elem_of_list_to_set.
      rewrite Is_true_true. tauto.
    + destruct (decide (layer db s n = ∅)) as [|Hne]; [done|].
      destruct (proj2 (bfs_layers_post_keys db s maxDepth levels n Hpost)) as [l Hl'].
      { split; [lia|done]. }
      congruence.
Qed.

End Zones.

(** [determinZone] runs the traversal and reads its levels. *)
Lemma determinZone_run (rt : Runtime) (db : GraphDB) (personId : string) (h : Handle) :
  str_format rt personId "" = Some personId →
  queryById rt ("Person:" +:+ personId) db = (db, Return h) →
  ∃ levels : Levels,
    determinZone rt personId db =
      (db, Return (if decide (infected db h) then "Infected"
                   else match dict_get "1" levels with
                        | Some (_ :: _) => "Red"
                        | _ => match dict_get "2" levels with
                               | Some (_ :: _) => "Orange"
                               | _ => "Green"
                               end
                        end)) ∧
    ((∃ x l, dict_get "1" levels = Some (x :: l)) ↔
     ∃ x, distance db h x 1 ∧ infected db x) ∧
    ((∃ x l, dict_get "2" levels = Some (x :: l)) ↔
     ∃ x, distance db h x 2 ∧ infected db x).
Proof.
  intros Hfmt Hq.
  destruct (bfs_filtered_layers rt db h "infected=yes" "infected" "yes" 2)
    as (levels & Hrun & [l0 H0] & Hlev); [lia|reflexivity|].
  assert (Hlevel : ∀ n, 0 < n → n ≤ 2 →
            (∃ x l, dict_get (pretty n) levels = Some (x :: l)) ↔
            ∃ x, distance db h x n ∧ infected db x).
  { intros n Hn Hn2. specialize (Hlev n Hn ltac:(lia)).
    destruct (dict_get (pretty n) levels) as [l|]; split.
    - intros (x & l' & [= ->]). exists x.
      destruct (proj1 (Hlev x)) as [Hx Hm]; [apply list_elem_of_here|].
      split; [by apply layer_distance|by apply node_matches_true].
    - intros (x & Hx & Hi). destruct l as [|y l]; [|eauto].
      exfalso. apply (elem_of_nil x), Hlev. split; [by apply layer_distance|].
      by apply node_matches_true.
    - intros (x & l' & [=]).
    - intros (x & Hx%layer_distance & _). rewrite Hlev in Hx. set_solver. }
  pose proof (Hlevel 1 ltac:(lia) ltac:(lia)) as H1.
  pose proof (Hlevel 2 ltac:(lia) ltac:(lia)) as H2.
  change (pretty 1) with "1" in H1. change (pretty 2) with "2" in H2.
  assert (Hg : graphQuery rt ("Person:" +:+ personId) (Some "infected=yes") 2 db =
               (db, Return levels)).
  { unfold graphQuery. by rewrite (bind_run _ _ _ _ _ Hq). }
  exists levels. split; [|done].
  unfold determinZone. rewrite Hfmt, (bind_run _ _ _ _ _ Hg), H0.
  unfold Node_getProperty, getNode, bind, get, ret. simpl.
  fold (infected db h). destruct (decide (infected db h)); [done|].
  destruct (dict_get "1" levels) as [[|x1 l1]|];
    destruct (dict_get "2" levels) as [[|x2 l2]|]; done.
Qed.

(** *** Walks in an undirected graph *)

Lemma undirected_adj (db : GraphDB) (a b : Handle) :
  undirected db → b ∈ adj db a → a ∈ adj db b ∧ a ≠ b.
Proof.
  intros Hu Hb. unfold adj, nodeAt in *.
  destruct (heap db !! a) as [nd|] eqn:Hnd; simpl in Hb; [|set_solver].
  destruct (Hu a nd Hnd) as [Hself Hsym].
  destruct (Hsym b Hb) as (nb & -> & Hin). simpl. split; [done|]. by intros ->.
Qed.

Lemma walk_prepend (db : GraphDB) (a b c : Handle) (n : nat) :
  b ∈ adj db a → walk db b n c → walk db a (S n) c.
Proof.
  intros Hb. induction 1 as [|n x y Hw IH Hy].
  - apply (walk_S _ _ _ a); [constructor|done].
  - by apply (walk_S _ _ _ x).
Qed.

Lemma walk_reverse (db : GraphDB) (a b : Handle) (n : nat) :
  undirected db → walk db a n b → walk db b n a.
Proof.
  intros Hu. induction 1 as [|n x y Hw IH Hy]; [constructor|].
  apply (walk_prepend _ _ x); [|done]. by apply (undirected_adj db x y).
Qed.

(** In an undirected graph, a node at distance at most 2 of an infected
    node is not in the green zone. *)
Lemma zone_near_infected (rt : Runtime) (db : GraphDB) (h c : Handle) (n : nat)
    (contactId : string) :
  undirected db → infected db h →
  str_format rt contactId "" = Some contactId →
  queryById rt ("Person:" +:+ contactId) db = (db, Return c) →
  distance db h c n →
  ∃ zone, determinZone rt contactId db = (db, Return zone) ∧
    (n = 0 → zone = "Infected") ∧
    (n = 1 → zone = "Infected" ∨ zone = "Red") ∧
    (n = 2 → zone ≠ "Green").
Proof.
  intros Hu Hi Hfmt Hq [Hw Hmin].
  destruct (determinZone_run rt db contactId c Hfmt Hq) as (levels & -> & H1 & H2).
  eexists. split; [reflexivity|].
  assert (Hback : walk db c n h) by (by apply walk_reverse).
  destruct (decide (infected db c)) as [Hc|Hc].
  { split_and!; intros; try done; by left. }
  assert (Hne : n ≠ 0).
  { intros ->. inversion Hw; subst. done. }
  assert (Hfar : ¬ walk db c 0 h).
  { intros Hz. inversion Hz; subst. apply Hne.
    destruct n as [|n]; [done|]. destruct (Hmin 0); [lia|constructor]. }
  split; [done|]. split.
  - intros ->. right.
    assert (Hred : ∃ x l, dict_get "1" levels = Some (x :: l)).
    { apply H1. exists h. split; [|done]. split; [done|].
      intros m Hm. by replace m with 0 by lia. }
    by destruct Hred as (x & l & ->).
  - intros ->.
    destruct (dict_get "1" levels) as [[|x1 l1]|]; try done;
      (assert (Hno1 : ¬ walk db c 1 h)
         by (intros Hw1; destruct (proj2 H1) as (? & ? & [=]);
             exists h; split; [|done]; split; [done|];
             intros m Hm; by replace m with 0 by lia));
      (assert (Hor : ∃ x l, dict_get "2" levels = Some (x :: l))
         by (apply H2; exists h; split; [|done]; split; [done|];
             intros m Hm Hwm; destruct m as [|[|m]]; [done|done|lia]));
      by destruct Hor as (x & l & ->).
Qed.

(** X11. [determinZone] computes the zones of its docstring.  For a person
    id that [format] leaves as it is and that [queryById] resolves, on every
    store: the zone is "Infected" exactly when the person has the property
    [infected] with value [yes]; otherwise "Red" exactly when such a node is
    at distance 1; otherwise "Orange" exactly when such a node is at
    distance 2; otherwise "Green".  The store is not changed. *)
Theorem determinZone_zones (rt : Runtime) (db : GraphDB) (personId : string) (h : Handle) :
  str_format rt personId "" = Some personId →
  queryById rt ("Person:" +:+ personId) db = (db, Return h) →
  ∃ zone : string,
    determinZone rt personId db = (db, Return zone) ∧
    (zone = "Infected" ↔ infected db h) ∧
    (zone = "Red" ↔
       ¬ infected db h ∧ ∃ x, distance db h x 1 ∧ infected db x) ∧
    (zone = "Orange" ↔
       ¬ infected db h ∧ (¬ ∃ x, distance db h x 1 ∧ infected db x) ∧
       ∃ x, distance db h x 2 ∧ infected db x) ∧
    (zone = "Green" ↔
       ¬ infected db h ∧ (¬ ∃ x, distance db h x 1 ∧ infected db x) ∧
       ¬ ∃ x, distance db h x 2 ∧ infected db x).
Proof.
  intros Hfmt Hq.
  destruct (determinZone_run rt db personId h Hfmt Hq) as (levels & -> & H1 & H2).
  eexists. split; [reflexivity|].
  destruct (decide (infected db h)) as [Hi|Hi].
  { split_and!; split; try done; tauto. }
  rewrite <- H1, <- H2.
  destruct (dict_get "1" levels) as [[|x1 l1]|];
    destruct (dict_get "2" levels) as [[|x2 l2]|];
    clear -Hi; split_and!; split; try discriminate; naive_solver.
Qed.

(** X15. Marking a person as infected puts the contacts in the zones the
    docstring of [markInfectedPerson] names.  On every store the operations
    can build, when [addOrUpdateNodeProperty("Person:" + id, "infected",
    "yes")] returns, the node it changed is infected, and for every contact
    id that [queryById] resolves to a node at distance [n] from it,
    [determinZone] returns "Infected" for [n = 0], "Infected" or "Red" for
    [n = 1], and a zone other than "Green" for [n = 2]. *)
Theorem markInfected_zones (rt : Runtime) (ops : list Op) (personId : string)
    (db' : GraphDB) :
  let db := reachable rt ops in
  addOrUpdateNodeProperty rt ("Person:" +:+ personId) "infected" "yes" db =
    (db', Return tt) →
  ∃ h, queryById rt ("Person:" +:+ personId) db = (db, Return h) ∧ infected db' h ∧
    ∀ (contactId : string) (c : Handle) (n : nat),
      str_format rt contactId "" = Some contactId →
      queryById rt ("Person:" +:+ contactId) db' = (db', Return c) →
      distance db' h c n →
      ∃ zone, determinZone rt contactId db' = (db', Return zone) ∧
        (n = 0 → zone = "Infected") ∧
        (n = 1 → zone = "Infected" ∨ zone = "Red") ∧
        (n = 2 → zone ≠ "Green").
Proof.
  intros db Hrun.
  destruct (addOrUpdateNodeProperty_cases rt ("Person:" +:+ personId) "infected" "yes" db
              (reachable_store_inv rt ops))
    as [[e He]|(db2 & h & nd & Hrun2 & _ & Hq & Hnd & _ & Hh & _)]; [congruence|].
  assert (db2 = db') as -> by congruence.
  assert (Hreach : db' = reachable rt (ops ++ [OpSetProperty ("Person:" +:+ personId)
                                               "infected" "yes"])).
  { rewrite reachable_app. unfold run. cbn [foldl]. rewrite exec_fst. cbn beta iota.
    fold db. by rewrite Hrun. }
  assert (Hu : undirected db') by (rewrite Hreach; apply reachable_undirected).
  assert (Hi : infected db' h).
  { unfold infected, nodeAt. rewrite Hh.
    rewrite list_lookup_insert_eq by (by apply lookup_lt_Some in Hnd).
    simpl. apply lookup_insert_eq. }
  exists h. split; [by rewrite queryById_unfold, Hq|]. split; [done|].
  intros contactId c n Hfmt Hqc Hd. by apply (zone_near_infected rt db' h c n contactId).
Qed.

(** X16. Marking a person as recovered takes the person out of the zone
    "Infected": when [addOrUpdateNodeProperty("Person:" + id, "infected",
    value)] returns for a value other than [yes], [determinZone] returns
    another zone for every id that [queryById] resolves to the node that was
    changed. *)
Theorem markRecovered_zone (rt : Runtime) (ops : list Op) (personId value : string)
    (db' : GraphDB) :
  let db := reachable rt ops in
  value ≠ "yes" →
  addOrUpdateNodeProperty rt ("Person:" +:+ personId) "infected" value db =
    (db', Return tt) →
  ∃ h, queryById rt ("Person:" +:+ personId) db = (db, Return h) ∧
    properties (nodeAt (heap db') h) !! "infected" = Some value ∧
    ∀ contactId : string,
      str_format rt contactId "" = Some contactId →
      queryById rt ("Person:" +:+ contactId) db' = (db', Return h) →
      ∃ zone, determinZone rt contactId db' = (db', Return zone) ∧ zone ≠ "Infected".
Proof.
  intros db Hv Hrun.
  destruct (addOrUpdateNodeProperty_cases rt ("Person:" +:+ personId) "infected" value db
              (reachable_store_inv rt ops))
    as [[e He]|(db2 & h & nd & Hrun2 & _ & Hq & Hnd & _ & Hh & _)]; [congruence|].
  assert (db2 = db') as -> by congruence.
  assert (Hp : properties (nodeAt (heap db') h) !! "infected" = Some value).
  { unfold nodeAt. rewrite Hh.
    rewrite list_lookup_insert_eq by (by apply lookup_lt_Some in Hnd).
    simpl. apply lookup_insert_eq. }
  exists h. split; [by rewrite queryById_unfold, Hq|]. split; [done|].
  intros contactId Hfmt Hqc.
  destruct (determinZone_run rt db' contactId h Hfmt Hqc) as (levels & -> & _).
  eexists. split; [reflexivity|].
  rewrite decide_False by (unfold infected; congruence).
  destruct (dict_get "1" levels) as [[|x1 l1]|];
    destruct (dict_get "2" levels) as [[|x2 l2]|]; done.
Qed.

(** ** The linked queue *)

Lemma queue_repr_init : queue_repr LinkedList.Queue_init [].
Proof.
  exists 0. simpl. split_and!; try done; lia.
Qed.

Lemma queue_repr_isEmpty (q : LinkedList.Queue) (l : list (option Handle)) :
  queue_repr q l → LinkedList.isEmpty q = Queue.isEmpty l.
Proof.
  intros (f & Hf & -> & Hfront & _). unfold LinkedList.isEmpty. rewrite Hfront.
  destruct (decide (f < length (LinkedList.cells q))) as [Hlt|Hge].
  - destruct (lookup_lt_is_Some_2 _ _ Hlt) as [c Hc].
    rewrite (drop_S _ _ _ Hc). by rewrite bool_decide_eq_false_2.
  - rewrite drop_ge by lia. by rewrite bool_decide_eq_true_2.
Qed.

Lemma queue_repr_size (q : LinkedList.Queue) (l : list (option Handle)) :
  queue_repr q l → LinkedList.size q = Z.of_nat (Queue.size l).
Proof. intros (f & _ & _ & _ & _ & _ & H). exact H. Qed.

Lemma queue_repr_front (q : LinkedList.Queue) (x : option Handle) (l : list (option Handle)) :
  queue_repr q (x :: l) →
  ∃ c, LinkedList.front q ≫= (LinkedList.cells q !!.) = Some c ∧
       LinkedList.data c = x ∧ LinkedList.isEmpty q = false ∧
       queue_repr (LinkedList.mkQueue (LinkedList.cells q) (LinkedList.next c)
                     (LinkedList.back q) (LinkedList.queueSize q - 1)) l.
Proof.
  intros (f & Hf & Hl & Hfront & Hnext & Hback & Hsize).
  destruct (decide (f < length (LinkedList.cells q))) as [Hlt|Hge].
  2:{ rewrite drop_ge in Hl by lia. done. }
  destruct (lookup_lt_is_Some_2 _ _ Hlt) as [c Hc].
  rewrite (drop_S _ _ _ Hc) in Hl. simpl in Hl. injection Hl as -> ->.
  exists c. unfold LinkedList.isEmpty. rewrite Hfront. simpl.
  split; [done|]. split; [done|]. split; [done|].
  exists (S f). simpl. split_and!.
  - lia.
  - done.
  - by apply Hnext.
  - intros i c' Hi. apply Hnext. lia.
  - intros Hlt'. apply Hback. lia.
  - rewrite Hsize. simpl. lia.
Qed.

Lemma queue_repr_peek (q : LinkedList.Queue) (l : list (option Handle)) :
  queue_repr q l → LinkedList.peek q = Queue.peek l.
Proof.
  intros Hr. unfold LinkedList.peek. destruct l as [|x l].
  - by rewrite (queue_repr_isEmpty q [] Hr).
  - destruct (queue_repr_front q x l Hr) as (c & -> & <- & -> & _). done.
Qed.

Lemma queue_repr_dequeue (q : LinkedList.Queue) (l : list (option Handle)) :
  queue_repr q l →
  match Queue.dequeue l with
  | Return (x, l') =>
      ∃ q', LinkedList.dequeue q = Return (x, q') ∧ queue_repr q' l'
  | Raise e => LinkedList.dequeue q = Raise e
  | OutOfFuel => False
  end.
Proof.
  intros Hr. unfold LinkedList.dequeue. destruct l as [|x l]; simpl.
  - by rewrite (queue_repr_isEmpty q [] Hr).
  - destruct (queue_repr_front q x l Hr) as (c & -> & <- & -> & Hr'). eauto.
Qed.

Lemma data_alter_setNext (n : option nat) (b : nat) (cs : list LinkedList.ListNode) :
  LinkedList.data <$> alter (LinkedList.setNext n) b cs = LinkedList.data <$> cs.
Proof.
  revert b. induction cs as [|c cs IH]; intros [|b]; simpl; [done..|].
  f_equal. apply IH.
Qed.

Lemma data_drop_enqueue (f b : nat) (n : option nat) (x : option Handle)
    (cs : list LinkedList.ListNode) :
  f ≤ length cs →
  LinkedList.data <$>
    drop f (alter (LinkedList.setNext n) b (cs ++ [LinkedList.mkListNode x None])) =
  (LinkedList.data <$> drop f cs) ++ [x].
Proof.
  intros Hf. rewrite fmap_drop, data_alter_setNext, <- fmap_drop.
  rewrite drop_app_le by done. by rewrite fmap_app.
Qed.

Lemma queue_repr_enqueue (q : LinkedList.Queue) (l : list (option Handle))
    (x : option Handle) :
  queue_repr q l →
  ∃ q', LinkedList.enqueue x q = Return q' ∧ queue_repr q' (Queue.enqueue x l).
Proof.
  intros Hr. pose proof (queue_repr_isEmpty q l Hr) as He.
  destruct Hr as (f & Hf & Hl & Hfront & Hnext & Hback & Hsize).
  unfold LinkedList.enqueue, Queue.enqueue. rewrite He.
  set (n := length (LinkedList.cells q)) in *.
  destruct (decide (f < n)) as [Hlt|Hge].
  - destruct (lookup_lt_is_Some_2 _ _ Hlt) as [c Hc].
    rewrite (drop_S _ _ _ Hc) in Hl. rewrite Hl. simpl. rewrite (Hback Hlt).
    eexists. split; [reflexivity|].
    exists f. simpl. rewrite length_alter, length_app. simpl. fold n.
    split_and!.
    + lia.
    + rewrite data_drop_enqueue by (fold n; lia). by rewrite (drop_S _ _ _ Hc).
    + rewrite Hfront. by rewrite !decide_True by lia.
    + intros i c' Hi Hc'. destruct (decide (i = n - 1)) as [->|Hne].
      * rewrite list_lookup_alter_eq in Hc'.
        apply fmap_Some in Hc' as (c0 & _ & ->). simpl.
        rewrite decide_True by lia. f_equal. lia.
      * rewrite list_lookup_alter_ne in Hc' by done.
        apply lookup_app_Some in Hc' as [Hc'|[Hge Hc']].
        -- rewrite (Hnext i c' Hi Hc'). apply lookup_lt_Some in Hc'. fold n in Hc'.
           by rewrite !decide_True by lia.
        -- fold n in Hge, Hc'. destruct (i - n) as [|k] eqn:Hk; [|done].
           injection Hc' as <-. simpl. by rewrite decide_False by lia.
    + intros _. f_equal. lia.
    + rewrite Hsize, Hl. simpl. rewrite length_app. simpl. lia.
  - assert (f = n) as -> by lia.
    rewrite drop_ge in Hl by (fold n; lia). subst l. simpl.
    eexists. split; [reflexivity|].
    exists n. simpl. rewrite length_app. simpl. fold n.
    split_and!.
    + lia.
    + unfold n. rewrite drop_app_length. done.
    + by rewrite decide_True by lia.
    + intros i c' Hi Hc'. apply lookup_app_Some in Hc' as [Hc'|[_ Hc']].
      * apply lookup_lt_Some in Hc'. fold n in Hc'. lia.
      * fold n in Hc'. destruct (i - n) as [|k] eqn:Hk; [|done].
        injection Hc' as <-. simpl. by rewrite decide_False by lia.
    + intros _. f_equal. lia.
    + rewrite Hsize. simpl. lia.
Qed.

Lemma linked_step_simulation (op : QueueOp) (q : LinkedList.Queue)
    (l : list (option Handle)) :
  queue_repr q l →
  (linked_step op q).1 = (list_step op l).1 ∧
  queue_repr (linked_step op q).2 (list_step op l).2.
Proof.
  intros Hr. destruct op as [x| | | |]; simpl.
  - destruct (queue_repr_enqueue q l x Hr) as (q' & -> & Hr'). done.
  - pose proof (queue_repr_dequeue q l Hr) as Hd.
    destruct (Queue.dequeue l) as [[x l']|e|]; [|by rewrite Hd|done].
    destruct Hd as (q' & -> & Hr'). done.
  - by rewrite (queue_repr_peek q l Hr).
  - by rewrite (queue_repr_isEmpty q l Hr).
  - by rewrite (queue_repr_size q l Hr).
Qed.

(** X12. The linked queue of the source is a first-in first-out queue:
    whatever sequence of [enqueue], [dequeue], [peek], [isEmpty] and [size]
    calls is made on a new queue, each call returns or raises what the same
    call on a list does, where [enqueue] appends, [dequeue] takes the head
    and raises "Queue is empty" on the empty list, [peek] reads the head,
    and [size] is the length.  The stale [back] reference left by the last
    [dequeue] is never followed. *)
Theorem linked_queue_is_fifo (ops : list QueueOp) :
  observe linked_step ops LinkedList.Queue_init = observe list_step ops Queue.empty.
Proof.
  assert (H : ∀ q l, queue_repr q l → observe linked_step ops q = observe list_step ops l).
  { induction ops as [|op ops' IH]; intros q l Hr; simpl; [done|].
    destruct (linked_step_simulation op q l Hr) as [-> Hr']. f_equal. by apply IH. }
  apply H, queue_repr_init.
Qed.

(** ** The label-only index sets *)

Lemma index_label (l k v : string) (h : Handle) (db : GraphDB) :
  index_shape db → listed_values db →
  ∃ db', index l k v h db = (db', Return tt) ∧ index_shape db' ∧ listed_values db' ∧
    heap db' = heap db ∧
    ∀ l' x, x ∈ idxset db' l' None None ↔ x ∈ idxset db l' None None ∨ (x = h ∧ l' = l).
Proof.
  intros Hs HL. destruct (index_run l k v h db Hs) as (r & r0 & Hr & Hr0 & Hs3 & Hrun).
  simpl in *. eexists. split; [exact Hrun|].
  destruct (ensureLabel_spec db l Hs) as [Hs1 He1].
  destruct (ensureKey_spec _ l k Hs1) as [Hs2 He2].
  assert (Hpres : ∃ byLabel, indexeStore (ensureKey l k (ensureLabel l db)) !! l = Some byLabel ∧
                             is_Some (byLabel !! Some k)).
  { apply ensureKey_present, ensureLabel_present. }
  destruct (ensureValue_spec _ l k v Hs2 Hpres) as (_ & He3 & _ & _).
  pose proof (addToSet_shape _ r h Hs3) as Hs4.
  split_and!.
  - by apply addToSet_shape.
  - intros r' Hr'.
    change (r' ∈ allIndexSets (ensureValue l k v (ensureKey l k (ensureLabel l db)))) in Hr'.
    assert (Hgoal : ∃ l0 k0 v0,
              idxref (ensureValue l k v (ensureKey l k (ensureLabel l db)))
                l0 (Some k0) (Some v0) = Some r'); [|exact Hgoal].
    assert (Hvals : ∀ l' k' v',
              idxref (ensureKey l k (ensureLabel l db)) l' (Some k') (Some v') =
              idxref db l' (Some k') (Some v')).
    { intros l' k' v'. rewrite idxref_ensureKey, idxref_ensureLabel by done.
      apply decide_False. intros (?&?&?&?). congruence. }
    assert (Hold : ∀ r1, r1 ∈ allIndexSets db → ∃ l0 k0 v0,
              idxref (ensureValue l k v (ensureKey l k (ensureLabel l db)))
                l0 (Some k0) (Some v0) = Some r1).
    { intros r1 Hr1. destruct (HL r1 Hr1) as (l0 & k0 & v0 & H0).
      exists l0, k0, v0. rewrite idxref_ensureValue by done. rewrite !Hvals, H0.
      destruct (decide _) as [(Hn & ? & ? & ?)|]; [|done]. simplify_eq. }
    assert (Ha2 : allIndexSets (ensureKey l k (ensureLabel l db)) = allIndexSets db).
    { destruct (ensureKey_fields (ensureLabel l db) l k) as (_ & _ & _ & ->).
      by destruct (ensureLabel_frame db l) as (_ & _ & -> & _). }
    revert Hr'. unfold ensureValue at 1.
    destruct (decide (idxref (ensureKey l k (ensureLabel l db)) l (Some k) (Some v) = None))
      as [Hn|Hn]; simpl.
    + rewrite Ha2. intros [Hr'|Hr']%elem_of_app; [by apply Hold|].
      apply list_elem_of_singleton in Hr'. subst r'.
      exists l, k, v. rewrite idxref_ensureValue by done. by rewrite decide_True.
    + rewrite Ha2. apply Hold.
  - simpl. destruct (ensureValue_fields (ensureKey l k (ensureLabel l db)) l k v) as [-> _].
    destruct (ensureKey_fields (ensureLabel l db) l k) as [-> _].
    by destruct (ensureLabel_frame db l) as [-> _].
  - intros l' x.
    rewrite (idxset_addToSet _ r0 h l None None) by done.
    rewrite (idxset_addToSet _ r h l (Some k) (Some v)) by done.
    rewrite (decide_False (P := l' = l ∧ None = Some k ∧ _)) by (intros (?&?&?); congruence).
    rewrite He3, He2, He1.
    destruct (decide (l' = l ∧ None = None ∧ None = None)) as [(-> & _)|Hn].
    + rewrite elem_of_union, elem_of_singleton. naive_solver.
    + split; [tauto|]. intros [?|[_ ->]]; [done|]. by destruct Hn.
Qed.

Lemma unIndex_label (h : Handle) (db : GraphDB) :
  index_shape db → listed_values db →
  ∃ db', unIndex h db = (db', Return tt) ∧ index_shape db' ∧ listed_values db' ∧
    heap db' = heap db ∧ ∀ l, idxset db' l None None = idxset db l None None.
Proof.
  intros Hs HL.
  destruct (unIndex_spec h db Hs) as (db' & Hrun & Hs' & Hh & _).
  destruct (unIndex_loop h (allIndexSets db) db) as (db2 & Hrun2 & _ & _ & Hi & Ha & _ & Hsets).
  assert (Heq : (db2, Return tt) = (db', @Return unit tt)).
  { etrans; [symmetry; exact Hrun2|exact Hrun]. }
  injection Heq as ->.
  assert (Hidx : ∀ l k v, idxref db' l k v = idxref db l k v).
  { intros. unfold idxref. by rewrite Hi. }
  exists db'. split_and!; try done.
  - intros r Hr. rewrite Ha in Hr. destruct (HL r Hr) as (l & k & v & H0).
    exists l, k, v. by rewrite Hidx.
  - intros l. unfold idxset. rewrite Hidx.
    destruct (idxref db l None None) as [r|] eqn:Hr; [|done].
    rewrite Hsets. rewrite decide_False; [done|].
    intros Hin. destruct (HL r Hin) as (l0 & k0 & v0 & H0).
    destruct (shape_inj _ Hs _ _ _ _ _ _ _ Hr H0) as (_ & ? & _). done.
Qed.

Lemma addIndex_label_loop (h : Handle) (kvs : list (string * string)) (db : GraphDB) :
  index_shape db → listed_values db →
  ∃ db', for_ kvs (addIndex_body h) db = (db', Return tt) ∧ index_shape db' ∧
    listed_values db' ∧ heap db' = heap db ∧
    ∀ l x, x ∈ idxset db' l None None ↔
      x ∈ idxset db l None None ∨ (x = h ∧ l = label (nodeAt (heap db) h) ∧ kvs ≠ []).
Proof.
  revert db. induction kvs as [|[k0 v0] kvs IH]; intros db Hs HL.
  - exists db. simpl. split_and!; try done. intros. naive_solver.
  - simpl.
    destruct (index_label (label (nodeAt (heap db) h)) k0 v0 h db Hs HL)
      as (db1 & Hrun1 & Hs1 & HL1 & Hh1 & Hidx1).
    assert (Hb : (l ← Node_getLabel h; index l k0 v0 h) db = (db1, Return tt)).
    { unfold Node_getLabel, getNode, bind, get. simpl. exact Hrun1. }
    rewrite (bind_run _ _ _ _ _ Hb).
    destruct (IH db1 Hs1 HL1) as (db' & Hrun & Hs' & HL' & Hh & Hidx).
    exists db'. split; [done|]. split; [done|]. split; [done|]. split; [congruence|].
    intros l x. rewrite Hidx, Hidx1, Hh1. naive_solver.
Qed.

Lemma reIndex_label (h : Handle) (db : GraphDB) :
  index_shape db → listed_values db →
  ∃ db', reIndex h db = (db', Return tt) ∧ listed_values db' ∧ heap db' = heap db ∧
    ∀ l x, x ∈ idxset db' l None None ↔
      x ∈ idxset db l None None ∨
      (x = h ∧ l = label (nodeAt (heap db) h) ∧ properties (nodeAt (heap db) h) ≠ ∅).
Proof.
  intros Hs HL.
  destruct (unIndex_label h db Hs HL) as (db1 & Hrun1 & Hs1 & HL1 & Hh1 & Hidx1).
  destruct (addIndex_label_loop h (map_to_list (properties (nodeAt (heap db1) h))) db1 Hs1 HL1)
    as (db' & Hrun & Hs' & HL' & Hh & Hidx).
  exists db'. split; [|split; [done|split; [congruence|]]].
  - unfold reIndex. rewrite (bind_run _ _ _ _ _ Hrun1).
    unfold addIndex, Node_getProperties, getNode. unfold bind at 1. simpl. exact Hrun.
  - intros l x. rewrite Hidx, Hidx1, Hh1.
    assert (Hne : map_to_list (properties (nodeAt (heap db) h)) ≠ [] ↔
                  properties (nodeAt (heap db) h) ≠ ∅).
    { split; intros Hn He; apply Hn; [by rewrite He, map_to_list_empty|].
      by apply map_to_list_empty_iff. }
    rewrite Hne. done.
Qed.

(** After the heap changed at one node only, which kept its label and has
    its [id], re-indexing that node restores the label-only sets. *)
Lemma reIndex_label_restores (h : Handle) (db db1 : GraphDB) (nd1 : Node) :
  store_inv db → label_inv db →
  indexeStore db1 = indexeStore db → setHeap db1 = setHeap db →
  allIndexSets db1 = allIndexSets db →
  (∀ x, x ≠ h → heap db1 !! x = heap db !! x) →
  heap db1 !! h = Some nd1 → is_Some (properties nd1 !! "id") →
  (∀ nd, heap db !! h = Some nd → label nd = label nd1) →
  ∃ db', reIndex h db1 = (db', Return tt) ∧ label_inv db'.
Proof.
  intros [Hs _] [HL Hid Hlab] Hi Hsh Ha Hagree Hnd1 Hid1 Hkeep.
  destruct (idx_fields_same db db1 Hi Hsh Ha) as (Href & Hset & Hs1).
  assert (HL1 : listed_values db1).
  { intros r Hr. rewrite Ha in Hr. destruct (HL r Hr) as (l & k & v & H0).
    exists l, k, v. by rewrite Href. }
  destruct (reIndex_label h db1 (Hs1 Hs) HL1) as (db' & Hrun & HL' & Hh & Hidx).
  exists db'. split; [done|]. split.
  - done.
  - intros x nd. rewrite Hh. destruct (decide (x = h)) as [->|Hne].
    + intros Hx. by assert (nd = nd1) as -> by congruence.
    + rewrite Hagree by done. apply Hid.
  - intros l x. rewrite Hidx, Hh, Hset, Hlab, (nodeAt_lookup _ _ _ Hnd1). split.
    + intros [(nd & Hnd & Hl)|(-> & -> & _)]; [|eauto].
      destruct (decide (x = h)) as [->|Hne].
      * exists nd1. split; [done|]. rewrite <- Hl. symmetry. by apply Hkeep.
      * exists nd. by rewrite Hagree.
    + intros (nd & Hnd & Hl). destruct (decide (x = h)) as [->|Hne].
      * right. assert (nd = nd1) as -> by congruence. split_and!; [done..|].
        intros He. rewrite He, lookup_empty in Hid1. by destruct Hid1.
      * left. exists nd. by rewrite <- Hagree.
Qed.

Lemma label_inv_init : label_inv GraphDB_init.
Proof.
  split.
  - intros r Hr. simpl in Hr. by apply elem_of_nil in Hr.
  - intros h nd Hh. simpl in Hh. by rewrite lookup_nil in Hh.
  - intros l h. unfold idxset, idxref. simpl. rewrite lookup_empty. split; [set_solver|].
    intros (nd & Hnd & _). by rewrite lookup_nil in Hnd.
Qed.

Lemma exec_label_inv (rt : Runtime) (op : Op) (db : GraphDB) :
  store_inv db → label_inv db → label_inv (exec rt op db).1.
Proof.
  intros Hinv Hlab. rewrite exec_fst.
  destruct op as [l i|q name value|q1 q2|q|q|q f d]; try done.
  - destruct (addNode rt l i db) as [db2 o] eqn:Hrun. simpl.
    unfold addNode, verifyEntity in Hrun.
    unfold bind at 1 in Hrun. simpl in Hrun.
    unfold bind at 1 in Hrun. simpl in Hrun.
    unfold bind at 1 in Hrun.
    destruct (throwIfNodeAlreadyExists_cases rt (length (heap db)) (Node_init i l) db)
      as [Ht | Ht]; rewrite Ht in Hrun; [|by simplify_eq].
    unfold bind at 1 in Hrun. simpl in Hrun.
    unfold bind at 1 in Hrun. simpl in Hrun.
    set (db1 := with_nodes (union {[length (heap db)]})
                  (with_heap (λ hp, hp ++ [Node_init i l]) db)) in *.
    assert (Hagree : ∀ x, x ≠ length (heap db) → heap db1 !! x = heap db !! x).
    { intros x Hne. unfold db1. simpl. destruct (decide (x < length (heap db))).
      - by rewrite lookup_app_l.
      - rewrite !lookup_ge_None_2; [done|lia|]. rewrite length_app. simpl. lia. }
    assert (Hnew : heap db1 !! length (heap db) = Some (Node_init i l)).
    { unfold db1. simpl. by apply list_lookup_middle. }
    assert (Hid1 : is_Some (properties (Node_init i l) !! "id")).
    { unfold Node_init. cbn [properties]. rewrite lookup_singleton_eq. eauto. }
    assert (Hkeep : ∀ nd, heap db !! length (heap db) = Some nd →
                          label nd = label (Node_init i l)).
    { intros nd Hnd. apply lookup_lt_Some in Hnd. lia. }
    destruct (reIndex_label_restores (length (heap db)) db db1 (Node_init i l) Hinv Hlab
                eq_refl eq_refl eq_refl Hagree Hnew Hid1 Hkeep) as (db' & Hrun' & Hlab').
    rewrite Hrun' in Hrun. by simplify_eq.
  - destruct (addOrUpdateNodeProperty rt q name value db) as [db2 o] eqn:Hrun. simpl.
    unfold addOrUpdateNodeProperty in Hrun. unfold bind at 1 in Hrun.
    rewrite queryById_unfold in Hrun.
    destruct (queryById_outcome rt db q) as [h|e|] eqn:Hq; [|by simplify_eq..].
    destruct (queryById_Return_stored _ _ _ _ Hinv Hq) as (l & v & nd & Hp & Hnd & Hl & Hid).
    unfold Node_addOrUpdateProperty in Hrun.
    destruct (decide ("id" = name)) as [Heq|Hne].
    { unfold bind, raise in Hrun. by simplify_eq. }
    unfold bind at 1 in Hrun. simpl in Hrun.
    set (db1 := with_heap (alter (λ n, mkNode (label n) (<[name := value]> (properties n))
                                          (connections n)) h) db) in *.
    assert (Hagree : ∀ x, x ≠ h → heap db1 !! x = heap db !! x).
    { intros x Hne'. unfold db1. simpl. by rewrite list_lookup_alter_ne. }
    assert (Hnew : heap db1 !! h =
              Some (mkNode (label nd) (<[name := value]> (properties nd)) (connections nd))).
    { unfold db1. simpl. by rewrite list_lookup_alter_eq, Hnd. }
    assert (Hid1 : is_Some (<[name := value]> (properties nd) !! "id")).
    { rewrite lookup_insert_ne by done. rewrite Hid. eauto. }
    assert (Hkeep : ∀ nd', heap db !! h = Some nd' → label nd' = label nd).
    { intros nd' Hnd'. congruence. }
    destruct (reIndex_label_restores h db db1
                (mkNode (label nd) (<[name := value]> (properties nd)) (connections nd))
                Hinv Hlab eq_refl eq_refl eq_refl Hagree Hnew Hid1 Hkeep)
      as (db' & Hrun' & Hlab').
    rewrite Hrun' in Hrun. by simplify_eq.
  - destruct (connect_cases rt q1 q2 db Hinv)
      as [[e ->]|(a & b & _ & _ & Hab & _ & _ & -> & _)]; [done|].
    simpl. destruct Hlab as [HL Hid Hlabel].
    assert (Hsame : ∀ x nd', alter (addConn a) b (alter (addConn b) a (heap db)) !! x = Some nd' →
              ∃ nd, heap db !! x = Some nd ∧ label nd' = label nd ∧
                    properties nd' = properties nd).
    { intros x nd' Hx. rewrite connect_heap_lookup in Hx by done.
      apply fmap_Some in Hx as (nd & Hnd & ->). exists nd. split; [done|].
      repeat case_decide; done. }
    split.
    + exact HL.
    + simpl. intros x nd' Hx. destruct (Hsame x nd' Hx) as (nd & Hnd & _ & ->). by eapply Hid.
    + intros l x.
      change (idxset (with_heap (λ hp, alter (addConn a) b (alter (addConn b) a hp)) db)
                l None None) with (idxset db l None None).
      rewrite Hlabel. simpl. split.
      * intros (nd & Hnd & Hl).
        destruct (lookup_lt_is_Some_2 (alter (addConn a) b (alter (addConn b) a (heap db))) x)
          as [nd' Hnd'].
        { rewrite !length_alter. by apply lookup_lt_Some in Hnd. }
        destruct (Hsame x nd' Hnd') as (nd0 & Hnd0 & Hl0 & _).
        exists nd'. split; [done|]. congruence.
      * intros (nd' & Hnd' & Hl). destruct (Hsame x nd' Hnd') as (nd & Hnd & Hl0 & _).
        exists nd. split; [done|]. congruence.
Qed.

Lemma reachable_label_inv (rt : Runtime) (ops : list Op) : label_inv (reachable rt ops).
Proof.
  unfold reachable.
  assert (H : ∀ db, store_inv db → label_inv db → label_inv (run rt ops db)).
  { induction ops as [|op ops' IH]; intros db Hinv Hlab; simpl; [done|].
    apply IH; [by apply exec_store_inv|by apply exec_label_inv]. }
  apply H; [|apply label_inv_init].
  split; [apply index_shape_init|apply index_consistent_init].
Qed.

(** X13. [query] with a bare label returns the stored nodes with that
    label: on every store the operations can build and for every label
    without [:], [query(label)] returns, does not change the store, and a
    node is in the returned set exactly when it is stored with that label.
    The label-only sets of the index are never listed in [allIndexSets], so
    that re-indexing a node does not take it out of the set of its label;
    every stored node has its [id]. *)
Theorem query_by_label (rt : Runtime) (ops : list Op) (l : string) :
  Str.count ":" l = 0 →
  let db := reachable rt ops in
  ∃ s, query (Some l) db = (db, Return s) ∧
       (∀ h, h ∈ s ↔ ∃ nd, heap db !! h = Some nd ∧ label nd = l) ∧
       (∀ r, r ∈ allIndexSets db → idxref db l None None ≠ Some r) ∧
       (∀ h nd, heap db !! h = Some nd → is_Some (properties nd !! "id")).
Proof.
  intros Hl db.
  destruct (reachable_label_inv rt ops) as [HL Hid Hlab]. fold db in HL, Hid, Hlab.
  destruct (reachable_store_inv rt ops) as [Hs _]. fold db in Hs.
  exists (idxset db l None None). split_and!.
  - rewrite query_unfold.
    pose proof (parseQueryQualifier_cases l) as Hp. rewrite Hl in Hp. by rewrite Hp.
  - apply Hlab.
  - intros r Hr Href. destruct (HL r Hr) as (l0 & k0 & v0 & H0).
    destruct (shape_inj _ Hs _ _ _ _ _ _ _ Href H0) as (_ & ? & _). done.
  - exact Hid.
Qed.

(** ** A filter that does not parse *)

(** X14. A filter with more than one [=] is only found out when a node
    beyond the start node is tested.  For a depth bound that is not
    negative, [bfs] with such a filter returns the start node alone when the
    start node has no connection; when it has one, the call returns the
    start node and an empty level 1 for the depth bound 0, and raises
    "Invalid Query" for every greater bound. *)
Theorem bfs_malformed_filter (rt : Runtime) (db : GraphDB) (s : Handle) (f : string)
    (maxDepth : Z) :
  2 ≤ Str.count "=" f → (0 ≤ maxDepth)%Z →
  bfs rt s (Some f) maxDepth db =
    (db, if decide (adj db s ⊆ {[s]}) then Return [("0", [s])]
         else if decide (maxDepth = 0)%Z then Return [("0", [s]); ("1", [])]
         else Raise InvalidQuery).
Proof.
  intros Hf Hd. rewrite bfs_unfold. f_equal.
  assert (Hparse : parseQueryClause f = Raise InvalidQuery).
  { pose proof (parseQueryClause_cases f) as H.
    destruct (Str.count "=" f) as [|[|n]]; [lia|lia|done]. }
  unfold bfs_fuel.
  replace (2 * size (bfs_universe db s) + 3) with (S (S (S (2 * size (bfs_universe db s)))))
    by lia.
  generalize (2 * size (bfs_universe db s)). intros n.
  destruct (visitChild_fold_exact (set_iter rt (connections (nodeAt (heap db) s)))
              [None] ({[s]} ∪ ∅)) as (news & H1 & H2 & H3).
  assert (Hcs : list_to_set (set_iter rt (connections (nodeAt (heap db) s))) = adj db s).
  { apply set_eq. intros x. rewrite elem_of_list_to_set. apply elem_of_set_iter. }
  rewrite Hcs in H3.
  assert (Hz : (Z.of_nat 0 <=? maxDepth)%Z = true) by (apply Z.leb_le; simpl; lia).
  cbn [bfs_outcome]. rewrite !H1, !Hz.
  destruct (decide (adj db s ⊆ {[s]})) as [Hsub|Hsub].
  - assert (news = []) as ->.
    { destruct news as [|x news']; [done|]. exfalso.
      assert (Hx : x ∈ adj db s ∖ ({[s]} ∪ ∅)) by (rewrite <- H3; set_solver).
      set_solver. }
    reflexivity.
  - destruct news as [|x news'].
    { exfalso. apply Hsub. simpl in H3. intros y Hy.
      destruct (decide (y = s)) as [->|Hys]; [set_solver|].
      assert (Hin : y ∈ adj db s ∖ ({[s]} ∪ ∅)) by set_solver.
      rewrite <- H3 in Hin. set_solver. }
    destruct (decide (maxDepth = 0)%Z) as [->|Hne]; [reflexivity|].
    assert (H1z : (Z.of_nat 1 <=? maxDepth)%Z = true) by (apply Z.leb_le; simpl; lia).
    rewrite H1z. simpl. unfold matches_outcome. by rewrite Hparse.
Qed.

(** ** Witnesses of the properties of the store *)

Lemma label_and_id_are_immutable_witness :
  heap (reachable cpython0 pair_ops) !! 0 = Some (Node_init "eljo" "Person") ∧
  ∃ nd', heap (reachable cpython0
                 (pair_ops ++ [OpConnect "Person:eljo" "Person:norah"])) !! 0 = Some nd' ∧
         label nd' = label (Node_init "eljo" "Person") ∧
         properties nd' !! "id" = properties (Node_init "eljo" "Person") !! "id" ∧
         connections (Node_init "eljo" "Person") ⊆ connections nd'.
Proof.
  split; [vm_compute; reflexivity|].
  apply (label_and_id_are_immutable cpython0 pair_ops
           [OpConnect "Person:eljo" "Person:norah"] 0 (Node_init "eljo" "Person")).
  vm_compute. reflexivity.
Defined.

Lemma addOrUpdateNodeProperty_returns_witness :
  addOrUpdateNodeProperty cpython0 "Person:eljo" "gender" "Male" pair_db =
    ((addOrUpdateNodeProperty cpython0 "Person:eljo" "gender" "Male" pair_db).1, Return tt) ∧
  ∃ h nd,
    queryById cpython0 "Person:eljo" pair_db = (pair_db, Return h) ∧
    heap pair_db !! h = Some nd ∧ "gender" ≠ "id" ∧
    heap (addOrUpdateNodeProperty cpython0 "Person:eljo" "gender" "Male" pair_db).1 =
      <[h := mkNode (label nd) (<["gender" := "Male"]> (properties nd)) (connections nd)]>
        (heap pair_db) ∧
    nodes (addOrUpdateNodeProperty cpython0 "Person:eljo" "gender" "Male" pair_db).1 =
      nodes pair_db ∧
    h ∈ idxset (addOrUpdateNodeProperty cpython0 "Person:eljo" "gender" "Male" pair_db).1
          (label nd) (Some "gender") (Some "Male") ∧
    (∀ other, other ≠ "Male" →
       h ∉ idxset (addOrUpdateNodeProperty cpython0 "Person:eljo" "gender" "Male" pair_db).1
             (label nd) (Some "gender") (Some other)).
Proof.
  split; [vm_compute; reflexivity|].
  apply (addOrUpdateNodeProperty_returns cpython0 pair_ops "Person:eljo" "gender" "Male").
  vm_compute. reflexivity.
Defined.

Lemma addNode_returns_witness :
  addNode cpython0 "Person" "merin" pair_db =
    ((addNode cpython0 "Person" "merin" pair_db).1, Return tt) ∧
  (length (heap pair_db) ∉ nodes pair_db) ∧
  heap (addNode cpython0 "Person" "merin" pair_db).1 =
    heap pair_db ++ [mkNode "Person" {["id" := "merin"]} ∅] ∧
  nodes (addNode cpython0 "Person" "merin" pair_db).1 =
    {[length (heap pair_db)]} ∪ nodes pair_db ∧
  length (heap pair_db) ∈
    idxset (addNode cpython0 "Person" "merin" pair_db).1 "Person" (Some "id") (Some "merin") ∧
  (∀ l' k v x, x ≠ length (heap pair_db) →
     x ∈ idxset (addNode cpython0 "Person" "merin" pair_db).1 l' (Some k) (Some v) ↔
     x ∈ idxset pair_db l' (Some k) (Some v)).
Proof.
  split; [vm_compute; reflexivity|].
  apply (addNode_returns cpython0 pair_ops "Person" "merin").
  vm_compute. reflexivity.
Defined.

Lemma connect_to_itself_raises_witness :
  queryById cpython0 "Person:eljo" pair_db = (pair_db, Return 0) ∧
  connect cpython0 "Person:eljo" "Person:eljo" pair_db =
    (pair_db, Raise CannotConnectOneself).
Proof.
  split; [vm_compute; reflexivity|].
  apply (connect_to_itself_raises cpython0 pair_db "Person:eljo" "Person:eljo" 0);
    vm_compute; reflexivity.
Defined.

Lemma qualifier_round_trip_witness :
  Str.count ":" "Person" = 0 ∧ Str.count ":" "gender" = 0 ∧ Str.count ":" "Female" = 0 ∧
  Str.count "=" "gender" = 0 ∧ Str.count "=" "Female" = 0 ∧
  parseQueryQualifier ("Person" +:+ ":" +:+ "gender" +:+ "=" +:+ "Female") =
    Return ("Person", Some "gender", Some "Female") ∧
  parseQueryQualifier ("Person" +:+ ":" +:+ "Female") =
    Return ("Person", Some "id", Some "Female") ∧
  parseQueryQualifier "Person" = Return ("Person", None, None) ∧
  parseQueryClause ("gender" +:+ "=" +:+ "Female") = Return ("gender", "Female") ∧
  parseQueryClause "Female" = Return ("id", "Female").
Proof.
  do 5 (split; [reflexivity|]).
  apply (qualifier_round_trip "Person" "gender" "Female"); reflexivity.
Defined.

Lemma queryById_after_addNode_witness :
  addNode cpython0 "Person" "merin" pair_db =
    ((addNode cpython0 "Person" "merin" pair_db).1, Return tt) ∧
  Str.count ":" "Person" = 0 ∧ Str.count ":" "merin" = 0 ∧ Str.count "=" "merin" = 0 ∧
  ∃ h nd,
    queryById cpython0 ("Person" +:+ ":" +:+ "merin")
      (addNode cpython0 "Person" "merin" pair_db).1 =
      ((addNode cpython0 "Person" "merin" pair_db).1, Return h) ∧
    heap (addNode cpython0 "Person" "merin" pair_db).1 !! h = Some nd ∧
    label nd = "Person" ∧ properties nd !! "id" = Some "merin".
Proof.
  split; [vm_compute; reflexivity|]. do 3 (split; [reflexivity|]).
  apply (queryById_after_addNode cpython0 pair_ops "Person" "merin");
    [vm_compute; reflexivity|reflexivity..].
Defined.

(** ** Witnesses of the properties of the traversal and of the zones *)

Lemma bfs_levels_are_distances_witness :
  (-1 ≤ 2)%Z ∧
  ∃ levels : Levels,
    bfs cpython0 0 None 2 pair_db = (pair_db, Return levels) ∧
    (∀ n l h, dict_get (pretty n) levels = Some l → h ∈ l →
       (Z.of_nat n ≤ 2)%Z ∧ distance pair_db 0 h n) ∧
    (∀ n h, (Z.of_nat n ≤ 2)%Z → distance pair_db 0 h n →
       ∃ l, dict_get (pretty n) levels = Some l ∧ h ∈ l) ∧
    (∀ n, is_Some (dict_get (pretty n) levels) ↔
          (Z.of_nat n ≤ 2 + 1)%Z ∧ ∃ h, distance pair_db 0 h n) ∧
    (∀ n, Z.of_nat n = (2 + 1)%Z → (∃ h, distance pair_db 0 h n) →
          dict_get (pretty n) levels = Some []).
Proof.
  split; [lia|]. apply (bfs_levels_are_distances cpython0 pair_db 0 2). lia.
Defined.

Lemma determinZone_zones_witness :
  str_format cpython0 "eljo" "" = Some "eljo" ∧
  queryById cpython0 ("Person:" +:+ "eljo") pair_db = (pair_db, Return 0) ∧
  ∃ zone : string,
    determinZone cpython0 "eljo" pair_db = (pair_db, Return zone) ∧
    (zone = "Infected" ↔ infected pair_db 0) ∧
    (zone = "Red" ↔
       ¬ infected pair_db 0 ∧ ∃ x, distance pair_db 0 x 1 ∧ infected pair_db x) ∧
    (zone = "Orange" ↔
       ¬ infected pair_db 0 ∧ (¬ ∃ x, distance pair_db 0 x 1 ∧ infected pair_db x) ∧
       ∃ x, distance pair_db 0 x 2 ∧ infected pair_db x) ∧
    (zone = "Green" ↔
       ¬ infected pair_db 0 ∧ (¬ ∃ x, distance pair_db 0 x 1 ∧ infected pair_db x) ∧
       ¬ ∃ x, distance pair_db 0 x 2 ∧ infected pair_db x).
Proof.
  split; [vm_compute; reflexivity|]. split; [vm_compute; reflexivity|].
  apply (determinZone_zones cpython0 pair_db "eljo" 0); vm_compute; reflexivity.
Defined.

Lemma query_by_label_witness :
  Str.count ":" "Person" = 0 ∧
  ∃ s, query (Some "Person") (reachable cpython0 pair_ops) =
         (reachable cpython0 pair_ops, Return s) ∧
       (∀ h, h ∈ s ↔ ∃ nd, heap (reachable cpython0 pair_ops) !! h = Some nd ∧
                            label nd = "Person") ∧
       (∀ r, r ∈ allIndexSets (reachable cpython0 pair_ops) →
             idxref (reachable cpython0 pair_ops) "Person" None None ≠ Some r) ∧
       (∀ h nd, heap (reachable cpython0 pair_ops) !! h = Some nd →
                is_Some (properties nd !! "id")).
Proof.
  split; [reflexivity|]. apply (query_by_label cpython0 pair_ops "Person"). reflexivity.
Defined.

Lemma bfs_malformed_filter_witness :
  2 ≤ Str.count "=" "a=b=c" ∧ (0 ≤ 2)%Z ∧
  bfs cpython0 0 (Some "a=b=c") 2 pair_db =
    (pair_db, if decide (adj pair_db 0 ⊆ {[0]}) then Return [("0", [0])]
              else if decide (2 = 0)%Z then Return [("0", [0]); ("1", [])]
              else Raise InvalidQuery).
Proof.
  split; [vm_compute; lia|]. split; [lia|].
  apply (bfs_malformed_filter cpython0 pair_db 0 "a=b=c" 2); [vm_compute; lia|lia].
Defined.

Lemma markInfected_zones_witness :
  addOrUpdateNodeProperty cpython0 ("Person:" +:+ "A") "infected" "yes"
      (reachable cpython0 chain_ops) =
    ((addOrUpdateNodeProperty cpython0 ("Person:" +:+ "A") "infected" "yes"
        (reachable cpython0 chain_ops)).1, Return tt) ∧
  ∃ h, queryById cpython0 ("Person:" +:+ "A") (reachable cpython0 chain_ops) =
         (reachable cpython0 chain_ops, Return h) ∧
    infected (addOrUpdateNodeProperty cpython0 ("Person:" +:+ "A") "infected" "yes"
                (reachable cpython0 chain_ops)).1 h ∧
    ∀ (contactId : string) (c : Handle) (n : nat),
      str_format cpython0 contactId "" = Some contactId →
      queryById cpython0 ("Person:" +:+ contactId)
          (addOrUpdateNodeProperty cpython0 ("Person:" +:+ "A") "infected" "yes"
             (reachable cpython0 chain_ops)).1 =
        ((addOrUpdateNodeProperty cpython0 ("Person:" +:+ "A") "infected" "yes"
            (reachable cpython0 chain_ops)).1, Return c) →
      distance (addOrUpdateNodeProperty cpython0 ("Person:" +:+ "A") "infected" "yes"
                  (reachable cpython0 chain_ops)).1 h c n →
      ∃ zone,
        determinZone cpython0 contactId
            (addOrUpdateNodeProperty cpython0 ("Person:" +:+ "A") "infected" "yes"
               (reachable cpython0 chain_ops)).1 =
          ((addOrUpdateNodeProperty cpython0 ("Person:" +:+ "A") "infected" "yes"
              (reachable cpython0 chain_ops)).1, Return zone) ∧
        (n = 0 → zone = "Infected") ∧
        (n = 1 → zone = "Infected" ∨ zone = "Red") ∧
        (n = 2 → zone ≠ "Green").
Proof.
  split; [vm_compute; reflexivity|].
  apply (markInfected_zones cpython0 chain_ops "A"). vm_compute. reflexivity.
Defined.

Lemma markRecovered_zone_witness :
  "no" ≠ "yes" ∧
  addOrUpdateNodeProperty cpython0 ("Person:" +:+ "eljo") "infected" "no" pair_db =
    ((addOrUpdateNodeProperty cpython0 ("Person:" +:+ "eljo") "infected" "no" pair_db).1,
     Return tt) ∧
  ∃ h, queryById cpython0 ("Person:" +:+ "eljo") pair_db = (pair_db, Return h) ∧
    properties
      (nodeAt (heap (addOrUpdateNodeProperty cpython0 ("Person:" +:+ "eljo") "infected" "no"
                       pair_db).1) h) !! "infected" = Some "no" ∧
    ∀ contactId : string,
      str_format cpython0 contactId "" = Some contactId →
      queryById cpython0 ("Person:" +:+ contactId)
          (addOrUpdateNodeProperty cpython0 ("Person:" +:+ "eljo") "infected" "no" pair_db).1 =
        ((addOrUpdateNodeProperty cpython0 ("Person:" +:+ "eljo") "infected" "no" pair_db).1,
         Return h) →
      ∃ zone,
        determinZone cpython0 contactId
            (addOrUpdateNodeProperty cpython0 ("Person:" +:+ "eljo") "infected" "no"
               pair_db).1 =
          ((addOrUpdateNodeProperty cpython0 ("Person:" +:+ "eljo") "infected" "no"
              pair_db).1, Return zone) ∧
        zone ≠ "Infected".
Proof.
  split; [discriminate|]. split; [vm_compute; reflexivity|].
  apply (markRecovered_zone cpython0 pair_ops "eljo" "no"); [discriminate|].
  vm_compute. reflexivity.
Defined.

Lemma connections_are_undirected_witness :
  heap (reachable cpython0 chain_ops) !! 1 =
    Some (mkNode "Person" {["id" := "B"]} {[0; 2]}) ∧
  (1 ∉ connections (mkNode "Person" {["id" := "B"]} {[0; 2]})) ∧
  ∀ b, b ∈ connections (mkNode "Person" {["id" := "B"]} {[0; 2]}) →
    ∃ nb, heap (reachable cpython0 chain_ops) !! b = Some nb ∧ 1 ∈ connections nb.
Proof.
  split; [vm_compute; reflexivity|].
  apply (connections_are_undirected cpython0 chain_ops 1
           (mkNode "Person" {["id" := "B"]} {[0; 2]})).
  vm_compute. reflexivity.
Defined.
